(** * Glyph outline decoding of freetype/truetype/glyph.go

    A shallow embedding of the glyph loader ([decodeFlags], [decodeCoords],
    [loadCompound], [load], [Load]) together with the properties its
    specification states about it.

    Conventions.
    - Go's [int] (64 bit) is modelled by [Z]: every [int] of this file is a
      slice length, a byte offset, or one of those plus a 16-bit quantity.
    - [int8], [int16], [int32] values are the signed representative in [Z];
      every arithmetic operation on them is followed by the wrap-around of
      its width.
    - A Go slice is its visible elements together with the rest of its
      backing array up to the capacity, because the code tests [cap] and
      re-slices within it.
    - A run-time panic (index or slice bound out of range) is the outcome
      [Panic]; an [error] value is an ordinary return value, as in Go. *)

From Stdlib Require Import ZArith Lia String.
From Stdlib.Strings Require Import Byte.
From stdpp Require Import base list.

Open Scope Z_scope.

(** ** Fixed-width integers *)

Definition wrap (bits z : Z) : Z :=
  (z + 2 ^ (bits - 1)) mod 2 ^ bits - 2 ^ (bits - 1).

Definition int8 (z : Z) : Z := wrap 8 z.
Definition int16 (z : Z) : Z := wrap 16 z.
Definition int32 (z : Z) : Z := wrap 32 z.
Definition uint16 (z : Z) : Z := z mod 2 ^ 16.
Definition uint32 (z : Z) : Z := z mod 2 ^ 32.

Definition add16 (a b : Z) : Z := int16 (a + b).
Definition sub16 (a b : Z) : Z := int16 (a - b).
Definition add32 (a b : Z) : Z := int32 (a + b).
Definition mul32 (a b : Z) : Z := int32 (a * b).

(** [x &^ y] on int32. *)
Definition andnot32 (x y : Z) : Z := int32 (Z.land x (Z.lnot y)).

(** [x & m != 0] *)
Definition has (x m : Z) : bool := negb (Z.land x m =? 0).

Definition byte_val (b : byte) : Z := Z.of_N (Byte.to_N b).

(** ** Slices *)

Record slice (A : Type) := Slice { elems : list A; spare : list A }.
Arguments Slice {A} _ _.
Arguments elems {A} _.
Arguments spare {A} _.

Definition backing {A} (s : slice A) : list A := elems s ++ spare s.
Definition len {A} (s : slice A) : Z := Z.of_nat (length (elems s)).
Definition cap {A} (s : slice A) : Z := Z.of_nat (length (backing s)).

(** [l[i]]: [None] is the index-out-of-range panic. *)
Definition index {A} (l : list A) (i : Z) : option A :=
  if 0 <=? i then l !! Z.to_nat i else None.

(** [l[i] = v] *)
Definition store {A} (l : list A) (i : Z) (v : A) : option (list A) :=
  if (0 <=? i) && (i <? Z.of_nat (length l))
  then Some (<[Z.to_nat i := v]> l) else None.

(** [s[lo:hi]]: the bounds are checked against the capacity. *)
Definition subslice {A} (s : slice A) (lo hi : Z) : option (slice A) :=
  if (0 <=? lo) && (lo <=? hi) && (hi <=? cap s)
  then Some (Slice (take (Z.to_nat (hi - lo)) (drop (Z.to_nat lo) (backing s)))
                   (drop (Z.to_nat hi) (backing s)))
  else None.

(** [make([]T, n, c)] *)
Definition make {A} (zero : A) (n c : Z) : slice A :=
  Slice (replicate (Z.to_nat n) zero) (replicate (Z.to_nat (c - n)) zero).

(** [copy(dst, src)] on the visible elements. *)
Definition copy {A} (dst src : list A) : list A :=
  take (length dst) src ++ drop (length src) dst.

(** ** Data model *)

Record Point := mkPoint { X : Z; Y : Z; Flags : Z }.

Record Bounds := mkBounds { XMin : Z; YMin : Z; XMax : Z; YMax : Z }.

Definition zeroPoint : Point := mkPoint 0 0 0.
Definition zeroBounds : Bounds := mkBounds 0 0 0 0.

(** [Unhinted], [InFontUnits] and [Twilight] are only truncated to length
    zero and appended to; their capacity is never observed, so they are
    plain lists. *)
Record GlyphBuf := mkGlyphBuf {
  B : Bounds;
  Points : slice Point;
  Unhinted : list Point;
  InFontUnits : list Point;
  Twilight : list Point;
  End : slice Z
}.

Inductive error :=
  | UnsupportedError (msg : string)
  | FormatError (msg : string).

(** Modelled from the spec: the font collaborator's [loca] offset-width
    mode, 16-bit or 32-bit entries (the constant [locaOffsetFormatShort] is
    declared outside this file). *)
Inductive locaFormat := locaOffsetFormatShort | locaOffsetFormatLong.

(** The font collaborator.  Its [scale] method is defined outside this
    file and is taken as the parameter [scaleFn]. *)
Record Font := mkFont {
  loca : list byte;
  glyf : slice byte;
  locaOffsetFormat : locaFormat;
  scaleFn : Z -> Z
}.

(** [f.scale(x)], an int32. *)
Definition Font_scale (f : Font) (x : Z) : Z := int32 (scaleFn f x).

(** Modelled from the spec: [u16] and [u32] are declared outside this file;
    they read an unsigned big-endian value of 2 and 4 bytes at index [i] of
    a byte slice. *)
Definition u16 (b : list byte) (i : Z) : option Z :=
  b0 ← index b i; b1 ← index b (i + 1);
  Some (Z.lor (Z.shiftl (byte_val b0) 8) (byte_val b1)).

Definition u32 (b : list byte) (i : Z) : option Z :=
  b0 ← index b i; b1 ← index b (i + 1);
  b2 ← index b (i + 2); b3 ← index b (i + 3);
  Some (Z.lor (Z.lor (Z.lor (Z.shiftl (byte_val b0) 24)
                            (Z.shiftl (byte_val b1) 16))
                     (Z.shiftl (byte_val b2) 8))
              (byte_val b3)).

(** Flags for decoding a glyph's contours. *)
Definition flagOnCurve : Z := 1.
Definition flagXShortVector : Z := 2.
Definition flagYShortVector : Z := 4.
Definition flagRepeat : Z := 8.
Definition flagPositiveXShortVector : Z := 16.
Definition flagPositiveYShortVector : Z := 32.
Definition flagThisXIsSame : Z := flagPositiveXShortVector.
Definition flagThisYIsSame : Z := flagPositiveYShortVector.

(** Flags for decoding a compound glyph. *)
Definition flagArg1And2AreWords : Z := 1.
Definition flagArgsAreXYValues : Z := 2.
Definition flagRoundXYToGrid : Z := 4.
Definition flagWeHaveAScale : Z := 8.
Definition flagMoreComponents : Z := 32.
Definition flagWeHaveAnXAndYScale : Z := 64.
Definition flagWeHaveATwoByTwo : Z := 128.
Definition flagUseMyMetrics : Z := 512.

Section Loader.

(** The private state of the hinting collaborator. *)
Context {H : Type}.

(** What a call can read and change: the glyph buffer it is a method of,
    and the state of the hinter, which holds a pointer to the buffer. *)
Record World := mkWorld { buf : GlyphBuf; hstate : H }.

Inductive Res (A : Type) :=
  | Ret (a : A) (w : World)
  | Panic
  | Timeout.
Arguments Ret {A} _ _.
Arguments Panic {A}.
Arguments Timeout {A}.

Definition M (A : Type) : Type := World -> Res A.

Definition ret {A} (a : A) : M A := fun w => Ret a w.
Definition panic {A} : M A := fun _ => Panic.
Definition timeout {A} : M A := fun _ => Timeout.
Definition bind {A C} (m : M A) (k : A -> M C) : M C :=
  fun w => match m w with
           | Ret a w' => k a w'
           | Panic => Panic
           | Timeout => Timeout
           end.

Notation "x <- m ;; k" := (bind m (fun x => k))
  (at level 62, m at next level, right associativity).
Notation "m ;;; k" := (bind m (fun _ => k))
  (at level 62, right associativity).

Definition get : M GlyphBuf := fun w => Ret (buf w) w.
Definition put (g : GlyphBuf) : M unit := fun w => Ret tt (mkWorld g (hstate w)).
Definition check {A} (o : option A) : M A :=
  match o with Some a => ret a | None => panic end.

(** [for i := lo; i < hi; i++ { s = body(i, s) }], [n] iterations from [i]. *)
Fixpoint for_loop {S} (n : nat) (i : Z) (s : S) (body : Z -> S -> M S) : M S :=
  match n with
  | O => ret s
  | S n' => s' <- body i s ;; for_loop n' (i + 1) s' body
  end.

Definition for_range {S} (lo hi : Z) (s : S) (body : Z -> S -> M S) : M S :=
  for_loop (Z.to_nat (hi - lo)) lo s body.

(** *** Field access on the buffer *)

Definition set_B (b : Bounds) (g : GlyphBuf) : GlyphBuf :=
  mkGlyphBuf b (Points g) (Unhinted g) (InFontUnits g) (Twilight g) (End g).
Definition set_Points (p : slice Point) (g : GlyphBuf) : GlyphBuf :=
  mkGlyphBuf (B g) p (Unhinted g) (InFontUnits g) (Twilight g) (End g).
Definition set_Unhinted (p : list Point) (g : GlyphBuf) : GlyphBuf :=
  mkGlyphBuf (B g) (Points g) p (InFontUnits g) (Twilight g) (End g).
Definition set_InFontUnits (p : list Point) (g : GlyphBuf) : GlyphBuf :=
  mkGlyphBuf (B g) (Points g) (Unhinted g) p (Twilight g) (End g).
Definition set_Twilight (p : list Point) (g : GlyphBuf) : GlyphBuf :=
  mkGlyphBuf (B g) (Points g) (Unhinted g) (InFontUnits g) p (End g).
Definition set_End (e : slice Z) (g : GlyphBuf) : GlyphBuf :=
  mkGlyphBuf (B g) (Points g) (Unhinted g) (InFontUnits g) (Twilight g) e.

Definition set_elems {A} (l : list A) (s : slice A) : slice A :=
  Slice l (spare s).

Definition with_X (x : Z) (p : Point) : Point := mkPoint x (Y p) (Flags p).
Definition with_Y (y : Z) (p : Point) : Point := mkPoint (X p) y (Flags p).
Definition with_Flags (c : Z) (p : Point) : Point := mkPoint (X p) (Y p) c.

(** [len(g.Point)] *)
Definition lenPoint : M Z := g <- get ;; ret (len (Points g)).

(** [g.Point[i]] *)
Definition getPoint (i : Z) : M Point :=
  g <- get ;; check (index (elems (Points g)) i).

(** [g.Point[i].field = v], as an update of the element. *)
Definition updPoint (i : Z) (upd : Point -> Point) : M unit :=
  g <- get ;;
  p <- check (index (elems (Points g)) i) ;;
  l <- check (store (elems (Points g)) i (upd p)) ;;
  put (set_Points (set_elems l (Points g)) g).

(** ** decodeFlags *)

(** [for ; count > 0; count-- { g.Point[i].Flags = c; i++ }] *)
Fixpoint decodeFlags_repeat (count : nat) (c : Z) (i : Z) : M Z :=
  match count with
  | O => ret i
  | S count' => updPoint i (with_Flags c) ;;; decodeFlags_repeat count' c (i + 1)
  end.

(** The outer loop; every round advances [i], [fuel] bounds the rounds. *)
Fixpoint decodeFlags_loop (fuel : nat) (d : list byte) (offset i : Z) : M Z :=
  n <- lenPoint ;;
  if i <? n then
    match fuel with
    | O => timeout
    | S fuel' =>
        c <- check (index d offset) ;;
        let c := uint32 (byte_val c) in
        let offset := offset + 1 in
        updPoint i (with_Flags c) ;;;
        let i := i + 1 in
        if has c flagRepeat then
          count <- check (index d offset) ;;
          let offset := offset + 1 in
          i <- decodeFlags_repeat (Z.to_nat (byte_val count)) c i ;;
          decodeFlags_loop fuel' d offset i
        else decodeFlags_loop fuel' d offset i
    end
  else ret offset.

Definition decodeFlags (d : list byte) (offset np0 : Z) : M Z :=
  n <- lenPoint ;;
  decodeFlags_loop (Z.to_nat (n - np0)) d offset np0.

(** ** decodeCoords *)

(** One round of a coordinate pass: the loop state is the byte offset and
    the int16 accumulator. *)
Definition decodeCoords_step (short positive same : Z)
    (put_coord : Z -> Point -> Point)
    (d : list byte) (i : Z) (s : Z * Z) : M (Z * Z) :=
  let '(offset, x) := s in
  p <- getPoint i ;;
  let f := Flags p in
  s' <- (if has f short then
           dx <- check (index d offset) ;;
           let dx := int16 (byte_val dx) in
           let offset := offset + 1 in
           if negb (has f positive) then ret (offset, sub16 x dx)
           else ret (offset, add16 x dx)
         else if negb (has f same) then
           v <- check (u16 d offset) ;;
           ret (offset + 2, add16 x (int16 v))
         else ret (offset, x)) ;;
  updPoint i (put_coord (int32 (snd s'))) ;;;
  ret s'.

Definition decodeCoords (d : list byte) (offset np0 : Z) : M Z :=
  n <- lenPoint ;;
  sx <- for_range np0 n (offset, 0)
          (decodeCoords_step flagXShortVector flagPositiveXShortVector
             flagThisXIsSame with_X d) ;;
  n <- lenPoint ;;
  sy <- for_range np0 n (fst sx, 0)
          (decodeCoords_step flagYShortVector flagPositiveYShortVector
             flagThisYIsSame with_Y d) ;;
  ret (fst sy).

(** ** The hinting collaborator

    [Hinter], with its methods [init] and [run], is defined outside this
    file.  It is taken abstractly: each method may read and change the
    buffer and the hinter's own state, may return an error and may panic. *)
Record Hinter := mkHinter {
  h_init : Font -> Z -> M (option error);
  h_run : slice byte -> M (option error)
}.

(** ** loadCompound *)

(** The type of [g.load], as [loadCompound] calls it. *)
Definition loader : Type :=
  Font -> Z -> Z -> option Hinter -> Z -> Z -> bool -> Z -> M (option error).

(** The component loop.  Every round reads a record of at least 6 bytes at
    a strictly larger offset, [fuel] bounds the rounds. *)
Fixpoint loadCompound_loop (load : loader) (fuel : nat) (f : Font) (scale : Z)
    (h : option Hinter) (glyf : list byte) (offset dx dy recursion : Z)
    : M (option error) :=
  match fuel with
  | O => timeout
  | S fuel' =>
      flags <- check (u16 glyf offset) ;;
      component <- check (u16 glyf (offset + 2)) ;;
      a <- (if has flags flagArg1And2AreWords then
              a1 <- check (u16 glyf (offset + 4)) ;;
              a2 <- check (u16 glyf (offset + 6)) ;;
              ret (add32 dx (int32 (int16 a1)), add32 dy (int32 (int16 a2)),
                   offset + 8)
            else
              a1 <- check (index glyf (offset + 4)) ;;
              a2 <- check (index glyf (offset + 5)) ;;
              ret (add32 dx (int32 (int16 (int8 (byte_val a1)))),
                   add32 dy (int32 (int16 (int8 (byte_val a2)))),
                   offset + 6)) ;;
      let '(dx1, dy1, offset) := a in
      if negb (has flags flagArgsAreXYValues) then
        ret (Some (UnsupportedError "compound glyph transform vector"))
      else if has flags (Z.lor (Z.lor flagWeHaveAScale flagWeHaveAnXAndYScale)
                               flagWeHaveATwoByTwo) then
        ret (Some (UnsupportedError "compound glyph scale/transform"))
      else
        g <- get ;;
        let b0 := B g in
        load f scale component h dx1 dy1 (has flags flagRoundXYToGrid)
             (recursion + 1) ;;;
        (if negb (has flags flagUseMyMetrics) then
           g <- get ;; put (set_B b0 g)
         else ret tt) ;;;
        if negb (has flags flagMoreComponents) then ret None
        else loadCompound_loop load fuel' f scale h glyf offset dx dy recursion
  end.

Definition loadCompound (load : loader) (f : Font) (scale : Z)
    (h : option Hinter) (glyf : list byte) (offset dx dy recursion : Z)
    : M (option error) :=
  loadCompound_loop load (S (length glyf)) f scale h glyf offset dx dy recursion.

(** ** load *)

Definition set_XMin (v : Z) (b : Bounds) := mkBounds v (YMin b) (XMax b) (YMax b).
Definition set_YMin (v : Z) (b : Bounds) := mkBounds (XMin b) v (XMax b) (YMax b).
Definition set_XMax (v : Z) (b : Bounds) := mkBounds (XMin b) (YMin b) v (YMax b).
Definition set_YMax (v : Z) (b : Bounds) := mkBounds (XMin b) (YMin b) (XMax b) v.

(** [g.B.field = v] *)
Definition updB (upd : Bounds -> Bounds) : M unit :=
  g <- get ;; put (set_B (upd (B g)) g).

(** [g.InFontUnits[i].X += dx; g.InFontUnits[i].Y += dy] *)
Definition shiftInFontUnits (dx dy i : Z) (_ : unit) : M unit :=
  g <- get ;;
  p <- check (index (InFontUnits g) i) ;;
  l <- check (store (InFontUnits g) i
                (mkPoint (add32 (X p) dx) (add32 (Y p) dy) (Flags p))) ;;
  put (set_InFontUnits l g).

(** The two scaling loops of [load]. *)
Definition scaleRounded (f : Font) (scale dx dy i : Z) (_ : unit) : M unit :=
  p <- getPoint i ;;
  updPoint i (with_X (add32 dx (Font_scale f (mul32 scale (X p))))) ;;;
  p <- getPoint i ;;
  updPoint i (with_Y (add32 dy (Font_scale f (mul32 scale (Y p))))).

Definition scaleUnrounded (f : Font) (scale dx dy i : Z) (_ : unit) : M unit :=
  p <- getPoint i ;;
  updPoint i (with_X (Font_scale f (mul32 scale (add32 (X p) dx)))) ;;;
  p <- getPoint i ;;
  updPoint i (with_Y (Font_scale f (mul32 scale (add32 (Y p) dy)))).

(** [if roundDxDy { ... } else { ... }] over the points [np0 .. np). *)
Definition scalePoints (f : Font) (scale dx dy : Z) (roundDxDy : bool)
    (np0 np : Z) : M unit :=
  if roundDxDy then
    let dx := andnot32 (add32 (Font_scale f (mul32 scale dx)) 32) 63 in
    let dy := andnot32 (add32 (Font_scale f (mul32 scale dy)) 32) 63 in
    for_range np0 np tt (scaleRounded f scale dx dy)
  else
    for_range np0 np tt (scaleUnrounded f scale dx dy).

(** The byte range of glyph [i] in [f.glyf], from [f.loca]. *)
Definition glyphRange (f : Font) (i : Z) : option (Z * Z) :=
  match locaOffsetFormat f with
  | locaOffsetFormatShort =>
      a ← u16 (loca f) (2 * i); b ← u16 (loca f) (2 * i + 2);
      Some (uint32 (2 * uint32 a), uint32 (2 * uint32 b))
  | locaOffsetFormatLong =>
      a ← u32 (loca f) (4 * i); b ← u32 (loca f) (4 * i + 4);
      Some (a, b)
  end.

(** [g.End[i] = 1 + np0 + int(u16(glyf, offset)); offset += 2] *)
Definition readEnd (glyf : list byte) (np0 i offset : Z) : M Z :=
  v <- check (u16 glyf offset) ;;
  g <- get ;;
  l <- check (store (elems (End g)) i (1 + np0 + v)) ;;
  put (set_End (set_elems l (End g)) g) ;;;
  ret (offset + 2).

(** The part of [load] after the contour count is known to be
    non-negative: a simple glyph. *)
Definition loadSimple (f : Font) (scale : Z) (h : option Hinter)
    (glyf : slice byte) (ne offset dx dy : Z) (roundDxDy : bool)
    : M (option error) :=
  g <- get ;;
  let ne0 := len (End g) in
  let np0 := len (Points g) in
  let ne := ne + ne0 in
  (if ne <=? cap (End g) then
     e <- check (subslice (End g) 0 ne) ;; put (set_End e g)
   else put (set_End (make 0 ne (ne * 2)) g)) ;;;
  offset <- for_range ne0 ne offset (readEnd (elems glyf) np0) ;;
  (* Note the TrueType hinting instructions. *)
  instrLen <- check (u16 (elems glyf) offset) ;;
  let offset := offset + 2 in
  program <- check (subslice glyf offset (offset + instrLen)) ;;
  let offset := offset + instrLen in
  (* Decode the points. *)
  g <- get ;;
  np <- check (index (elems (End g)) (ne - 1)) ;;
  (if np <=? cap (Points g) then
     p <- check (subslice (Points g) 0 np) ;; put (set_Points p g)
   else
     let p := Points g in
     let q := make zeroPoint np (np * 2) in
     put (set_Points (set_elems (copy (elems q) (elems p)) q) g)) ;;;
  offset <- decodeFlags (elems glyf) offset np0 ;;
  decodeCoords (elems glyf) offset np0 ;;;
  (* Delta-adjust, scale and hint. *)
  (match h with
   | Some _ =>
       g <- get ;;
       s <- check (subslice (Points g) np0 np) ;;
       put (set_InFontUnits (InFontUnits g ++ elems s) g) ;;;
       for_range np0 np tt (shiftInFontUnits dx dy)
   | None => ret tt
   end) ;;;
  scalePoints f scale dx dy roundDxDy np0 np ;;;
  match h with
  | Some hh =>
      g <- get ;;
      s <- check (subslice (Points g) np0 np) ;;
      put (set_Unhinted (Unhinted g ++ elems s) g) ;;;
      h_run hh program
  | None => ret None
  end.

(** [load] appends a glyph's contours to the buffer.  [fuel] bounds the
    nesting of calls; the recursion counter stops it at depth 4. *)
Fixpoint load (fuel : nat) (f : Font) (scale : Z) (i : Z) (h : option Hinter)
    (dx dy : Z) (roundDxDy : bool) (recursion : Z) : M (option error) :=
  match fuel with
  | O => timeout
  | S fuel' =>
      if recursion >=? 4 then
        ret (Some (UnsupportedError "excessive compound glyph recursion"))
      else
        (* Find the relevant slice of f.glyf. *)
        r <- check (glyphRange f i) ;;
        let '(g0, g1) := r in
        if g0 =? g1 then ret None
        else
          glyf <- check (subslice (glyf f) g0 g1) ;;
          (* Decode the contour end indices. *)
          ne <- check (u16 (elems glyf) 0) ;;
          let ne := int16 ne in
          v <- check (u16 (elems glyf) 2) ;; updB (set_XMin (int32 (int16 v))) ;;;
          v <- check (u16 (elems glyf) 4) ;; updB (set_YMin (int32 (int16 v))) ;;;
          v <- check (u16 (elems glyf) 6) ;; updB (set_XMax (int32 (int16 v))) ;;;
          v <- check (u16 (elems glyf) 8) ;; updB (set_YMax (int32 (int16 v))) ;;;
          let offset := 10 in
          if ne =? -1 then
            loadCompound (load fuel') f scale h (elems glyf) offset dx dy recursion
          else if ne <? 0 then
            ret (Some (UnsupportedError "negative number of contours"))
          else loadSimple f scale h glyf ne offset dx dy roundDxDy
  end.

(** ** Load *)

(** Nesting deeper than the recursion cap is rejected at the fifth call. *)
Definition load_fuel : nat := 5.

Definition Load (f : Font) (scale : Z) (i : Z) (h : option Hinter)
    : M (option error) :=
  (* Reset the GlyphBuf. *)
  g <- get ;;
  p <- check (subslice (Points g) 0 0) ;;
  e <- check (subslice (End g) 0 0) ;;
  put (mkGlyphBuf zeroBounds p [] [] [] e) ;;;
  err <- (match h with
          | Some hh => h_init hh f scale
          | None => ret None
          end) ;;
  match err with
  | Some err => ret (Some err)
  | None =>
      err <- load load_fuel f scale i h 0 0 false 0 ;;
      match err with
      | Some err => ret (Some err)
      | None =>
          g <- get ;; updB (set_XMin (Font_scale f (mul32 scale (XMin (B g))))) ;;;
          g <- get ;; updB (set_YMin (Font_scale f (mul32 scale (YMin (B g))))) ;;;
          g <- get ;; updB (set_XMax (Font_scale f (mul32 scale (XMax (B g))))) ;;;
          g <- get ;; updB (set_YMax (Font_scale f (mul32 scale (YMax (B g))))) ;;;
          ret None
      end
  end.

End Loader.

Notation "x <- m ;; k" := (bind m (fun x => k))
  (at level 62, m at next level, right associativity).
Notation "m ;;; k" := (bind m (fun _ => k))
  (at level 62, right associativity).

Arguments World : clear implicits.
Arguments Res : clear implicits.
Arguments M : clear implicits.
Arguments Hinter : clear implicits.
Arguments loader : clear implicits.
Arguments Ret {H A} _ _.
Arguments Panic {H A}.
Arguments Timeout {H A}.

(** [NewGlyphBuf] returns a newly allocated GlyphBuf. *)
Definition NewGlyphBuf : GlyphBuf :=
  mkGlyphBuf zeroBounds (make zeroPoint 0 256) [] [] [] (make 0 0 32).


(** * Vocabulary of the properties *)

(** [mapRange f lo hi l] applies [f] to the elements of [l] whose index is
    in [lo .. hi) and leaves the others. *)
Definition mapRange {A} (f : A -> A) (lo hi : Z) (l : list A) : list A :=
  imap (fun j a => if (lo <=? Z.of_nat j) && (Z.of_nat j <? hi) then f a else a) l.

(** The buffer's points inside a world. *)
Definition pts {H} (w : World H) : list Point := elems (Points (buf w)).
Definition plen {H} (w : World H) : Z := len (Points (buf w)).
Definition set_pts {H} (l : list Point) (w : World H) : World H :=
  mkWorld (set_Points (set_elems l (Points (buf w))) (buf w)) (hstate w).

(** [flags_only lo w w']: [w'] is [w] except for the [Flags] of points at
    index [lo] and above; no point is added or removed. *)
Definition flags_only {H} (lo : Z) (w w' : World H) : Prop :=
  exists l', w' = set_pts l' w /\ length l' = length (pts w) /\
    forall (j : nat) p, pts w !! j = Some p ->
      exists c, l' !! j = Some (with_Flags c p) /\ (Z.of_nat j < lo -> c = Flags p).

(** What a call returns, without the world it leaves. *)
Definition outcome {H A} (r : Res H A) : option (option A) :=
  match r with
  | Ret a _ => Some (Some a)
  | Panic => Some None
  | Timeout => None
  end.

(** ** The coordinate streams, in the words of the format

    One delta of one axis: the point's flag [f] selects a short vector (one
    byte of magnitude, added or subtracted as the sign bit says), "same as
    previous" (no byte, accumulator unchanged) or a full delta (a signed
    16-bit big-endian value).  The result is the next byte offset and the
    accumulator, a 16-bit signed value with wrap-around. *)
Definition axisDelta (short positive same : Z) (d : list byte)
    (offset acc f : Z) : option (Z * Z) :=
  if has f short then
    b ← index d offset;
    Some (offset + 1,
          if has f positive then wrap 16 (acc + byte_val b)
          else wrap 16 (acc - byte_val b))
  else if has f same then Some (offset, acc)
  else
    b0 ← index d offset; b1 ← index d (offset + 1);
    Some (offset + 2, wrap 16 (acc + wrap 16 (256 * byte_val b0 + byte_val b1))).

(** The absolute coordinates of one axis for the points whose flags are
    [flags], and the offset after the stream. *)
Fixpoint decodeAxis (short positive same : Z) (d : list byte)
    (offset acc : Z) (flags : list Z) : option (list Z * Z) :=
  match flags with
  | [] => Some ([], offset)
  | f :: flags' =>
      r ← axisDelta short positive same d offset acc f;
      rest ← decodeAxis short positive same d r.1 r.2 flags';
      Some (r.2 :: rest.1, rest.2)
  end.

Definition decodeXs := decodeAxis flagXShortVector flagPositiveXShortVector flagThisXIsSame.
Definition decodeYs := decodeAxis flagYShortVector flagPositiveYShortVector flagThisYIsSame.

(** The points [np0 ..] of [l] with the coordinates [xs] and [ys]. *)
Definition withCoords (np0 : Z) (xs ys : list Z) (l : list Point) : list Point :=
  take (Z.to_nat np0) l ++
  zip_with with_Y ys (zip_with with_X xs (drop (Z.to_nat np0) l)).


(** ** The scaling policies

    The point that the scaling step of [load] makes of the raw point [p]:
    unrounded, each coordinate is [f.scale(scale * (raw + offset))];
    grid-rounded, the offset is first scaled and rounded to a multiple of
    64, then added to the scaled raw coordinate. *)
Definition roundedOffset (f : Font) (scale offset : Z) : Z :=
  int32 (Z.land (int32 (Font_scale f (int32 (scale * offset)) + 32)) (Z.lnot 63)).

Definition scaledPoint (f : Font) (scale dx dy : Z) (roundDxDy : bool)
    (p : Point) : Point :=
  if roundDxDy then
    mkPoint (int32 (roundedOffset f scale dx + Font_scale f (int32 (scale * X p))))
            (int32 (roundedOffset f scale dy + Font_scale f (int32 (scale * Y p))))
            (Flags p)
  else
    mkPoint (Font_scale f (int32 (scale * int32 (X p + dx))))
            (Font_scale f (int32 (scale * int32 (Y p + dy))))
            (Flags p).

(** ** Compound glyphs *)

(** A component record at [offset]: its flags, the glyph index of the
    component, the accumulated translation, and the offset of the next
    record. *)
Definition readComponent (glyf : list byte) (offset dx dy : Z)
    : option (Z * Z * Z * Z * Z) :=
  flags ← u16 glyf offset;
  component ← u16 glyf (offset + 2);
  if has flags flagArg1And2AreWords then
    a1 ← u16 glyf (offset + 4); a2 ← u16 glyf (offset + 6);
    Some (flags, component, int32 (dx + int32 (int16 a1)),
          int32 (dy + int32 (int16 a2)), offset + 8)
  else
    a1 ← index glyf (offset + 4); a2 ← index glyf (offset + 5);
    Some (flags, component, int32 (dx + int32 (int16 (int8 (byte_val a1)))),
          int32 (dy + int32 (int16 (int8 (byte_val a2)))), offset + 6).

(** The scale and transform bits that [loadCompound] refuses. *)
Definition transformBits : Z :=
  Z.lor (Z.lor flagWeHaveAScale flagWeHaveAnXAndYScale) flagWeHaveATwoByTwo.

(** [w] with the bounds [b]. *)
Definition setB {H} (b : Bounds) (w : World H) : World H :=
  mkWorld (set_B b (buf w)) (hstate w).

(** A call whose error result is replaced by nil. *)
Definition drop_err {H} (m : M H (option error)) : M H (option error) :=
  fun w => match m w with
           | Ret _ w' => Ret None w'
           | Panic => Panic
           | Timeout => Timeout
           end.

Definition drop_errs {H} (ld : loader H) : loader H :=
  fun f scale i h dx dy roundDxDy recursion =>
    drop_err (ld f scale i h dx dy roundDxDy recursion).

(** ** The glyph header and [Load] *)

(** The first ten bytes of a glyph: the contour count and the bounds. *)
Definition readHeader (glyf : list byte) : option (Z * Bounds) :=
  ne ← u16 glyf 0;
  x0 ← u16 glyf 2; y0 ← u16 glyf 4; x1 ← u16 glyf 6; y1 ← u16 glyf 8;
  Some (int16 ne, mkBounds (int32 (int16 x0)) (int32 (int16 y0))
                           (int32 (int16 x1)) (int32 (int16 y1))).

(** The buffer as [Load] resets it. *)
Definition resetBuf (g : GlyphBuf) : GlyphBuf :=
  mkGlyphBuf zeroBounds (Slice [] (backing (Points g))) [] [] []
             (Slice [] (backing (End g))).

Definition resetWorld {H} (w : World H) : World H :=
  mkWorld (resetBuf (buf w)) (hstate w).

(** [h.init(g, f, scale)] when there is a hinter. *)
Definition initHinter {H} (h : option (Hinter H)) (f : Font) (scale : Z)
    : M H (option error) :=
  match h with
  | Some hh => h_init hh f scale
  | None => ret None
  end.

(** The bounds as [Load] scales them at its end. *)
Definition scaleBounds (f : Font) (scale : Z) (b : Bounds) : Bounds :=
  mkBounds (Font_scale f (mul32 scale (XMin b))) (Font_scale f (mul32 scale (YMin b)))
           (Font_scale f (mul32 scale (XMax b))) (Font_scale f (mul32 scale (YMax b))).

(** The hinter never exhausts the fuel of the model (it has none). *)
Definition hinter_total {H} (h : option (Hinter H)) : Prop :=
  forall hh, h = Some hh ->
    (forall f scale w, h_init hh f scale w <> Timeout) /\
    (forall program w, h_run hh program w <> Timeout).

Definition total {H A} (m : M H A) : Prop := forall w, m w <> Timeout.

(** ** Contours *)

(** [increasing prev l]: [l] is strictly increasing and above [prev]. *)
Fixpoint increasing (prev : Z) (l : list Z) : Prop :=
  match l with
  | [] => True
  | x :: l' => prev < x /\ increasing x l'
  end.

Definition strictly_increasing (l : list Z) : Prop :=
  match l with
  | [] => True
  | x :: l' => increasing x l'
  end.

(** The contour slices [Point[End[i-1]:End[i]]], [End[-1]] being [prev]. *)
Fixpoint contours (prev : Z) (ends : list Z) (l : list Point) : list (list Point) :=
  match ends with
  | [] => []
  | e :: ends' =>
      take (Z.to_nat (e - prev)) (drop (Z.to_nat prev) l) :: contours e ends' l
  end.

(** The contour ends of the buffer inside a world. *)
Definition ends {H} (w : World H) : list Z := elems (End (buf w)).
Definition set_ends {H} (l : list Z) (w : World H) : World H :=
  mkWorld (set_End (set_elems l (End (buf w))) (buf w)) (hstate w).

(** [n] consecutive 16-bit values from [offset]. *)
Fixpoint readU16s (glyf : list byte) (offset : Z) (n : nat) : option (list Z) :=
  match n with
  | O => Some []
  | S n' =>
      v ← u16 glyf offset; vs ← readU16s glyf (offset + 2) n';
      Some (v :: vs)
  end.

(** The bytes of glyph [i], when it is not of zero length. *)
Definition glyphData (f : Font) (i : Z) : option (slice byte) :=
  r ← glyphRange f i;
  if r.1 =? r.2 then None else subslice (glyf f) r.1 r.2.

(** The contour end indices that a simple glyph lists after its header. *)
Definition contourEnds (glyf : list byte) : option (list Z) :=
  ne ← u16 glyf 0;
  if 0 <=? int16 ne then readU16s glyf 10 (Z.to_nat (int16 ne)) else None.

(** Every simple glyph of the font lists strictly increasing end indices. *)
Definition ends_increasing (f : Font) : Prop :=
  forall i gl vs,
    glyphData f i = Some gl -> contourEnds (elems gl) = Some vs ->
    strictly_increasing vs.

(** Glyph [i] is a simple glyph. *)
Definition isSimple (f : Font) (i : Z) : Prop :=
  exists gl vs, glyphData f i = Some gl /\ contourEnds (elems gl) = Some vs.

(** A call that leaves [End] and the number of points as they are. *)
Definition keeps {H A} (m : M H A) : Prop :=
  forall w a w', m w = Ret a w' -> End (buf w') = End (buf w) /\ plen w' = plen w.

(** The hinter leaves [End] and the number of points as they are. *)
Definition hinter_keeps {H} (h : option (Hinter H)) : Prop :=
  forall hh, h = Some hh ->
    (forall f scale, keeps (h_init hh f scale)) /\
    (forall program, keeps (h_run hh program)).

(** What the buffer's contours must satisfy. *)
Definition contours_ok {H} (w : World H) : Prop :=
  increasing 0 (ends w) /\ default 0 (last (ends w)) = plen w.

(** [End] as [load] resizes it to [ne] entries: re-sliced within its
    capacity, or else a fresh array that is not filled from the old one. *)
Definition resizeEnd (e : slice Z) (ne : Z) : slice Z :=
  if ne <=? cap e
  then Slice (take (Z.to_nat ne) (backing e)) (drop (Z.to_nat ne) (backing e))
  else make 0 ne (ne * 2).

(** * Concrete fonts and buffers *)

Definition byte_of (z : Z) : byte := default x00 (Byte.of_N (Z.to_N z)).
Definition bytes (l : list Z) : list byte := byte_of <$> l.

(** A scale function: design units are output units. *)
Definition unitScale (x : Z) : Z := x.

Definition noHinter : option (Hinter unit) := None.

(** The buffer of [NewGlyphBuf], and the zero value [GlyphBuf{}]. *)
Definition fresh : World unit := mkWorld NewGlyphBuf tt.
Definition zeroValue : World unit :=
  mkWorld (mkGlyphBuf zeroBounds (Slice [] []) [] [] [] (Slice [] [])) tt.

(** The world a call returns, for closed statements about it. *)
Definition world_of {A} (r : Res unit A) : World unit :=
  match r with
  | Ret _ w => w
  | _ => zeroValue
  end.

(** A compound glyph with one component [c], translated by (1, 1). *)
Definition compoundGlyph (c : Z) : list Z :=
  [255; 255; 0; 1; 0; 2; 0; 3; 0; 4; 0; 2; 0; c; 1; 1].

(** A simple glyph: one contour of one on-curve point at the origin. *)
Definition dotGlyph : list Z :=
  [0; 1; 0; 1; 0; 2; 0; 3; 0; 4; 0; 0; 0; 0; 49; 0].

(** Glyphs 0 to 3 are compound, each made of the next glyph; glyph 4 is
    the dot. *)
Definition chainFont : Font :=
  mkFont (bytes [0; 0; 0; 8; 0; 16; 0; 24; 0; 32; 0; 40])
         (Slice (bytes (compoundGlyph 1 ++ compoundGlyph 2 ++ compoundGlyph 3 ++
                        compoundGlyph 4 ++ dotGlyph)) [])
         locaOffsetFormatShort unitScale.

(** Glyph 0 is made of itself. *)
Definition selfFont : Font :=
  mkFont (bytes [0; 0; 0; 8]) (Slice (bytes (compoundGlyph 0)) [])
         locaOffsetFormatShort unitScale.

(** Glyph 0 lists the contour ends 5 and 3. *)
Definition badEndsFont : Font :=
  mkFont (bytes [0; 0; 0; 9])
         (Slice (bytes [0; 2; 0; 1; 0; 2; 0; 3; 0; 4; 0; 5; 0; 3; 0; 0; 57; 3]) [])
         locaOffsetFormatShort unitScale.

(** Glyph 0 has one contour of three points. *)
Definition triangleFont : Font :=
  mkFont (bytes [0; 0; 0; 0; 0; 0; 0; 24])
         (Slice (bytes [0; 1; 0; 1; 0; 2; 0; 3; 0; 4; 0; 2; 0; 0;
                        55; 1; 35; 10; 255; 255; 1; 0; 7; 3]) [])
         locaOffsetFormatLong unitScale.

(** Glyph 0 has zero length. *)
Definition emptyFont : Font :=
  mkFont (bytes [0; 0; 0; 0]) (Slice [] []) locaOffsetFormatShort unitScale.

(** Glyph 0 is made of glyph 1 and then of the dot (glyph 2); glyph 1 is a
    compound glyph whose component record is not an XY translation. *)
Definition nestedFont : Font :=
  mkFont (bytes [0; 0; 0; 11; 0; 19; 0; 27])
         (Slice (bytes ([255; 255; 0; 1; 0; 2; 0; 3; 0; 4;
                         0; 34; 0; 1; 1; 1; 0; 2; 0; 2; 1; 1] ++
                        [255; 255; 0; 1; 0; 2; 0; 3; 0; 4; 0; 0; 0; 2; 1; 1] ++
                        dotGlyph)) [])
         locaOffsetFormatShort unitScale.

(** Glyph 0 is made of glyph 1 and then of the dot (glyph 2); glyph 1 has
    the contour count -2. *)
Definition negativeFont : Font :=
  mkFont (bytes [0; 0; 0; 11; 0; 16; 0; 24])
         (Slice (bytes ([255; 255; 0; 1; 0; 2; 0; 3; 0; 4;
                         0; 34; 0; 1; 1; 1; 0; 2; 0; 2; 1; 1] ++
                        [255; 254; 0; 1; 0; 2; 0; 3; 0; 4] ++
                        dotGlyph)) [])
         locaOffsetFormatShort unitScale.

(** A hinter whose program always fails. *)
Definition failingHinter : Hinter unit :=
  mkHinter (fun _ _ => ret None) (fun _ => ret (Some (FormatError "hint"))).

(** Two points, and a flag stream whose repeat count asks for six. *)
Definition twoPoints : World unit :=
  mkWorld (mkGlyphBuf zeroBounds (Slice [zeroPoint; zeroPoint] [zeroPoint; zeroPoint])
             [] [] [] (Slice [] [])) tt.
Definition overrunFlags : list byte := bytes [9; 5].

(** Glyph 0 is made of glyph 1 (two contours) and glyph 2 (three
    contours). *)
Definition fiveContoursFont : Font :=
  mkFont (bytes [0; 0; 0; 11; 0; 20; 0; 30])
         (Slice (bytes ([255; 255; 0; 1; 0; 2; 0; 3; 0; 4;
                         0; 34; 0; 1; 0; 0; 0; 2; 0; 2; 0; 0] ++
                        [0; 2; 0; 1; 0; 2; 0; 3; 0; 4; 0; 0; 0; 1; 0; 0; 57; 1] ++
                        [0; 3; 0; 1; 0; 2; 0; 3; 0; 4; 0; 0; 0; 1; 0; 2; 0; 0; 57; 2])) [])
         locaOffsetFormatShort unitScale.


(** Three points with their flags decoded, stale coordinates, and the
    coordinate streams of the triangle. *)
Definition threeFlagged : World unit :=
  mkWorld (mkGlyphBuf zeroBounds
             (Slice [mkPoint 5 5 55; mkPoint 5 5 1; mkPoint 5 5 35] [])
             [] [] [] (Slice [] [])) tt.
Definition triangleStream : list byte := bytes [10; 255; 255; 1; 0; 7; 3].

(** One point that says "same as previous" on both axes, after a point
    that an earlier component left. *)
Definition afterEarlier : World unit :=
  mkWorld (mkGlyphBuf zeroBounds
             (Slice [mkPoint 100 200 1; mkPoint 7 7 49] [])
             [] [] [] (Slice [] [])) tt.

(** * Further vocabulary *)

(** ** The flag stream, in the words of the format

    The flags of [n] points from [offset]: a flag byte is the flag of one
    point; when its repeat bit is set, the next byte counts the points
    after it that have the same flag.  A run that asks for more points than
    are left has no meaning.  [fuel] bounds the runs; [n] is enough. *)
Fixpoint expandFlags (fuel : nat) (d : list byte) (offset : Z) (n : nat)
    : option (list Z * Z) :=
  match n, fuel with
  | O, _ => Some ([], offset)
  | S _, O => None
  | S _, S fuel' =>
      b ← index d offset;
      let c := byte_val b in
      if has c flagRepeat then
        k ← index d (offset + 1);
        let run := S (Z.to_nat (byte_val k)) in
        if decide (run <= n)%nat then
          rest ← expandFlags fuel' d (offset + 2) (n - run);
          Some (replicate run c ++ rest.1, rest.2)
        else None
      else
        rest ← expandFlags fuel' d (offset + 1) (n - 1);
        Some (c :: rest.1, rest.2)
  end.

Definition flagStream (d : list byte) (offset : Z) (n : nat) : option (list Z * Z) :=
  expandFlags n d offset n.

(** The points [np0 ..] of [l] with the flags [fl]. *)
Definition withFlags (np0 : Z) (fl : list Z) (l : list Point) : list Point :=
  take (Z.to_nat np0) l ++ zip_with with_Flags fl (drop (Z.to_nat np0) l).

(** The bytes that the coordinate of a point with flag [f] takes. *)
Definition axisBytes (short same f : Z) : Z :=
  if has f short then 1 else if has f same then 0 else 2.

Definition coordBytes (f : Z) : Z :=
  axisBytes flagXShortVector flagThisXIsSame f +
  axisBytes flagYShortVector flagThisYIsSame f.

Definition sumZ (l : list Z) : Z := foldr Z.add 0 l.

(** ** A simple glyph, in the words of the format *)

(** The point with coordinates [xy] and flag [c]. *)
Definition rawPoints (xs ys fl : list Z) : list Point :=
  zip_with (fun xy c => mkPoint xy.1 xy.2 c) (zip xs ys) fl.

(** What the bytes of a simple glyph with [ne] contours hold: the contour
    end indices, the hinting program, and the points in font units.  The
    points are one more than the last end index; a glyph without contours
    has none. *)
Definition decodeSimple (gl : slice byte) (ne : Z)
    : option (list Z * slice byte * list Point) :=
  vs ← readU16s (elems gl) 10 (Z.to_nat ne);
  let offset := 10 + 2 * ne in
  instrLen ← u16 (elems gl) offset;
  let offset := offset + 2 in
  program ← subslice gl offset (offset + instrLen);
  let offset := offset + instrLen in
  let n := match last vs with Some e => Z.to_nat (1 + e) | None => 0%nat end in
  r ← flagStream (elems gl) offset n;
  rx ← decodeXs (elems gl) r.2 0 r.1;
  ry ← decodeYs (elems gl) rx.2 0 r.1;
  Some (vs, program, rawPoints rx.1 ry.1 r.1).

(** [Point] as [load] resizes it to [np] points: re-sliced within its
    capacity, or else a fresh array that the old points are copied to. *)
Definition resizePoints (p : slice Point) (np : Z) : slice Point :=
  if np <=? cap p
  then Slice (take (Z.to_nat np) (backing p)) (drop (Z.to_nat np) (backing p))
  else Slice (copy (replicate (Z.to_nat np) zeroPoint) (elems p))
             (replicate (Z.to_nat (np * 2 - np)) zeroPoint).

(** The last contour end is the number of points, and there is no point
    when there is no contour. *)
Definition ends_cover {H} (w : World H) : Prop :=
  default 0 (last (ends w)) = plen w.

(** A point in font units, moved by the component's offset. *)
Definition shiftPoint (dx dy : Z) (p : Point) : Point :=
  mkPoint (add32 (X p) dx) (add32 (Y p) dy) (Flags p).

(** [points] returns the points of a zone: the twilight zone is zone 0. *)
Definition points (g : GlyphBuf) (zonePointer : Z) : list Point :=
  if zonePointer =? 0 then Twilight g else elems (Points g).

(** The world that the load of a simple glyph leaves before the hinting
    program runs: the contour ends [vs] moved by [1 + np0] after the
    entries [End] kept, the points [raw] scaled after the points that were
    there; with a hinter, the points in font units, moved by the
    component's offset, and the scaled points, are appended to
    [InFontUnits] and [Unhinted]. *)
Definition afterSimple {H} (f : Font) (scale dx dy : Z) (roundDxDy hinted : bool)
    (vs : list Z) (raw : list Point) (w : World H) : World H :=
  let g := buf w in
  let e1 := resizeEnd (End g) (Z.of_nat (length vs) + len (End g)) in
  let en := take (length (ends w)) (elems e1) ++
            ((fun v => 1 + plen w + v) <$> vs) in
  let p1 := resizePoints (Points g) (default 0 (last en)) in
  let scaled := scaledPoint f scale dx dy roundDxDy <$> raw in
  mkWorld
    (mkGlyphBuf (B g)
       (Slice (pts w ++ scaled) (spare p1))
       (if hinted then Unhinted g ++ scaled else Unhinted g)
       (if hinted then InFontUnits g ++ (shiftPoint dx dy <$> raw)
        else InFontUnits g)
       (Twilight g)
       (Slice en (spare e1)))
    (hstate w).

(** ** A compound glyph, in the words of the format *)

(** A component record of a compound glyph: its flags, the index of the
    component glyph, and the offset the component is loaded with. *)
Record Component := mkComponent {
  c_flags : Z;
  c_glyph : Z;
  c_dx : Z;
  c_dy : Z
}.

(** The component records from [offset], up to and including the first
    one without the more-components bit; none when a record cannot be read
    or is one that [loadCompound] refuses.  [n] bounds the number of
    records. *)
Fixpoint componentRecords (n : nat) (glyf : list byte) (offset dx dy : Z)
    : option (list Component) :=
  match n with
  | O => None
  | S n' =>
      r ← readComponent glyf offset dx dy;
      let '(flags, component, dx1, dy1, offset') := r in
      if negb (has flags flagArgsAreXYValues) || has flags transformBits then None
      else
        let c := mkComponent flags component dx1 dy1 in
        if has flags flagMoreComponents then
          rest ← componentRecords n' glyf offset' dx dy; Some (c :: rest)
        else Some [c]
  end.

(** The component records of a compound glyph, which start after its
    header. *)
Definition components (glyf : list byte) : option (list Component) :=
  componentRecords (S (length glyf)) glyf 10 0 0.

(** Glyph [i] as a simple glyph with at least one contour: its header
    bounds, its contour ends and its points in font units. *)
Definition simpleGlyph (f : Font) (i : Z) : option (Bounds * list Z * list Point) :=
  gl ← glyphData f i;
  hd ← readHeader (elems gl);
  if 0 <? hd.1 then r ← decodeSimple gl hd.1; Some (hd.2, r.1.1, r.2)
  else None.

(** The points of a component: those of its glyph, scaled with the
    record's offset and its rounding bit. *)
Definition componentPoints (f : Font) (scale : Z) (c : Component)
    (part : Bounds * list Z * list Point) : list Point :=
  scaledPoint f scale (c_dx c) (c_dy c) (has (c_flags c) flagRoundXYToGrid) <$> part.2.

(** The bounds after a component: its own when the record says "use my
    metrics", else those from before. *)
Definition componentBounds (b0 : Bounds) (c : Component)
    (part : Bounds * list Z * list Point) : Bounds :=
  if has (c_flags c) flagUseMyMetrics then part.1.1 else b0.

Fixpoint compoundBounds (b : Bounds) (cs : list Component)
    (parts : list (Bounds * list Z * list Point)) : Bounds :=
  match cs, parts with
  | c :: cs', part :: parts' => compoundBounds (componentBounds b c part) cs' parts'
  | _, _ => b
  end.

(** The contour ends of the components, one component after the other:
    each end index is moved by one plus the number of points before its
    component; [np] is the number of points before the first. *)
Fixpoint compoundEnds (np : Z) (parts : list (Bounds * list Z * list Point))
    : list Z :=
  match parts with
  | [] => []
  | part :: rest =>
      ((fun v => 1 + np + v) <$> part.1.2) ++
      compoundEnds (np + Z.of_nat (length part.2)) rest
  end.

(** ** The hinter's zones *)

(** [InFontUnits] and [Unhinted] have a point for every point of
    [Point]. *)
Definition zones_aligned {H} (w : World H) : Prop :=
  length (InFontUnits (buf w)) = length (pts w) /\
  length (Unhinted (buf w)) = length (pts w).

(** The hinter leaves the three of them aligned when they are. *)
Definition hinter_keeps_zones {H} (h : option (Hinter H)) : Prop :=
  forall hh, h = Some hh ->
    (forall f scale w r w',
       h_init hh f scale w = Ret r w' -> zones_aligned w -> zones_aligned w') /\
    (forall program w r w',
       h_run hh program w = Ret r w' -> zones_aligned w -> zones_aligned w').

(** ** More concrete fonts and buffers *)

(** The bytes of glyph 0 of [triangleFont]. *)
Definition triangleGlyph : slice byte :=
  Slice (bytes [0; 1; 0; 1; 0; 2; 0; 3; 0; 4; 0; 2; 0; 0;
                55; 1; 35; 10; 255; 255; 1; 0; 7; 3]) [].

(** The bytes of the dot, the last glyph of [chainFont]. *)
Definition dotBytes : slice byte := Slice (bytes dotGlyph) [].

(** Glyph 0 has a header that says zero contours, and no instructions. *)
Definition blankFont : Font :=
  mkFont (bytes [0; 0; 0; 6])
         (Slice (bytes [0; 0; 0; 1; 0; 2; 0; 3; 0; 4; 0; 0]) [])
         locaOffsetFormatShort unitScale.

(** A hinter that does nothing. *)
Definition idleHinter : Hinter unit :=
  mkHinter (fun _ _ => ret None) (fun _ => ret None).

(** One contour of one point, in a buffer whose [End] has no room left. *)
Definition oneContour : World unit :=
  mkWorld (mkGlyphBuf zeroBounds (Slice [mkPoint 100 200 1] []) [] [] []
             (Slice [1] [])) tt.

(** Glyph 0 is made of glyph 1 moved by (1, 1) and of glyph 2 moved by
    (2, 3), the second with "use my metrics"; glyphs 1 and 2 are dots,
    with the bounds 1, 2, 3, 4 and 5, 6, 7, 8. *)
Definition pairCompound : list Z :=
  [255; 255; 0; 9; 0; 9; 0; 9; 0; 9; 0; 34; 0; 1; 1; 1; 2; 2; 0; 2; 2; 3].
Definition boxedDot : list Z :=
  [0; 1; 0; 5; 0; 6; 0; 7; 0; 8; 0; 0; 0; 0; 49; 0].
Definition pairFont : Font :=
  mkFont (bytes [0; 0; 0; 11; 0; 19; 0; 27])
         (Slice (bytes (pairCompound ++ dotGlyph ++ boxedDot)) [])
         locaOffsetFormatShort unitScale.
Definition pairGlyph : slice byte :=
  Slice (bytes pairCompound) (bytes (dotGlyph ++ boxedDot)).
Definition pairParts : list (Bounds * list Z * list Point) :=
  [(mkBounds 1 2 3 4, [0], [mkPoint 0 0 49]);
   (mkBounds 5 6 7 8, [0], [mkPoint 0 0 49])].
(** * Properties *)

(** ** Arithmetic facts *)

Lemma byte_val_range (b : byte) : 0 <= byte_val b < 256.
Proof.
  unfold byte_val. pose proof (Byte.to_N_bounded b) as Hb.
  split; [apply N2Z.is_nonneg | lia].
Qed.

Lemma uint32_byte (b : byte) : uint32 (byte_val b) = byte_val b.
Proof.
  unfold uint32. apply Z.mod_small.
  pose proof (byte_val_range b). change (2 ^ 32) with 4294967296. lia.
Qed.

Lemma wrap_range (bits z : Z) :
  0 < bits -> - 2 ^ (bits - 1) <= wrap bits z < 2 ^ (bits - 1).
Proof.
  intros Hb. unfold wrap.
  assert (Hp : 2 ^ bits = 2 * 2 ^ (bits - 1)).
  { replace bits with (Z.succ (bits - 1)) at 1 by lia.
    rewrite Z.pow_succ_r by lia. reflexivity. }
  assert (0 < 2 ^ (bits - 1)) by (apply Z.pow_pos_nonneg; lia).
  pose proof (Z.mod_pos_bound (z + 2 ^ (bits - 1)) (2 ^ bits)) as Hm.
  lia.
Qed.

Lemma wrap_small (bits z : Z) :
  0 < bits -> - 2 ^ (bits - 1) <= z < 2 ^ (bits - 1) -> wrap bits z = z.
Proof.
  intros Hb Hz. unfold wrap.
  assert (Hp : 2 ^ bits = 2 * 2 ^ (bits - 1)).
  { replace bits with (Z.succ (bits - 1)) at 1 by lia.
    rewrite Z.pow_succ_r by lia. reflexivity. }
  rewrite Z.mod_small by lia. lia.
Qed.

Lemma int16_range (z : Z) : -32768 <= int16 z < 32768.
Proof. apply (wrap_range 16 z). lia. Qed.

Lemma int32_int16 (z : Z) : int32 (int16 z) = int16 z.
Proof.
  unfold int32. apply wrap_small; [lia|].
  pose proof (int16_range z). change (2 ^ (32 - 1)) with 2147483648. lia.
Qed.

(** ** Lists as arrays *)

Lemma index_Some {A} (l : list A) (i : Z) (a : A) :
  index l i = Some a <-> 0 <= i /\ l !! Z.to_nat i = Some a.
Proof.
  unfold index. destruct (Z.leb_spec 0 i) as [Hle|Hlt].
  - split; [intros Hl; split; [lia|exact Hl] | intros [_ Hl]; exact Hl].
  - split; [discriminate | intros [Hle _]; lia].
Qed.

Lemma index_lt {A} (l : list A) (i : Z) (a : A) :
  index l i = Some a -> 0 <= i < Z.of_nat (length l).
Proof.
  intros Hi. apply index_Some in Hi as [H0 Hl].
  apply lookup_lt_Some in Hl. lia.
Qed.

Lemma index_None {A} (l : list A) (i : Z) :
  index l i = None <-> i < 0 \/ Z.of_nat (length l) <= i.
Proof.
  unfold index. destruct (Z.leb_spec 0 i).
  - rewrite lookup_ge_None. lia.
  - split; auto.
Qed.

Lemma index_is_Some {A} (l : list A) (i : Z) :
  0 <= i < Z.of_nat (length l) -> exists a, index l i = Some a.
Proof.
  intros Hi. destruct (index l i) eqn:E; [eauto|].
  apply index_None in E. lia.
Qed.

Lemma store_Some {A} (l : list A) (i : Z) (v : A) :
  0 <= i < Z.of_nat (length l) -> store l i v = Some (<[Z.to_nat i := v]> l).
Proof.
  intros Hi. unfold store.
  destruct (Z.leb_spec 0 i); [|lia].
  destruct (Z.ltb_spec i (Z.of_nat (length l))); [|lia]. reflexivity.
Qed.

Lemma store_None {A} (l : list A) (i : Z) (v : A) :
  ~ (0 <= i < Z.of_nat (length l)) -> store l i v = None.
Proof.
  intros Hi. unfold store.
  destruct (Z.leb_spec 0 i); [|reflexivity].
  destruct (Z.ltb_spec i (Z.of_nat (length l))); [lia|reflexivity].
Qed.

Lemma mapRange_length {A} (f : A -> A) lo hi (l : list A) :
  length (mapRange f lo hi l) = length l.
Proof. unfold mapRange. apply length_imap. Qed.

Lemma mapRange_lookup {A} (f : A -> A) lo hi (l : list A) (j : nat) :
  mapRange f lo hi l !! j =
  (fun a => if (lo <=? Z.of_nat j) && (Z.of_nat j <? hi) then f a else a) <$> l !! j.
Proof. unfold mapRange. apply list_lookup_imap. Qed.

Lemma mapRange_empty {A} (f : A -> A) lo hi (l : list A) :
  hi <= lo -> mapRange f lo hi l = l.
Proof.
  intros Hle. apply list_eq. intros j. rewrite mapRange_lookup.
  destruct (l !! j); [simpl|reflexivity].
  destruct (Z.leb_spec lo (Z.of_nat j)), (Z.ltb_spec (Z.of_nat j) hi);
    simpl; try reflexivity; lia.
Qed.

Lemma mapRange_snoc {A} (f : A -> A) lo i (l : list A) (a : A) :
  lo <= i -> index l i = Some a ->
  <[Z.to_nat i := f a]> (mapRange f lo i l) = mapRange f lo (i + 1) l.
Proof.
  intros Hlo Hi. apply index_Some in Hi as [H0 Hl].
  apply list_eq. intros j.
  destruct (decide (j = Z.to_nat i)) as [->|Hne].
  - rewrite list_lookup_insert_eq
      by (rewrite mapRange_length; eapply lookup_lt_Some; eauto).
    rewrite mapRange_lookup, Hl. simpl.
    destruct (Z.leb_spec lo (Z.of_nat (Z.to_nat i))); [|lia].
    destruct (Z.ltb_spec (Z.of_nat (Z.to_nat i)) (i + 1)); [|lia]. reflexivity.
  - rewrite list_lookup_insert_ne by congruence.
    rewrite !mapRange_lookup. destruct (l !! j); [simpl|reflexivity].
    destruct (Z.leb_spec lo (Z.of_nat j)); simpl; [|reflexivity].
    destruct (Z.ltb_spec (Z.of_nat j) i), (Z.ltb_spec (Z.of_nat j) (i + 1));
      try reflexivity; lia.
Qed.

Lemma mapRange_lookup_in {A} (f : A -> A) lo hi (l : list A) (j : Z) (a : A) :
  lo <= j < hi -> index l j = Some a ->
  index (mapRange f lo hi l) j = Some (f a).
Proof.
  intros Hj Hi. apply index_Some in Hi as [H0 Hl]. apply index_Some.
  split; [lia|]. rewrite mapRange_lookup, Hl. simpl.
  destruct (Z.leb_spec lo (Z.of_nat (Z.to_nat j))); [|lia].
  destruct (Z.ltb_spec (Z.of_nat (Z.to_nat j)) hi); [|lia]. reflexivity.
Qed.

Lemma mapRange_lookup_out {A} (f : A -> A) lo hi (l : list A) (j : Z) :
  ~ (lo <= j < hi) -> index (mapRange f lo hi l) j = index l j.
Proof.
  intros Hj. unfold index. destruct (Z.leb_spec 0 j); [|reflexivity].
  rewrite mapRange_lookup. destruct (l !! Z.to_nat j); [simpl|reflexivity].
  destruct (Z.leb_spec lo (Z.of_nat (Z.to_nat j))); simpl; [|reflexivity].
  destruct (Z.ltb_spec (Z.of_nat (Z.to_nat j)) hi); [lia|reflexivity].
Qed.

Lemma mapRange_compose {A} (f : A -> A) lo mid hi (l : list A) :
  lo <= mid <= hi ->
  mapRange f mid hi (mapRange f lo mid l) = mapRange f lo hi l.
Proof.
  intros Hm. apply list_eq. intros j. rewrite !mapRange_lookup.
  destruct (l !! j); [simpl|reflexivity]. f_equal.
  destruct (Z.leb_spec lo (Z.of_nat j)), (Z.ltb_spec (Z.of_nat j) mid),
    (Z.leb_spec mid (Z.of_nat j)), (Z.ltb_spec (Z.of_nat j) hi);
    simpl; try reflexivity; lia.
Qed.

(** ** The buffer's points inside a world *)

Section Worlds.
Context {H : Type}.
Implicit Types (w : World H) (l : list Point).

Lemma set_pts_id w : set_pts (pts w) w = w.
Proof. destruct w as [[b [e s] u f t en] h]. reflexivity. Qed.

Lemma pts_set_pts l w : pts (set_pts l w) = l.
Proof. reflexivity. Qed.

Lemma set_pts_twice l l' w : set_pts l (set_pts l' w) = set_pts l w.
Proof. reflexivity. Qed.

Lemma plen_set_pts l w : plen (set_pts l w) = Z.of_nat (length l).
Proof. reflexivity. Qed.

Lemma plen_pts w : plen w = Z.of_nat (length (pts w)).
Proof. reflexivity. Qed.

Lemma lenPoint_eq w : lenPoint w = Ret (plen w) w.
Proof. reflexivity. Qed.

Lemma getPoint_eq i w :
  getPoint i w = match index (pts w) i with Some p => Ret p w | None => Panic end.
Proof.
  unfold getPoint, bind, get, check, pts. 
  destruct (index (elems (Points (buf w))) i); reflexivity.
Qed.

Lemma updPoint_eq i upd w :
  updPoint i upd w =
  match index (pts w) i with
  | Some p => Ret tt (set_pts (<[Z.to_nat i := upd p]> (pts w)) w)
  | None => Panic
  end.
Proof.
  unfold updPoint, bind, get, check, pts.
  destruct (index (elems (Points (buf w))) i) as [p|] eqn:E; [|reflexivity].
  unfold ret. rewrite store_Some by (eapply index_lt; eauto). reflexivity.
Qed.

End Worlds.

(** ** decodeFlags *)

Section DecodeFlags.
Context {H : Type}.
Implicit Types (w : World H) (l : list Point).

Lemma mapRange_cons {A} (f : A -> A) i hi (l : list A) (a : A) :
  index l i = Some a ->
  mapRange f (i + 1) hi (<[Z.to_nat i := f a]> l) = mapRange f i (Z.max hi (i + 1)) l.
Proof.
  intros Hi. apply index_Some in Hi as [H0 Hl].
  apply list_eq. intros j. rewrite !mapRange_lookup.
  destruct (decide (j = Z.to_nat i)) as [->|Hne].
  - rewrite list_lookup_insert_eq by (eapply lookup_lt_Some; eauto).
    rewrite Hl. simpl. f_equal.
    destruct (Z.leb_spec (i + 1) (Z.of_nat (Z.to_nat i))); [lia|]. simpl.
    destruct (Z.leb_spec i (Z.of_nat (Z.to_nat i))); [|lia].
    destruct (Z.ltb_spec (Z.of_nat (Z.to_nat i)) (Z.max hi (i + 1))); [|lia].
    reflexivity.
  - rewrite list_lookup_insert_ne by congruence.
    destruct (l !! j); [simpl|reflexivity]. f_equal.
    assert (Z.of_nat j <> i) by lia.
    destruct (Z.leb_spec (i + 1) (Z.of_nat j)), (Z.leb_spec i (Z.of_nat j)),
      (Z.ltb_spec (Z.of_nat j) hi), (Z.ltb_spec (Z.of_nat j) (Z.max hi (i + 1)));
      simpl; try reflexivity; lia.
Qed.

(** The inner loop writes [c] to the [count] points from [i] on, or panics
    when they are not all there. *)
Lemma decodeFlags_repeat_eq (count : nat) (c i : Z) w :
  decodeFlags_repeat count c i w =
  if decide (count = 0%nat) then Ret i w
  else if decide (0 <= i /\ i + Z.of_nat count <= plen w)
  then Ret (i + Z.of_nat count)
           (set_pts (mapRange (with_Flags c) i (i + Z.of_nat count) (pts w)) w)
  else Panic.
Proof.
  revert i w. induction count as [|n IH]; intros i w.
  - reflexivity.
  - destruct (decide (S n = 0%nat)) as [|_]; [lia|].
    cbn [decodeFlags_repeat]. unfold bind at 1. rewrite updPoint_eq.
    destruct (index (pts w) i) as [p|] eqn:E.
    + pose proof (index_lt _ _ _ E) as Hi.
      rewrite IH. destruct (decide (n = 0%nat)) as [->|Hn].
      * rewrite decide_True by (rewrite plen_pts; lia).
        change (Z.of_nat 1) with 1.
        rewrite <- (mapRange_snoc (with_Flags c) i i (pts w) p) by (auto; lia).
        rewrite mapRange_empty by lia. reflexivity.
      * rewrite plen_set_pts, length_insert, pts_set_pts, set_pts_twice.
        rewrite <- plen_pts.
        destruct (decide (0 <= i + 1 /\ i + 1 + Z.of_nat n <= plen w)) as [Hr|Hr].
        -- rewrite decide_True by lia.
           rewrite mapRange_cons by exact E.
           replace (Z.max (i + 1 + Z.of_nat n) (i + 1)) with (i + Z.of_nat (S n)) by lia.
           replace (i + 1 + Z.of_nat n) with (i + Z.of_nat (S n)) by lia.
           reflexivity.
        -- rewrite decide_False by lia. reflexivity.
    + apply index_None in E. rewrite decide_False; [reflexivity|].
      rewrite plen_pts. lia.
Qed.

Lemma decodeFlags_loop_eq (fuel : nat) (d : list byte) (offset i : Z) w :
  decodeFlags_loop fuel d offset i w =
  if i <? plen w then
    match fuel with
    | O => Timeout
    | S fuel' =>
        match index d offset, index (pts w) i with
        | Some b, Some p =>
            let c := byte_val b in
            let w1 := set_pts (<[Z.to_nat i := with_Flags c p]> (pts w)) w in
            if has c flagRepeat then
              match index d (offset + 1) with
              | Some k =>
                  bind (decodeFlags_repeat (Z.to_nat (byte_val k)) c (i + 1))
                       (fun i' => decodeFlags_loop fuel' d (offset + 1 + 1) i') w1
              | None => Panic
              end
            else decodeFlags_loop fuel' d (offset + 1) (i + 1) w1
        | _, _ => Panic
        end
    end
  else Ret offset w.
Proof.
  destruct fuel as [|fuel']; cbn [decodeFlags_loop]; unfold bind at 1;
    rewrite lenPoint_eq; destruct (i <? plen w); try reflexivity.
  unfold bind at 1. destruct (index d offset) as [b|]; [|reflexivity].
  cbn [check ret]. rewrite uint32_byte. unfold bind at 1. rewrite updPoint_eq.
  destruct (index (pts w) i) as [p|]; [|reflexivity].
  cbv zeta. destruct (has (byte_val b) flagRepeat); [|reflexivity].
  unfold bind at 1. destruct (index d (offset + 1)); reflexivity.
Qed.

(** More fuel than there are points left changes nothing. *)
Lemma decodeFlags_loop_fuel (f1 f2 : nat) d offset i w :
  plen w - i <= Z.of_nat f1 -> plen w - i <= Z.of_nat f2 ->
  decodeFlags_loop f1 d offset i w = decodeFlags_loop f2 d offset i w.
Proof.
  revert f2 offset i w. induction f1 as [|f1 IH]; intros f2 offset i w H1 H2;
    rewrite (decodeFlags_loop_eq _ d offset i w);
    rewrite (decodeFlags_loop_eq f2 d offset i w);
    destruct (Z.ltb_spec i (plen w)) as [Hlt|Hge]; try reflexivity; [lia|].
  destruct f2 as [|f2]; [lia|].
  destruct (index d offset) as [b|]; [|reflexivity].
  destruct (index (pts w) i) as [p|] eqn:E; [|reflexivity].
  cbv zeta.
  assert (Hlen : plen (set_pts (<[Z.to_nat i := with_Flags (byte_val b) p]> (pts w)) w)
                 = plen w).
  { rewrite plen_set_pts, length_insert. reflexivity. }
  destruct (has (byte_val b) flagRepeat).
  - destruct (index d (offset + 1)) as [k|]; [|reflexivity].
    unfold bind. rewrite decodeFlags_repeat_eq.
    destruct (decide (Z.to_nat (byte_val k) = 0%nat)).
    + apply IH; rewrite Hlen; lia.
    + destruct (decide _) as [Hr|Hr]; [|reflexivity].
      apply IH; rewrite plen_set_pts, mapRange_length, <- plen_pts, Hlen; lia.
  - apply IH; rewrite Hlen; lia.
Qed.

Lemma decodeFlags_eq d offset np0 w (fuel : nat) :
  plen w - np0 <= Z.of_nat fuel ->
  decodeFlags d offset np0 w = decodeFlags_loop fuel d offset np0 w.
Proof.
  intros Hf. unfold decodeFlags, bind. rewrite lenPoint_eq.
  apply decodeFlags_loop_fuel; lia.
Qed.

End DecodeFlags.

Section DecodeFlagsRuns.
Context {H : Type}.
Implicit Types (w : World H) (l : list Point).

Lemma with_Flags_same p : with_Flags (Flags p) p = p.
Proof. destruct p; reflexivity. Qed.

Lemma flags_only_refl lo w : flags_only lo w w.
Proof.
  exists (pts w). split; [symmetry; apply set_pts_id|]. split; [reflexivity|].
  intros j p Hj. exists (Flags p). rewrite with_Flags_same. auto.
Qed.

Lemma flags_only_trans lo lo' w1 w2 w3 :
  lo <= lo' -> flags_only lo w1 w2 -> flags_only lo' w2 w3 -> flags_only lo w1 w3.
Proof.
  intros Hle (l2 & -> & Hlen2 & H2) (l3 & -> & Hlen3 & H3).
  rewrite pts_set_pts in *. exists l3. split; [reflexivity|].
  split; [congruence|]. intros j p Hj.
  destruct (H2 j p Hj) as (c2 & Hl2 & Hc2).
  destruct (H3 j _ Hl2) as (c3 & Hl3 & Hc3).
  exists c3. split; [exact Hl3|]. intros Hlt.
  rewrite Hc3 by lia. simpl. apply Hc2, Hlt.
Qed.

Lemma flags_only_mapRange c lo hi w :
  flags_only lo w (set_pts (mapRange (with_Flags c) lo hi (pts w)) w).
Proof.
  eexists. split; [reflexivity|]. split; [apply mapRange_length|].
  intros j p Hj. rewrite mapRange_lookup, Hj. simpl.
  destruct (Z.leb_spec lo (Z.of_nat j)); simpl.
  - destruct (Z.of_nat j <? hi).
    + exists c. split; [reflexivity|lia].
    + exists (Flags p). rewrite with_Flags_same. auto.
  - exists (Flags p). rewrite with_Flags_same. auto.
Qed.

Lemma flags_only_insert c i p w :
  index (pts w) i = Some p ->
  flags_only i w (set_pts (<[Z.to_nat i := with_Flags c p]> (pts w)) w).
Proof.
  intros Hi.
  rewrite <- (mapRange_empty (with_Flags c) i i (pts w)) at 1 by lia.
  rewrite mapRange_snoc by (auto; lia). apply flags_only_mapRange.
Qed.

Lemma decodeFlags_loop_frame (fuel : nat) d offset i w off w' :
  decodeFlags_loop fuel d offset i w = Ret off w' -> flags_only i w w'.
Proof.
  revert offset i w. induction fuel as [|fuel IH]; intros offset i w;
    rewrite decodeFlags_loop_eq; destruct (i <? plen w);
    try discriminate; try (intros [= <- <-]; apply flags_only_refl).
  destruct (index d offset) as [b|]; [|discriminate].
  destruct (index (pts w) i) as [p|] eqn:E; [|discriminate].
  cbv zeta. pose proof (flags_only_insert (byte_val b) i p w E) as H1.
  destruct (has (byte_val b) flagRepeat).
  - destruct (index d (offset + 1)) as [k|]; [|discriminate].
    unfold bind. rewrite decodeFlags_repeat_eq.
    destruct (decide (Z.to_nat (byte_val k) = 0%nat)).
    + intros Hr. apply IH in Hr.
      eapply flags_only_trans; [|exact H1|exact Hr]. lia.
    + destruct (decide _) as [Hr|Hr]; [|discriminate].
      intros Hl. apply IH in Hl.
      eapply flags_only_trans; [|exact H1|]. 2:{
        eapply flags_only_trans; [|apply flags_only_mapRange|exact Hl]. lia. }
      lia.
  - intros Hr. apply IH in Hr.
    eapply flags_only_trans; [|exact H1|exact Hr]. lia.
Qed.

Lemma decodeFlags_loop_no_timeout (fuel : nat) d offset i w :
  plen w - i <= Z.of_nat fuel -> decodeFlags_loop fuel d offset i w <> Timeout.
Proof.
  revert offset i w. induction fuel as [|fuel IH]; intros offset i w Hf;
    rewrite decodeFlags_loop_eq; destruct (Z.ltb_spec i (plen w));
    try discriminate; [lia|].
  destruct (index d offset) as [b|]; [|discriminate].
  destruct (index (pts w) i) as [p|] eqn:E; [|discriminate].
  cbv zeta.
  destruct (has (byte_val b) flagRepeat).
  - destruct (index d (offset + 1)) as [k|]; [|discriminate].
    unfold bind. rewrite decodeFlags_repeat_eq.
    destruct (decide (Z.to_nat (byte_val k) = 0%nat)).
    + apply IH. rewrite plen_set_pts, length_insert, <- plen_pts. lia.
    + destruct (decide _) as [Hr|Hr]; [|discriminate].
      apply IH.
      rewrite plen_set_pts, mapRange_length, pts_set_pts, length_insert, <- plen_pts.
      lia.
  - apply IH. rewrite plen_set_pts, length_insert, <- plen_pts. lia.
Qed.

(** Whether the call returns, and the offset it returns, depend on the
    number of points only, not on what the points hold. *)
Lemma decodeFlags_loop_blind (fuel : nat) d offset i w1 w2 :
  plen w1 = plen w2 ->
  outcome (decodeFlags_loop fuel d offset i w1) =
  outcome (decodeFlags_loop fuel d offset i w2).
Proof.
  revert offset i w1 w2. induction fuel as [|fuel IH]; intros offset i w1 w2 Hl;
    rewrite !decodeFlags_loop_eq; rewrite <- Hl; destruct (i <? plen w1);
    try reflexivity.
  destruct (index d offset) as [b|]; [|reflexivity].
  assert (Hsame : forall p1, index (pts w1) i = Some p1 ->
                  exists p2, index (pts w2) i = Some p2).
  { intros p1 Hp. apply index_lt in Hp. apply index_is_Some.
    rewrite <- plen_pts in *. lia. }
  destruct (index (pts w1) i) as [p1|] eqn:E1.
  - destruct (Hsame p1 eq_refl) as [p2 E2]. rewrite E2. cbv zeta.
    destruct (has (byte_val b) flagRepeat).
    + destruct (index d (offset + 1)) as [k|]; [|reflexivity].
      unfold bind. rewrite !decodeFlags_repeat_eq.
      rewrite !plen_set_pts, !length_insert, <- !plen_pts, <- Hl.
      destruct (decide (Z.to_nat (byte_val k) = 0%nat)).
      * apply IH. rewrite !plen_set_pts, !length_insert, <- !plen_pts. exact Hl.
      * destruct (decide _); [|reflexivity].
        apply IH. rewrite !plen_set_pts, !mapRange_length, !pts_set_pts,
                    !length_insert, <- !plen_pts. exact Hl.
    + apply IH. rewrite !plen_set_pts, !length_insert, <- !plen_pts. exact Hl.
  - destruct (index (pts w2) i) as [p2|] eqn:E2; [|reflexivity].
    apply index_lt in E2. apply index_None in E1.
    rewrite <- plen_pts in *. lia.
Qed.

(** A run whose repeat count reaches past the last point panics. *)
Lemma decodeFlags_overrun d offset np0 w (b k : byte) :
  index d offset = Some b -> has (byte_val b) flagRepeat = true ->
  index d (offset + 1) = Some k ->
  np0 < plen w -> plen w < np0 + 1 + byte_val k ->
  decodeFlags d offset np0 w = Panic.
Proof.
  intros Hb Hrep Hk Hlt Hover.
  rewrite (decodeFlags_eq d offset np0 w (S (Z.to_nat (plen w - np0)))) by lia.
  rewrite decodeFlags_loop_eq. destruct (Z.ltb_spec np0 (plen w)); [|lia].
  rewrite Hb. destruct (index (pts w) np0) as [p|] eqn:E; [|reflexivity].
  cbv zeta. rewrite Hrep, Hk. unfold bind. rewrite decodeFlags_repeat_eq.
  apply index_lt in E. rewrite <- plen_pts in E.
  pose proof (byte_val_range k).
  rewrite decide_False by lia.
  rewrite plen_set_pts, length_insert, <- plen_pts.
  rewrite decide_False by lia. reflexivity.
Qed.



End DecodeFlagsRuns.


(** ** decodeCoords *)

Lemma u16_big_endian (d : list byte) (i : Z) (b0 b1 : byte) :
  index d i = Some b0 -> index d (i + 1) = Some b1 ->
  u16 d i = Some (256 * byte_val b0 + byte_val b1).
Proof.
  intros H0 H1. unfold u16. rewrite H0, H1. simpl. f_equal.
  pose proof (byte_val_range b0). pose proof (byte_val_range b1).
  assert (Hl : Z.land (Z.shiftl (byte_val b0) 8) (byte_val b1) = 0).
  { apply Z.bits_inj'. intros n Hn. rewrite Z.land_spec, Z.bits_0.
    destruct (Z.ltb_spec n 8).
    - rewrite Z.shiftl_spec_low by lia. reflexivity.
    - rewrite (Z.bits_above_log2 (byte_val b1)); [apply andb_false_r|lia|].
      destruct (Z.eq_dec (byte_val b1) 0) as [->|]; [simpl; lia|].
      apply Z.lt_le_trans with 8; [|lia].
      apply Z.log2_lt_pow2; [lia|]. change (2 ^ 8) with 256. lia. }
  rewrite <- Z.lxor_lor by exact Hl. rewrite <- Z.add_nocarry_lxor by exact Hl.
  rewrite Z.shiftl_mul_pow2 by lia. change (2 ^ 8) with 256. lia.
Qed.

Lemma u16_None (d : list byte) (i : Z) :
  index d i = None \/ index d (i + 1) = None -> u16 d i = None.
Proof.
  unfold u16. intros [-> | Hn]; [reflexivity|].
  destruct (index d i); [simpl; rewrite Hn|]; reflexivity.
Qed.

Lemma u16_range (d : list byte) (i v : Z) : u16 d i = Some v -> 0 <= v < 65536.
Proof.
  unfold u16. destruct (index d i) as [b0|] eqn:E0; [|discriminate].
  destruct (index d (i + 1)) as [b1|] eqn:E1; [|discriminate].
  pose proof (u16_big_endian d i b0 b1 E0 E1) as Hu. unfold u16 in Hu.
  rewrite E0, E1 in Hu. rewrite Hu. intros [= <-].
  pose proof (byte_val_range b0). pose proof (byte_val_range b1). lia.
Qed.

Lemma int16_byte (b : byte) : int16 (byte_val b) = byte_val b.
Proof.
  apply wrap_small; [lia|]. pose proof (byte_val_range b).
  change (2 ^ (16 - 1)) with 32768. lia.
Qed.

Lemma axisDelta_range sh po sa d offset acc f off' acc' :
  -32768 <= acc < 32768 ->
  axisDelta sh po sa d offset acc f = Some (off', acc') ->
  -32768 <= acc' < 32768.
Proof.
  intros Hacc. unfold axisDelta.
  destruct (has f sh).
  - destruct (index d offset); [|discriminate]. simpl.
    destruct (has f po); intros [= <- <-]; apply int16_range.
  - destruct (has f sa); [intros [= <- <-]; exact Hacc|].
    destruct (index d offset); [|discriminate]. simpl.
    destruct (index d (offset + 1)); [|discriminate]. simpl.
    intros [= <- <-]. apply int16_range.
Qed.

Section DecodeCoords.
Context {H : Type}.
Implicit Types (w : World H) (l : list Point).

(** One round of a pass takes the delta the format prescribes and stores
    the accumulator in the point. *)
Lemma decodeCoords_step_eq sh po sa put d i offset acc w p :
  -32768 <= acc < 32768 ->
  index (pts w) i = Some p ->
  decodeCoords_step sh po sa put d i (offset, acc) w =
  match axisDelta sh po sa d offset acc (Flags p) with
  | Some r => Ret r (set_pts (<[Z.to_nat i := put r.2 p]> (pts w)) w)
  | None => Panic
  end.
Proof.
  intros Hacc Hp. unfold decodeCoords_step. unfold bind at 1.
  rewrite getPoint_eq, Hp. unfold axisDelta.
  assert (Hst : forall r : Z * Z, -32768 <= r.2 < 32768 ->
    bind (updPoint i (put (int32 r.2))) (fun _ => ret r) w =
    Ret r (set_pts (<[Z.to_nat i := put r.2 p]> (pts w)) w)).
  { intros r Hr. unfold bind. rewrite updPoint_eq, Hp.
    unfold int32. rewrite wrap_small; [reflexivity|lia|].
    change (2 ^ (32 - 1)) with 2147483648. lia. }
  destruct (has (Flags p) sh).
  - unfold bind at 1. unfold bind at 1.
    destruct (index d offset) as [b|]; [|reflexivity]. cbn [check ret mbind option_bind].
    rewrite int16_byte.
    destruct (has (Flags p) po); cbn [negb]; apply Hst; apply int16_range.
  - destruct (has (Flags p) sa); cbn [negb].
    + unfold bind at 1. cbn [ret]. apply (Hst (offset, acc)). exact Hacc.
    + unfold bind at 1. unfold bind at 1.
      destruct (index d offset) as [b0|] eqn:E0.
      * destruct (index d (offset + 1)) as [b1|] eqn:E1.
        -- rewrite (u16_big_endian d offset b0 b1 E0 E1). cbn [check ret mbind option_bind].
           apply Hst. apply int16_range.
        -- rewrite u16_None by auto. reflexivity.
      * rewrite u16_None by auto. reflexivity.
Qed.

End DecodeCoords.

Lemma decodeAxis_length sh po sa d offset acc flags cs off' :
  decodeAxis sh po sa d offset acc flags = Some (cs, off') ->
  length cs = length flags.
Proof.
  revert offset acc cs off'. induction flags as [|f flags IH];
    intros offset acc cs off'; simpl.
  - intros [= <- <-]. reflexivity.
  - destruct (axisDelta sh po sa d offset acc f) as [r|]; [|discriminate]. simpl.
    destruct (decodeAxis sh po sa d r.1 r.2 flags) as [[cs' o]|] eqn:E;
      [|discriminate]. simpl.
    intros [= <- <-]. simpl. f_equal. eapply IH, E.
Qed.

Lemma Flags_zip_with (put : Z -> Point -> Point) (cs : list Z) (l : list Point) :
  (forall c p, Flags (put c p) = Flags p) -> length cs = length l ->
  Flags <$> zip_with put cs l = Flags <$> l.
Proof.
  intros Hput. revert l. induction cs as [|c cs IH]; intros [|p l] Hlen;
    try discriminate; [reflexivity|].
  simpl. rewrite Hput. f_equal. apply IH. simpl in Hlen. lia.
Qed.

Section DecodeCoordsPass.
Context {H : Type}.
Implicit Types (w : World H) (l : list Point).

Lemma for_loop_S {S} (n : nat) (i : Z) (s : S) (body : Z -> S -> M H S) w :
  for_loop (Datatypes.S n) i s body w =
  match body i s w with
  | Ret s' w' => for_loop n (i + 1) s' body w'
  | Panic => Panic
  | Timeout => Timeout
  end.
Proof. reflexivity. Qed.

(** A whole pass over the points [i ..] decodes the stream of that axis. *)
Lemma decodeCoords_pass sh po sa put d
    (Hput : forall c p, Flags (put c p) = Flags p) (n : nat) :
  forall i offset acc w,
  -32768 <= acc < 32768 -> 0 <= i -> i + Z.of_nat n = plen w ->
  for_loop n i (offset, acc) (decodeCoords_step sh po sa put d) w =
  match decodeAxis sh po sa d offset acc (Flags <$> drop (Z.to_nat i) (pts w)) with
  | Some (cs, off') =>
      Ret (off', default acc (last cs))
          (set_pts (take (Z.to_nat i) (pts w) ++
                    zip_with put cs (drop (Z.to_nat i) (pts w))) w)
  | None => Panic
  end.
Proof.
  induction n as [|n IH]; intros i offset acc w Hacc Hi Hn.
  - rewrite drop_ge by (rewrite plen_pts in Hn; lia). simpl.
    rewrite take_ge by (rewrite plen_pts in Hn; lia).
    rewrite app_nil_r, set_pts_id. reflexivity.
  - rewrite for_loop_S.
    destruct (index_is_Some (pts w) i) as [p Hp]; [rewrite <- plen_pts; lia|].
    rewrite (decodeCoords_step_eq sh po sa put d i offset acc w p Hacc Hp).
    pose proof Hp as Hp'. apply index_Some in Hp' as [_ Hl].
    rewrite (drop_S _ _ _ Hl). cbn [fmap list_fmap decodeAxis].
    destruct (axisDelta sh po sa d offset acc (Flags p)) as [[o1 a1]|] eqn:Ed;
      [|reflexivity].
    cbn [mbind option_bind fst snd].
    rewrite IH; cycle 1.
    { eapply axisDelta_range; eauto. }
    { lia. }
    { rewrite plen_set_pts, length_insert, <- plen_pts. lia. }
    rewrite pts_set_pts.
    replace (Z.to_nat (i + 1)) with (S (Z.to_nat i)) by lia.
    rewrite drop_insert_lt by lia.
    destruct (decodeAxis sh po sa d o1 a1 (Flags <$> drop (S (Z.to_nat i)) (pts w)))
      as [[cs o2]|]; [|reflexivity].
    cbn [mbind option_bind fst snd zip_with].
    f_equal.
    + f_equal. rewrite last_cons. destruct (last cs); reflexivity.
    + rewrite set_pts_twice. f_equal.
      rewrite take_insert_lt by lia.
      rewrite (take_S_r _ _ _ Hl).
      assert (Hlt : length (take (Z.to_nat i) (pts w)) = Z.to_nat i).
      { apply length_take_le. apply lookup_lt_Some in Hl. lia. }
      rewrite <- Hlt at 1. rewrite <- (Nat.add_0_r (length _)).
      rewrite insert_app_r. simpl. rewrite <- app_assoc. reflexivity.
Qed.

(** [decodeCoords] decodes the X stream for all points [np0 ..], both
    accumulators starting at 0, then the Y stream from where the X stream
    ended. *)
Lemma decodeCoords_eq d offset np0 w :
  0 <= np0 ->
  decodeCoords d offset np0 w =
  let flags := Flags <$> drop (Z.to_nat np0) (pts w) in
  match decodeXs d offset 0 flags with
  | Some (xs, off1) =>
      match decodeYs d off1 0 flags with
      | Some (ys, off2) => Ret off2 (set_pts (withCoords np0 xs ys (pts w)) w)
      | None => Panic
      end
  | None => Panic
  end.
Proof.
  intros Hnp0. cbv zeta.
  destruct (Z_le_gt_dec np0 (plen w)) as [Hle|Hgt]; cycle 1.
  { rewrite drop_ge by (rewrite plen_pts in Hgt; lia).
    unfold decodeCoords, for_range, bind. rewrite lenPoint_eq.
    replace (Z.to_nat (plen w - np0)) with 0%nat by lia. cbn [for_loop ret].
    rewrite lenPoint_eq.
    replace (Z.to_nat (plen w - np0)) with 0%nat by lia. cbn.
    unfold withCoords. rewrite drop_ge by (rewrite plen_pts in Hgt; lia).
    rewrite take_ge by (rewrite plen_pts in Hgt; lia). cbn.
    rewrite app_nil_r, set_pts_id. reflexivity. }
  assert (Hnp : 0 <= np0 <= plen w) by lia.
  unfold decodeCoords, for_range.
  unfold bind at 1. rewrite lenPoint_eq. unfold bind at 1.
  rewrite decodeCoords_pass; [|reflexivity|lia|lia|lia].
  fold decodeXs.
  destruct (decodeXs d offset 0 (Flags <$> drop (Z.to_nat np0) (pts w)))
    as [[xs off1]|] eqn:Ex; [|reflexivity].
  pose proof (decodeAxis_length _ _ _ _ _ _ _ _ _ Ex) as Hlx.
  rewrite length_fmap, length_drop in Hlx.
  assert (Hnat : (Z.to_nat np0 <= length (pts w))%nat) by (rewrite plen_pts in Hnp; lia).
  assert (Hlt : length (take (Z.to_nat np0) (pts w)) = Z.to_nat np0)
    by (apply length_take_le; lia).
  unfold bind at 1. rewrite lenPoint_eq. unfold bind at 1.
  rewrite decodeCoords_pass; [|reflexivity|lia|lia|]; cycle 1.
  { rewrite plen_set_pts, length_app, length_zip_with, length_drop, Hlt. lia. }
  rewrite pts_set_pts. cbn [fst].
  rewrite (drop_app_length' _ _ _ (eq_sym Hlt)).
  rewrite (take_app_length' _ _ _ (eq_sym Hlt)).
  rewrite Flags_zip_with by (try reflexivity; rewrite length_drop; lia).
  fold decodeYs.
  destruct (decodeYs d off1 0 (Flags <$> drop (Z.to_nat np0) (pts w)))
    as [[ys off2]|]; reflexivity.
Qed.

End DecodeCoordsPass.

(** C4. [decodeCoords] decodes the X stream of all the points from [np0]
    on, then the Y stream from the offset at which the X stream ended.
    Each stream is decoded as the format says ([axisDelta]): a short vector
    takes one byte, added or subtracted as the sign bit says; "same" takes
    no byte and keeps the accumulator; otherwise a signed 16-bit big-endian
    delta of two bytes is added; the accumulator is a signed 16-bit value
    with wrap-around, starting at 0 for each axis, and the point gets its
    value as an int32. *)
Theorem decodeCoords_two_passes {H} (d : list byte) (offset np0 : Z) (w : World H) :
  0 <= np0 ->
  decodeCoords d offset np0 w =
  let flags := Flags <$> drop (Z.to_nat np0) (pts w) in
  match decodeAxis flagXShortVector flagPositiveXShortVector flagThisXIsSame
          d offset 0 flags with
  | Some (xs, off1) =>
      match decodeAxis flagYShortVector flagPositiveYShortVector flagThisYIsSame
              d off1 0 flags with
      | Some (ys, off2) =>
          Ret off2
            (set_pts (take (Z.to_nat np0) (pts w) ++
                      zip_with with_Y ys
                        (zip_with with_X xs (drop (Z.to_nat np0) (pts w)))) w)
      | None => Panic
      end
  | None => Panic
  end.
Proof. intros Hnp0. apply decodeCoords_eq, Hnp0. Qed.


Lemma drop_withCoords (np0 : Z) (xs ys : list Z) (l : list Point) :
  drop (Z.to_nat np0) (withCoords np0 xs ys l) =
  zip_with with_Y ys (zip_with with_X xs (drop (Z.to_nat np0) l)).
Proof.
  unfold withCoords.
  destruct (Nat.le_gt_cases (Z.to_nat np0) (length l)) as [Hle|Hgt].
  - apply drop_app_length'. symmetry. apply length_take_le, Hle.
  - rewrite (drop_ge l) by lia. rewrite (take_ge l) by lia.
    destruct xs, ys; simpl; rewrite app_nil_r; apply drop_ge; lia.
Qed.



(** ** Scaling *)

Section Scaling.
Context {H : Type}.
Implicit Types (w : World H) (l : list Point).

(** A loop that rewrites one point per round rewrites the range. *)
Lemma for_loop_pointwise (F : Point -> Point) (body : Z -> unit -> M H unit) :
  (forall i w p, index (pts w) i = Some p ->
     body i tt w = Ret tt (set_pts (<[Z.to_nat i := F p]> (pts w)) w)) ->
  forall (n : nat) i w, 0 <= i -> i + Z.of_nat n <= plen w ->
  for_loop n i tt body w =
  Ret tt (set_pts (mapRange F i (i + Z.of_nat n) (pts w)) w).
Proof.
  intros Hbody. induction n as [|n IH]; intros i w Hi Hn.
  - cbn [for_loop ret]. rewrite mapRange_empty by lia. rewrite set_pts_id.
    reflexivity.
  - rewrite for_loop_S.
    destruct (index_is_Some (pts w) i) as [p Hp]; [rewrite <- plen_pts; lia|].
    rewrite (Hbody i w p Hp).
    rewrite IH by (rewrite ?plen_set_pts, ?length_insert, <- ?plen_pts; lia).
    rewrite pts_set_pts, set_pts_twice. rewrite mapRange_cons by exact Hp.
    do 3 f_equal; lia.
Qed.

Lemma for_range_pointwise (F : Point -> Point) (body : Z -> unit -> M H unit) :
  (forall i w p, index (pts w) i = Some p ->
     body i tt w = Ret tt (set_pts (<[Z.to_nat i := F p]> (pts w)) w)) ->
  forall lo hi w, 0 <= lo -> hi <= plen w ->
  for_range lo hi tt body w = Ret tt (set_pts (mapRange F lo hi (pts w)) w).
Proof.
  intros Hbody lo hi w Hlo Hhi. unfold for_range.
  destruct (Z_le_gt_dec lo hi) as [Hle|Hgt].
  - rewrite (for_loop_pointwise F body Hbody) by lia.
    do 3 f_equal; lia.
  - replace (Z.to_nat (hi - lo)) with 0%nat by lia. cbn [for_loop ret].
    rewrite mapRange_empty by lia. rewrite set_pts_id. reflexivity.
Qed.

Lemma index_insert_same {A} (l : list A) (i : Z) (a b : A) :
  index l i = Some a -> index (<[Z.to_nat i := b]> l) i = Some b.
Proof.
  intros Hi. apply index_Some in Hi as [H0 Hl]. apply index_Some.
  split; [exact H0|]. apply list_lookup_insert_eq. eapply lookup_lt_Some, Hl.
Qed.

(** Two stores to the fields of one point make one update of the point. *)
Lemma two_updates i (u1 u2 : Point -> Point -> Point) w p :
  index (pts w) i = Some p ->
  (p1 <- getPoint i ;; updPoint i (u1 p1) ;;;
   p2 <- getPoint i ;; updPoint i (u2 p2)) w =
  Ret tt (set_pts (<[Z.to_nat i := u2 (u1 p p) (u1 p p)]> (pts w)) w).
Proof.
  intros Hp. unfold bind. rewrite getPoint_eq, Hp, updPoint_eq, Hp.
  rewrite getPoint_eq, pts_set_pts, (index_insert_same _ _ _ _ Hp).
  rewrite updPoint_eq, pts_set_pts, (index_insert_same _ _ _ _ Hp).
  rewrite list_insert_insert_eq. reflexivity.
Qed.

Lemma scalePoints_eq f scale dx dy roundDxDy np0 np w :
  0 <= np0 -> np <= plen w ->
  scalePoints f scale dx dy roundDxDy np0 np w =
  Ret tt (set_pts (mapRange (scaledPoint f scale dx dy roundDxDy) np0 np (pts w)) w).
Proof.
  intros Hnp0 Hnp. unfold scalePoints. destruct roundDxDy; cbv zeta.
  - apply for_range_pointwise; [|assumption..].
    intros i w0 p Hp. unfold scaleRounded.
    rewrite (two_updates i
      (fun q => with_X (add32 _ (Font_scale f (mul32 scale (X q)))))
      (fun q => with_Y (add32 _ (Font_scale f (mul32 scale (Y q)))))
      w0 p Hp).
    reflexivity.
  - apply for_range_pointwise; [|assumption..].
    intros i w0 p Hp. unfold scaleUnrounded.
    rewrite (two_updates i
      (fun q => with_X (Font_scale f (mul32 scale (add32 (X q) dx))))
      (fun q => with_Y (Font_scale f (mul32 scale (add32 (Y q) dy))))
      w0 p Hp).
    reflexivity.
Qed.

End Scaling.

(** C6. The scaling step of [load] applies one of two policies, chosen by
    [roundDxDy], to each point of the range and to each axis on its own.
    Unrounded, the coordinate becomes [f.scale(scale * (raw + offset))].
    Grid-rounded, the offset becomes
    [(f.scale(scale * offset) + 32) &^ 63] and the coordinate becomes that
    rounded offset plus [f.scale(scale * raw)].  All arithmetic is int32.
    Flags, and the points outside the range, are left as they are. *)
Theorem scalePoints_policy {H} (f : Font) (scale dx dy : Z) (roundDxDy : bool)
    (np0 np : Z) (w : World H) :
  0 <= np0 -> np <= plen w ->
  exists w', scalePoints f scale dx dy roundDxDy np0 np w = Ret tt w' /\
    buf w' = set_Points (set_elems (pts w') (Points (buf w))) (buf w) /\
    hstate w' = hstate w /\
    forall j p, index (pts w) j = Some p ->
      index (pts w') j =
      Some (if decide (np0 <= j < np) then
              if roundDxDy then
                let rdx := int32 (Z.land (int32 (Font_scale f (int32 (scale * dx)) + 32))
                                         (Z.lnot 63)) in
                let rdy := int32 (Z.land (int32 (Font_scale f (int32 (scale * dy)) + 32))
                                         (Z.lnot 63)) in
                mkPoint (int32 (rdx + Font_scale f (int32 (scale * X p))))
                        (int32 (rdy + Font_scale f (int32 (scale * Y p))))
                        (Flags p)
              else
                mkPoint (Font_scale f (int32 (scale * int32 (X p + dx))))
                        (Font_scale f (int32 (scale * int32 (Y p + dy))))
                        (Flags p)
            else p).
Proof.
  intros Hnp0 Hnp. eexists. split; [apply scalePoints_eq; assumption|].
  split; [reflexivity|]. split; [reflexivity|].
  intros j p Hj. rewrite pts_set_pts.
  destruct (decide (np0 <= j < np)) as [Hin|Hout].
  - rewrite (mapRange_lookup_in _ _ _ _ _ _ Hin Hj).
    destruct roundDxDy; reflexivity.
  - rewrite mapRange_lookup_out by exact Hout. exact Hj.
Qed.

(** ** loadCompound *)

Section Compound.
Context {H : Type}.
Implicit Types (w : World H) (ld : loader H).

Lemma readComponent_bounds glyf offset dx dy fl c dx1 dy1 off' :
  readComponent glyf offset dx dy = Some (fl, c, dx1, dy1, off') ->
  0 <= offset /\ offset + 6 <= off' <= Z.of_nat (length glyf).
Proof.
  unfold readComponent.
  destruct (u16 glyf offset) as [fl0|] eqn:E0; [|discriminate].
  destruct (u16 glyf (offset + 2)) as [c0|] eqn:E2; [|discriminate].
  cbn [mbind option_bind].
  assert (H0 : 0 <= offset).
  { unfold u16 in E0. destruct (index glyf offset) eqn:E; [|discriminate].
    apply index_lt in E. lia. }
  destruct (has fl0 flagArg1And2AreWords).
  - destruct (u16 glyf (offset + 4)) as [a1|]; [|discriminate].
    destruct (u16 glyf (offset + 6)) as [a2|] eqn:E6; [|discriminate].
    cbn. intros [= <- <- <- <- <-].
    unfold u16 in E6. destruct (index glyf (offset + 6)); [|discriminate].
    cbn in E6. destruct (index glyf (offset + 6 + 1)) eqn:E7; [|discriminate].
    apply index_lt in E7. lia.
  - destruct (index glyf (offset + 4)) as [a1|]; [|discriminate].
    destruct (index glyf (offset + 5)) as [a2|] eqn:E5; [|discriminate].
    cbn. intros [= <- <- <- <- <-]. apply index_lt in E5. lia.
Qed.

(** One round of the component loop. *)
Lemma loadCompound_loop_eq ld (n : nat) f scale h glyf offset dx dy recursion w :
  loadCompound_loop ld (S n) f scale h glyf offset dx dy recursion w =
  match readComponent glyf offset dx dy with
  | None => Panic
  | Some (flags, component, dx1, dy1, offset') =>
      if negb (has flags flagArgsAreXYValues) then
        Ret (Some (UnsupportedError "compound glyph transform vector")) w
      else if has flags transformBits then
        Ret (Some (UnsupportedError "compound glyph scale/transform")) w
      else
        match ld f scale component h dx1 dy1 (has flags flagRoundXYToGrid)
                 (recursion + 1) w with
        | Ret _ w1 =>
            let w2 := if has flags flagUseMyMetrics then w1
                      else setB (B (buf w)) w1 in
            if has flags flagMoreComponents then
              loadCompound_loop ld n f scale h glyf offset' dx dy recursion w2
            else Ret None w2
        | Panic => Panic
        | Timeout => Timeout
        end
  end.
Proof.
  cbn [loadCompound_loop]. unfold readComponent.
  unfold bind at 1. destruct (u16 glyf offset) as [flags|]; [|reflexivity].
  cbn [check ret mbind option_bind].
  unfold bind at 1. destruct (u16 glyf (offset + 2)) as [component|]; [|reflexivity].
  cbn [check ret mbind option_bind].
  unfold bind at 1.
  assert (Hrest : forall dx1 dy1 offset',
    (if negb (has flags flagArgsAreXYValues)
     then ret (Some (UnsupportedError "compound glyph transform vector"))
     else if has flags (Z.lor (Z.lor flagWeHaveAScale flagWeHaveAnXAndYScale)
                              flagWeHaveATwoByTwo)
     then ret (Some (UnsupportedError "compound glyph scale/transform"))
     else
       g <- get ;;
       ld f scale component h dx1 dy1 (has flags flagRoundXYToGrid) (recursion + 1) ;;;
       (if negb (has flags flagUseMyMetrics)
        then g0 <- get ;; put (set_B (B g) g0) else ret tt) ;;;
       (if negb (has flags flagMoreComponents) then ret None
        else loadCompound_loop ld n f scale h glyf offset' dx dy recursion)) w =
    (if negb (has flags flagArgsAreXYValues)
     then Ret (Some (UnsupportedError "compound glyph transform vector")) w
     else if has flags transformBits
     then Ret (Some (UnsupportedError "compound glyph scale/transform")) w
     else
       match ld f scale component h dx1 dy1 (has flags flagRoundXYToGrid)
                (recursion + 1) w with
       | Ret _ w1 =>
           let w2 := if has flags flagUseMyMetrics then w1
                     else setB (B (buf w)) w1 in
           if has flags flagMoreComponents
           then loadCompound_loop ld n f scale h glyf offset' dx dy recursion w2
           else Ret None w2
       | Panic => Panic
       | Timeout => Timeout
       end)).
  { intros dx1 dy1 offset'. unfold transformBits.
    destruct (has flags flagArgsAreXYValues); [|reflexivity]. cbn [negb].
    destruct (has flags _); [reflexivity|].
    unfold bind at 1. cbn [get]. unfold bind at 1.
    destruct (ld f scale component h dx1 dy1 _ _ w) as [r w1| |]; try reflexivity.
    unfold bind at 1.
    destruct (has flags flagUseMyMetrics); cbn [negb ret];
      destruct (has flags flagMoreComponents); reflexivity. }
  destruct (has flags flagArg1And2AreWords).
  - unfold bind at 1. destruct (u16 glyf (offset + 4)) as [a1|]; [|reflexivity].
    cbn [check ret mbind option_bind]. unfold bind at 1.
    destruct (u16 glyf (offset + 6)) as [a2|]; [|reflexivity].
    cbn [check ret mbind option_bind]. apply Hrest.
  - unfold bind at 1. destruct (index glyf (offset + 4)) as [a1|]; [|reflexivity].
    cbn [check ret mbind option_bind]. unfold bind at 1.
    destruct (index glyf (offset + 5)) as [a2|]; [|reflexivity].
    cbn [check ret mbind option_bind]. apply Hrest.
Qed.

(** The rounds are bounded by the bytes left: more fuel changes nothing. *)
Lemma loadCompound_loop_fuel ld (n1 n2 : nat) f scale h glyf offset dx dy recursion w :
  (0 < n1)%nat -> (0 < n2)%nat ->
  Z.of_nat (length glyf) - offset < Z.of_nat n1 ->
  Z.of_nat (length glyf) - offset < Z.of_nat n2 ->
  loadCompound_loop ld n1 f scale h glyf offset dx dy recursion w =
  loadCompound_loop ld n2 f scale h glyf offset dx dy recursion w.
Proof.
  revert n2 offset w. induction n1 as [|n1 IH]; intros n2 offset w Hp1 Hp2 H1 H2;
    [lia|].
  destruct n2 as [|n2]; [lia|]. rewrite !loadCompound_loop_eq.
  destruct (readComponent glyf offset dx dy) as [[[[[fl c] dx1] dy1] off']|] eqn:E;
    [|reflexivity].
  apply readComponent_bounds in E.
  destruct (negb (has fl flagArgsAreXYValues)); [reflexivity|].
  destruct (has fl transformBits); [reflexivity|].
  destruct (ld f scale c h dx1 dy1 _ _ w) as [r w1| |]; try reflexivity.
  cbv zeta. destruct (has fl flagMoreComponents); [|reflexivity].
  apply IH; lia.
Qed.

Lemma loadCompound_eq ld (n : nat) f scale h glyf offset dx dy recursion w :
  Z.of_nat (length glyf) - offset < Z.of_nat (S n) ->
  loadCompound ld f scale h glyf offset dx dy recursion w =
  loadCompound_loop ld (S n) f scale h glyf offset dx dy recursion w.
Proof.
  intros Hn. unfold loadCompound.
  destruct (Z_lt_ge_dec offset 0) as [Hneg|Hnn].
  - rewrite !loadCompound_loop_eq.
    destruct (readComponent glyf offset dx dy) as [[[[[fl c] dx1] dy1] off']|] eqn:E;
      [|reflexivity].
    apply readComponent_bounds in E. lia.
  - apply loadCompound_loop_fuel; lia.
Qed.

(** [loadCompound], one component at a time. *)
Lemma loadCompound_step ld f scale h glyf offset dx dy recursion w :
  loadCompound ld f scale h glyf offset dx dy recursion w =
  match readComponent glyf offset dx dy with
  | None => Panic
  | Some (flags, component, dx1, dy1, offset') =>
      if negb (has flags flagArgsAreXYValues) then
        Ret (Some (UnsupportedError "compound glyph transform vector")) w
      else if has flags transformBits then
        Ret (Some (UnsupportedError "compound glyph scale/transform")) w
      else
        match ld f scale component h dx1 dy1 (has flags flagRoundXYToGrid)
                 (recursion + 1) w with
        | Ret _ w1 =>
            let w2 := if has flags flagUseMyMetrics then w1
                      else setB (B (buf w)) w1 in
            if has flags flagMoreComponents then
              loadCompound ld f scale h glyf offset' dx dy recursion w2
            else Ret None w2
        | Panic => Panic
        | Timeout => Timeout
        end
  end.
Proof.
  unfold loadCompound at 1. rewrite loadCompound_loop_eq.
  destruct (readComponent glyf offset dx dy) as [[[[[fl c] dx1] dy1] off']|] eqn:E;
    [|reflexivity].
  apply readComponent_bounds in E.
  destruct (negb (has fl flagArgsAreXYValues)); [reflexivity|].
  destruct (has fl transformBits); [reflexivity|].
  destruct (ld f scale c h dx1 dy1 _ _ w) as [r w1| |]; try reflexivity.
  cbv zeta. destruct (has fl flagMoreComponents); [|reflexivity].
  symmetry. destruct (length glyf) as [|n] eqn:El; [simpl in E; lia|].
  apply loadCompound_eq. lia.
Qed.

Lemma loadCompound_loop_no_timeout ld (n : nat) f scale h glyf offset dx dy recursion w :
  (forall i dx dy r w, ld f scale i h dx dy r (recursion + 1) w <> Timeout) ->
  (0 < n)%nat -> Z.of_nat (length glyf) - offset < Z.of_nat n ->
  loadCompound_loop ld n f scale h glyf offset dx dy recursion w <> Timeout.
Proof.
  intros Hld. revert offset w. induction n as [|n IH]; intros offset w Hp Hn; [lia|].
  rewrite loadCompound_loop_eq.
  destruct (readComponent glyf offset dx dy) as [[[[[fl c] dx1] dy1] off']|] eqn:E;
    [|discriminate].
  apply readComponent_bounds in E.
  destruct (negb (has fl flagArgsAreXYValues)); [discriminate|].
  destruct (has fl transformBits); [discriminate|].
  specialize (Hld c dx1 dy1 (has fl flagRoundXYToGrid) w).
  destruct (ld f scale c h dx1 dy1 _ _ w) as [r w1| |]; [|discriminate|congruence].
  cbv zeta. destruct (has fl flagMoreComponents); [|discriminate].
  apply IH; lia.
Qed.

Lemma loadCompound_no_timeout ld f scale h glyf offset dx dy recursion w :
  (forall i dx dy r w, ld f scale i h dx dy r (recursion + 1) w <> Timeout) ->
  loadCompound ld f scale h glyf offset dx dy recursion w <> Timeout.
Proof.
  intros Hld. rewrite loadCompound_step.
  destruct (readComponent glyf offset dx dy) as [[[[[fl c] dx1] dy1] off']|] eqn:E;
    [|discriminate].
  apply readComponent_bounds in E.
  destruct (negb (has fl flagArgsAreXYValues)); [discriminate|].
  destruct (has fl transformBits); [discriminate|].
  pose proof (Hld c dx1 dy1 (has fl flagRoundXYToGrid) w) as Hl.
  destruct (ld f scale c h dx1 dy1 _ _ w) as [r w1| |]; [|discriminate|congruence].
  cbv zeta. destruct (has fl flagMoreComponents); [|discriminate].
  unfold loadCompound. apply loadCompound_loop_no_timeout; [exact Hld|lia|lia].
Qed.

Lemma loadCompound_loop_drop ld (n : nat) f scale h glyf offset dx dy recursion w :
  loadCompound_loop ld n f scale h glyf offset dx dy recursion w =
  loadCompound_loop (drop_errs ld) n f scale h glyf offset dx dy recursion w.
Proof.
  revert offset w. induction n as [|n IH]; intros offset w; [reflexivity|].
  rewrite !loadCompound_loop_eq.
  destruct (readComponent glyf offset dx dy) as [[[[[fl c] dx1] dy1] off']|];
    [|reflexivity].
  destruct (negb (has fl flagArgsAreXYValues)); [reflexivity|].
  destruct (has fl transformBits); [reflexivity|].
  unfold drop_errs at 1, drop_err.
  destruct (ld f scale c h dx1 dy1 _ _ w) as [r w1| |]; try reflexivity.
  cbv zeta. destruct (has fl flagMoreComponents); [|reflexivity]. apply IH.
Qed.

Lemma loadCompound_loop_own_errors ld (n : nat) f scale h glyf offset dx dy recursion
    w e w' :
  loadCompound_loop ld n f scale h glyf offset dx dy recursion w = Ret (Some e) w' ->
  e = UnsupportedError "compound glyph transform vector" \/
  e = UnsupportedError "compound glyph scale/transform".
Proof.
  revert offset w. induction n as [|n IH]; intros offset w; [discriminate|].
  rewrite loadCompound_loop_eq.
  destruct (readComponent glyf offset dx dy) as [[[[[fl c] dx1] dy1] off']|];
    [|discriminate].
  destruct (negb (has fl flagArgsAreXYValues)); [intros [= <- _]; auto|].
  destruct (has fl transformBits); [intros [= <- _]; auto|].
  destruct (ld f scale c h dx1 dy1 _ _ w) as [r w1| |]; try discriminate.
  cbv zeta. destruct (has fl flagMoreComponents); [|discriminate]. apply IH.
Qed.

End Compound.

(** C3. [loadCompound] discards the error value that the recursive load
    of a component returns: replacing every error result of the component
    loader by nil changes neither what [loadCompound] returns nor the buffer
    it leaves, so a failed component leaves its partial effect in the buffer
    and the next component is loaded after it.  The only errors
    [loadCompound] returns are the two it raises itself on a component
    record. *)
Theorem loadCompound_discards_component_error {H} (ld : loader H) (f : Font)
    (scale : Z) (h : option (Hinter H)) (glyf : list byte)
    (offset dx dy recursion : Z) (w : World H) :
  loadCompound ld f scale h glyf offset dx dy recursion w =
  loadCompound (drop_errs ld) f scale h glyf offset dx dy recursion w
  /\ forall e w',
       loadCompound ld f scale h glyf offset dx dy recursion w = Ret (Some e) w' ->
       e = UnsupportedError "compound glyph transform vector" \/
       e = UnsupportedError "compound glyph scale/transform".
Proof.
  split.
  - apply loadCompound_loop_drop.
  - intros e w'. apply loadCompound_loop_own_errors.
Qed.

(** C7. In [loadCompound], loading a component whose "use my metrics"
    flag is unset leaves the bounds [B] that the buffer had just before the
    component was loaded; loading one whose flag is set leaves the bounds
    that the load of that component produced.  Nothing else of what the
    component load left is changed, and composition goes on with the next
    record, or ends, from there. *)
Theorem loadCompound_component_bounds {H} (ld : loader H) (f : Font) (scale : Z)
    (h : option (Hinter H)) (glyf : list byte) (offset dx dy recursion : Z)
    (w : World H) (flags component dx1 dy1 offset' : Z)
    (r : option error) (w1 : World H) :
  readComponent glyf offset dx dy = Some (flags, component, dx1, dy1, offset') ->
  has flags flagArgsAreXYValues = true ->
  has flags transformBits = false ->
  ld f scale component h dx1 dy1 (has flags flagRoundXYToGrid) (recursion + 1) w
    = Ret r w1 ->
  exists w2,
    B (buf w2) = (if has flags flagUseMyMetrics then B (buf w1) else B (buf w)) /\
    w2 = setB (B (buf w2)) w1 /\
    loadCompound ld f scale h glyf offset dx dy recursion w =
    (if has flags flagMoreComponents
     then loadCompound ld f scale h glyf offset' dx dy recursion w2
     else Ret None w2).
Proof.
  intros Hrec Hxy Htr Hld. rewrite loadCompound_step, Hrec, Hxy, Htr, Hld.
  cbn [negb]. cbv zeta.
  exists (if has flags flagUseMyMetrics then w1 else setB (B (buf w)) w1).
  destruct (has flags flagUseMyMetrics).
  - split; [reflexivity|]. split; [|reflexivity].
    destruct w1 as [[b p u i t e] hs]. reflexivity.
  - split; [reflexivity|]. split; reflexivity.
Qed.

(** ** load and Load *)

Section LoadFacts.
Context {H : Type}.
Implicit Types (w : World H) (h : option (Hinter H)).

Lemma updB_eq (upd : Bounds -> Bounds) w :
  updB upd w = Ret tt (setB (upd (B (buf w))) w).
Proof. reflexivity. Qed.

Lemma load_eq (fuel : nat) f scale i h dx dy roundDxDy recursion w :
  load (S fuel) f scale i h dx dy roundDxDy recursion w =
  if recursion >=? 4 then
    Ret (Some (UnsupportedError "excessive compound glyph recursion")) w
  else
    match glyphRange f i with
    | None => Panic
    | Some (g0, g1) =>
        if g0 =? g1 then Ret None w
        else
          match subslice (glyf f) g0 g1 with
          | None => Panic
          | Some gl =>
              match readHeader (elems gl) with
              | None => Panic
              | Some (ne, b) =>
                  let w1 := setB b w in
                  if ne =? -1 then
                    loadCompound (load fuel) f scale h (elems gl) 10 dx dy recursion w1
                  else if ne <? 0 then
                    Ret (Some (UnsupportedError "negative number of contours")) w1
                  else loadSimple f scale h gl ne 10 dx dy roundDxDy w1
              end
          end
    end.
Proof.
  cbn [load]. destruct (recursion >=? 4); [reflexivity|].
  unfold bind at 1. destruct (glyphRange f i) as [[g0 g1]|]; [|reflexivity].
  cbn [check ret]. destruct (g0 =? g1); [reflexivity|].
  unfold bind at 1. destruct (subslice (glyf f) g0 g1) as [gl|]; [|reflexivity].
  cbn [check ret]. unfold readHeader.
  unfold bind at 1. destruct (u16 (elems gl) 0) as [ne|]; [|reflexivity].
  cbn [check ret mbind option_bind].
  unfold bind at 1. destruct (u16 (elems gl) 2) as [x0|]; [|reflexivity].
  cbn [check ret mbind option_bind]. unfold bind at 1. rewrite updB_eq.
  unfold bind at 1. destruct (u16 (elems gl) 4) as [y0|]; [|reflexivity].
  cbn [check ret mbind option_bind]. unfold bind at 1. rewrite updB_eq.
  unfold bind at 1. destruct (u16 (elems gl) 6) as [x1|]; [|reflexivity].
  cbn [check ret mbind option_bind]. unfold bind at 1. rewrite updB_eq.
  unfold bind at 1. destruct (u16 (elems gl) 8) as [y1|]; [|reflexivity].
  cbn [check ret mbind option_bind]. unfold bind at 1. rewrite updB_eq.
  cbv zeta. destruct (int16 ne =? -1); [reflexivity|].
  destruct (int16 ne <? 0); reflexivity.
Qed.

Lemma subslice_0_0 {A} (s : slice A) : subslice s 0 0 = Some (Slice [] (backing s)).
Proof.
  unfold subslice. destruct (Z.leb_spec 0 (cap s)) as [_|Hc]; [reflexivity|].
  unfold cap in Hc. lia.
Qed.

Lemma Load_eq f scale i h w :
  Load f scale i h w =
  match initHinter h f scale (resetWorld w) with
  | Ret (Some e) w1 => Ret (Some e) w1
  | Ret None w1 =>
      match load load_fuel f scale i h 0 0 false 0 w1 with
      | Ret (Some e) w2 => Ret (Some e) w2
      | Ret None w2 => Ret None (setB (scaleBounds f scale (B (buf w2))) w2)
      | Panic => Panic
      | Timeout => Timeout
      end
  | Panic => Panic
  | Timeout => Timeout
  end.
Proof.
  unfold Load. unfold bind at 1. cbn [get]. unfold bind at 1.
  rewrite subslice_0_0. cbn [check ret]. unfold bind at 1.
  rewrite subslice_0_0. cbn [check ret]. unfold bind at 1. cbn [put].
  unfold bind at 1. fold (initHinter h f scale).
  change (mkWorld _ (hstate w)) with (resetWorld w).
  destruct (initHinter h f scale (resetWorld w)) as [[e|] w1| |]; try reflexivity.
  unfold bind at 1.
  destruct (load load_fuel f scale i h 0 0 false 0 w1) as [[e|] w2| |];
    try reflexivity.
Qed.

(** *** No call exhausts its fuel *)

Lemma total_ret {A} (a : A) : total (H:=H) (ret a).
Proof. intros w. discriminate. Qed.

Lemma total_bind {A C} (m : M H A) (k : A -> M H C) :
  total m -> (forall a, total (k a)) -> total (bind m k).
Proof.
  intros Hm Hk w. unfold bind. specialize (Hm w).
  destruct (m w) as [a w'| |]; [apply Hk|discriminate|congruence].
Qed.

Lemma total_check {A} (o : option A) : total (H:=H) (check o).
Proof. intros w. destruct o; discriminate. Qed.

Lemma total_get : total (H:=H) get.
Proof. intros w. discriminate. Qed.

Lemma total_put g : total (H:=H) (put g).
Proof. intros w. discriminate. Qed.

Lemma total_for_loop {S} (body : Z -> S -> M H S) (n : nat) i s :
  (forall i s, total (body i s)) -> total (for_loop n i s body).
Proof.
  intros Hb. revert i s. induction n as [|n IH]; intros i s.
  - apply total_ret.
  - cbn [for_loop]. apply total_bind; [apply Hb|]. intros s'. apply IH.
Qed.

Lemma total_updPoint i upd : total (H:=H) (updPoint i upd).
Proof.
  unfold updPoint. repeat (apply total_bind; [|intros ?]);
    auto using total_get, total_check, total_put.
Qed.

Lemma total_getPoint i : total (H:=H) (getPoint i).
Proof.
  unfold getPoint. apply total_bind; [apply total_get|]. intros g. apply total_check.
Qed.

Lemma total_decodeFlags d offset np0 : total (H:=H) (decodeFlags d offset np0).
Proof.
  intros w. rewrite (decodeFlags_eq d offset np0 w (Z.to_nat (plen w - np0))) by lia.
  apply decodeFlags_loop_no_timeout. lia.
Qed.

Lemma total_decodeCoords_step sh po sa put d i s :
  total (H:=H) (decodeCoords_step sh po sa put d i s).
Proof.
  unfold decodeCoords_step. destruct s as [offset x].
  apply total_bind; [apply total_getPoint|]. intros p.
  apply total_bind.
  - destruct (has (Flags p) sh).
    + apply total_bind; [apply total_check|]. intros b.
      destruct (negb (has (Flags p) po)); apply total_ret.
    + destruct (negb (has (Flags p) sa)); [|apply total_ret].
      apply total_bind; [apply total_check|]. intros v. apply total_ret.
  - intros s'. apply total_bind; [apply total_updPoint|]. intros _. apply total_ret.
Qed.

Lemma total_decodeCoords d offset np0 : total (H:=H) (decodeCoords d offset np0).
Proof.
  unfold decodeCoords, lenPoint, for_range.
  repeat (apply total_bind; [|intros ?]);
    auto using total_get, total_ret, total_for_loop, total_decodeCoords_step.
Qed.

Lemma total_scalePoints f scale dx dy r np0 np :
  total (H:=H) (scalePoints f scale dx dy r np0 np).
Proof.
  unfold scalePoints, for_range. destruct r; cbv zeta; apply total_for_loop;
    intros i []; unfold scaleRounded, scaleUnrounded;
    (apply total_bind; [apply total_getPoint|]; intros p;
     apply total_bind; [apply total_updPoint|]; intros _;
     apply total_bind; [apply total_getPoint|]; intros p2;
     apply total_updPoint).
Qed.

Lemma total_loadSimple f scale h gl ne offset dx dy r :
  hinter_total h -> total (loadSimple f scale h gl ne offset dx dy r).
Proof.
  intros Hh. unfold loadSimple.
  apply total_bind; [apply total_get|]. intros g. cbv zeta.
  apply total_bind.
  { destruct (_ <=? _); [|apply total_put].
    apply total_bind; [apply total_check|]. intros e. apply total_put. }
  intros _. apply total_bind.
  { apply total_for_loop. intros i s. unfold readEnd.
    repeat (apply total_bind; [|intros ?]);
      auto using total_get, total_check, total_put, total_ret. }
  intros offset1. apply total_bind; [apply total_check|]. intros instrLen.
  apply total_bind; [apply total_check|]. intros program.
  apply total_bind; [apply total_get|]. intros g1.
  apply total_bind; [apply total_check|]. intros np.
  apply total_bind.
  { destruct (_ <=? _); [|apply total_put].
    apply total_bind; [apply total_check|]. intros e. apply total_put. }
  intros _. apply total_bind; [apply total_decodeFlags|]. intros offset2.
  apply total_bind; [apply total_decodeCoords|]. intros _.
  apply total_bind.
  { destruct h as [hh|]; [|apply total_ret].
    apply total_bind; [apply total_get|]. intros g2.
    apply total_bind; [apply total_check|]. intros s.
    apply total_bind; [apply total_put|]. intros _.
    apply total_for_loop. intros i []. unfold shiftInFontUnits.
    repeat (apply total_bind; [|intros ?]);
      auto using total_get, total_check, total_put. }
  intros _. apply total_bind; [apply total_scalePoints|]. intros _.
  destruct h as [hh|]; [|apply total_ret].
  apply total_bind; [apply total_get|]. intros g2.
  apply total_bind; [apply total_check|]. intros s.
  apply total_bind; [apply total_put|]. intros _.
  intros w. apply (Hh hh eq_refl).
Qed.

(** With the fuel that the recursion cap asks for, [load] does not run out. *)
Lemma total_load (fuel : nat) f scale i h dx dy r recursion :
  hinter_total h -> (0 < fuel)%nat -> 4 - recursion < Z.of_nat fuel ->
  total (load fuel f scale i h dx dy r recursion).
Proof.
  intros Hh. revert i dx dy r recursion.
  induction fuel as [|fuel IH]; intros i dx dy r recursion Hpos Hf w; [lia|].
  - rewrite load_eq. destruct (Z.geb_spec recursion 4); [discriminate|].
    destruct (glyphRange f i) as [[g0 g1]|]; [|discriminate].
    destruct (g0 =? g1); [discriminate|].
    destruct (subslice (glyf f) g0 g1) as [gl|]; [|discriminate].
    destruct (readHeader (elems gl)) as [[ne b]|]; [|discriminate].
    cbv zeta. destruct (ne =? -1).
    + apply loadCompound_no_timeout. intros i' dx' dy' r' w'. apply IH; lia.
    + destruct (ne <? 0); [discriminate|]. apply total_loadSimple, Hh.
Qed.

Lemma total_Load f scale i h : hinter_total h -> total (Load f scale i h).
Proof.
  intros Hh w. rewrite Load_eq.
  assert (Hi : initHinter h f scale (resetWorld w) <> Timeout).
  { destruct h as [hh|]; [apply (Hh hh eq_refl)|discriminate]. }
  destruct (initHinter h f scale (resetWorld w)) as [[e|] w1| |];
    try discriminate; [|congruence].
  pose proof (total_load load_fuel f scale i h 0 0 false 0 Hh) as Hl.
  specialize (Hl ltac:(unfold load_fuel; lia) ltac:(unfold load_fuel; lia) w1).
  destruct (load load_fuel f scale i h 0 0 false 0 w1) as [[e|] w2| |];
    try discriminate. congruence.
Qed.

End LoadFacts.

(** C9. A glyph whose [loca] entry has zero length ([g0 == g1]) is not an
    error and contributes nothing: the recursive [load] returns nil and
    leaves the buffer as it was, and a top-level [Load] of such a glyph
    returns nil with [Point] and [End] empty (when a hinter is given, its
    initialisation having returned nil and left them empty). *)
Theorem Load_zero_length_glyph {H} (f : Font) (scale i : Z)
    (h : option (Hinter H)) (w w1 : World H) (g0 : Z) :
  glyphRange f i = Some (g0, g0) ->
  initHinter h f scale (resetWorld w) = Ret None w1 ->
  pts w1 = [] -> elems (End (buf w1)) = [] ->
  (forall (fuel : nat) dx dy roundDxDy recursion (w0 : World H), recursion < 4 ->
     load (S fuel) f scale i h dx dy roundDxDy recursion w0 = Ret None w0)
  /\ exists w', Load f scale i h w = Ret None w' /\
       pts w' = [] /\ elems (End (buf w')) = [].
Proof.
  intros Hr Hinit Hp He. split.
  - intros fuel dx dy roundDxDy recursion w0 Hrec. rewrite load_eq.
    destruct (Z.geb_spec recursion 4); [lia|]. rewrite Hr, Z.eqb_refl. reflexivity.
  - rewrite Load_eq, Hinit. unfold load_fuel. rewrite load_eq.
    cbn [Z.geb Z.compare]. rewrite Hr, Z.eqb_refl.
    eexists. split; [reflexivity|]. split; assumption.
Qed.

(** ** The fuel of [load] *)

Section Fuel.
Context {H : Type}.
Implicit Types (w : World H) (h : option (Hinter H)).

Lemma loadCompound_loop_ext (ld1 ld2 : loader H) (n : nat) f scale h glyf offset
    dx dy recursion w :
  (forall i dx dy r w,
     ld1 f scale i h dx dy r (recursion + 1) w =
     ld2 f scale i h dx dy r (recursion + 1) w) ->
  loadCompound_loop ld1 n f scale h glyf offset dx dy recursion w =
  loadCompound_loop ld2 n f scale h glyf offset dx dy recursion w.
Proof.
  intros Hld. revert offset w. induction n as [|n IH]; intros offset w; [reflexivity|].
  rewrite !loadCompound_loop_eq.
  destruct (readComponent glyf offset dx dy) as [[[[[fl c] dx1] dy1] off']|];
    [|reflexivity].
  destruct (negb (has fl flagArgsAreXYValues)); [reflexivity|].
  destruct (has fl transformBits); [reflexivity|].
  rewrite Hld.
  destruct (ld2 f scale c h dx1 dy1 _ _ w) as [r w1| |]; try reflexivity.
  cbv zeta. destruct (has fl flagMoreComponents); [|reflexivity]. apply IH.
Qed.

(** Any fuel that covers the calls left before the recursion cap gives
    the same result: [load_fuel] is enough for [Load]. *)
Lemma load_fuel_irrelevant (fuel1 fuel2 : nat) f scale i h dx dy r recursion w :
  (0 < fuel1)%nat -> (0 < fuel2)%nat ->
  4 - recursion < Z.of_nat fuel1 -> 4 - recursion < Z.of_nat fuel2 ->
  load fuel1 f scale i h dx dy r recursion w =
  load fuel2 f scale i h dx dy r recursion w.
Proof.
  revert fuel2 i dx dy r recursion w.
  induction fuel1 as [|fuel1 IH]; intros fuel2 i dx dy r recursion w Hp1 Hp2 H1 H2;
    [lia|].
  destruct fuel2 as [|fuel2]; [lia|]. rewrite !load_eq.
  destruct (Z.geb_spec recursion 4); [reflexivity|].
  destruct (glyphRange f i) as [[g0 g1]|]; [|reflexivity].
  destruct (g0 =? g1); [reflexivity|].
  destruct (subslice (glyf f) g0 g1) as [gl|]; [|reflexivity].
  destruct (readHeader (elems gl)) as [[ne b]|]; [|reflexivity].
  cbv zeta. destruct (ne =? -1); [|reflexivity].
  unfold loadCompound. apply loadCompound_loop_ext.
  intros i' dx' dy' r' w'. apply IH; lia.
Qed.

End Fuel.

(** ** What a load leaves in [End] and [Point] *)

Section Keeps.
Context {H : Type}.
Implicit Types (w : World H) (h : option (Hinter H)).

Lemma bind_Ret {A C} (m : M H A) (k : A -> M H C) w c w' :
  bind m k w = Ret c w' -> exists a w1, m w = Ret a w1 /\ k a w1 = Ret c w'.
Proof.
  unfold bind. destruct (m w) as [a w1| |]; try discriminate. eauto.
Qed.

Lemma check_Ret {A} (o : option A) w a w' :
  check o w = Ret a w' -> o = Some a /\ w' = w.
Proof. destruct o; [intros [= <- <-]; auto | discriminate]. Qed.

Lemma keeps_ret {A} (a : A) : keeps (H:=H) (ret a).
Proof. intros w a' w' [= _ <-]. auto. Qed.

Lemma keeps_bind {A C} (m : M H A) (k : A -> M H C) :
  keeps m -> (forall a, keeps (k a)) -> keeps (bind m k).
Proof.
  intros Hm Hk w c w' Hr. apply bind_Ret in Hr as (a & w1 & H1 & H2).
  apply Hm in H1 as [E1 P1]. apply Hk in H2 as [E2 P2]. split; congruence.
Qed.

Lemma keeps_check {A} (o : option A) : keeps (H:=H) (check o).
Proof. intros w a w' Hr. apply check_Ret in Hr as [_ ->]. auto. Qed.

Lemma keeps_get : keeps (H:=H) get.
Proof. intros w a w' [= _ <-]. auto. Qed.

Lemma keeps_for_loop {S} (body : Z -> S -> M H S) (n : nat) i s :
  (forall i s, keeps (body i s)) -> keeps (for_loop n i s body).
Proof.
  intros Hb. revert i s. induction n as [|n IH]; intros i s.
  - apply keeps_ret.
  - cbn [for_loop]. apply keeps_bind; [apply Hb|]. intros s'. apply IH.
Qed.

Lemma keeps_updPoint i upd : keeps (H:=H) (updPoint i upd).
Proof.
  intros w a w'. rewrite updPoint_eq.
  destruct (index (pts w) i) as [p|]; [|discriminate]. intros [= _ <-].
  split; [reflexivity|]. rewrite plen_set_pts, length_insert. reflexivity.
Qed.

Lemma keeps_getPoint i : keeps (H:=H) (getPoint i).
Proof.
  intros w a w'. rewrite getPoint_eq.
  destruct (index (pts w) i); [|discriminate]. intros [= _ <-]. auto.
Qed.

Lemma keeps_decodeFlags d offset np0 : keeps (H:=H) (decodeFlags d offset np0).
Proof.
  intros w a w' Hr.
  rewrite (decodeFlags_eq d offset np0 w (Z.to_nat (plen w - np0))) in Hr by lia.
  apply decodeFlags_loop_frame in Hr as (l' & -> & Hlen & _).
  split; [reflexivity|]. rewrite plen_set_pts, plen_pts. congruence.
Qed.

Lemma keeps_decodeCoords_step sh po sa put d i s :
  keeps (H:=H) (decodeCoords_step sh po sa put d i s).
Proof.
  unfold decodeCoords_step. destruct s as [offset x].
  apply keeps_bind; [apply keeps_getPoint|]. intros p.
  apply keeps_bind.
  - destruct (has (Flags p) sh).
    + apply keeps_bind; [apply keeps_check|]. intros b.
      destruct (negb (has (Flags p) po)); apply keeps_ret.
    + destruct (negb (has (Flags p) sa)); [|apply keeps_ret].
      apply keeps_bind; [apply keeps_check|]. intros v. apply keeps_ret.
  - intros s'. apply keeps_bind; [apply keeps_updPoint|]. intros _. apply keeps_ret.
Qed.

Lemma keeps_decodeCoords d offset np0 : keeps (H:=H) (decodeCoords d offset np0).
Proof.
  unfold decodeCoords, lenPoint, for_range.
  apply keeps_bind; [apply keeps_bind; [apply keeps_get|intros; apply keeps_ret]|].
  intros n. apply keeps_bind.
  { apply keeps_for_loop. intros. apply keeps_decodeCoords_step. }
  intros sx.
  apply keeps_bind; [apply keeps_bind; [apply keeps_get|intros; apply keeps_ret]|].
  intros n'. apply keeps_bind.
  { apply keeps_for_loop. intros. apply keeps_decodeCoords_step. }
  intros sy. apply keeps_ret.
Qed.

Lemma keeps_scalePoints f scale dx dy r np0 np :
  keeps (H:=H) (scalePoints f scale dx dy r np0 np).
Proof.
  unfold scalePoints, for_range. destruct r; cbv zeta; apply keeps_for_loop;
    intros i []; unfold scaleRounded, scaleUnrounded;
    (apply keeps_bind; [apply keeps_getPoint|]; intros p;
     apply keeps_bind; [apply keeps_updPoint|]; intros _;
     apply keeps_bind; [apply keeps_getPoint|]; intros p2;
     apply keeps_updPoint).
Qed.

Lemma keeps_snapshot {A} (upd : GlyphBuf -> slice Point -> GlyphBuf)
    (rest : M H A) np0 np :
  (forall g s, End (upd g s) = End g /\ Points (upd g s) = Points g) ->
  keeps rest ->
  keeps (g <- get ;; s <- check (subslice (Points g) np0 np) ;;
         put (upd g s) ;;; rest).
Proof.
  intros Hupd Hrest w a w' Hr.
  apply bind_Ret in Hr as (g & w1 & [= <- <-] & Hr).
  apply bind_Ret in Hr as (s & w2 & Hc & Hr). apply check_Ret in Hc as [_ ->].
  apply bind_Ret in Hr as ([] & w3 & [= <-] & Hr).
  apply Hrest in Hr as [E P]. destruct (Hupd (buf w) s) as [E' P'].
  split; [rewrite E; exact E'|]. rewrite P. unfold plen. cbn [buf]. rewrite P'.
  reflexivity.
Qed.

Lemma keeps_shiftInFontUnits dx dy i u : keeps (H:=H) (shiftInFontUnits dx dy i u).
Proof.
  unfold shiftInFontUnits. intros w a w' Hr.
  apply bind_Ret in Hr as (g & w1 & [= <- <-] & Hr).
  apply bind_Ret in Hr as (p & w2 & Hc & Hr). apply check_Ret in Hc as [_ ->].
  apply bind_Ret in Hr as (l & w3 & Hc & Hr). apply check_Ret in Hc as [_ ->].
  injection Hr as _ <-. auto.
Qed.

(** The part of [loadSimple] that follows the resizing of [Point]. *)
Lemma keeps_loadSimple_tail f scale h (gl program : slice byte)
    (offset dx dy np0 np : Z) (roundDxDy : bool) :
  hinter_keeps h ->
  keeps (offset <- decodeFlags (elems gl) offset np0 ;;
         decodeCoords (elems gl) offset np0 ;;;
         (match h with
          | Some _ =>
              g <- get ;;
              s <- check (subslice (Points g) np0 np) ;;
              put (set_InFontUnits (InFontUnits g ++ elems s) g) ;;;
              for_range np0 np tt (shiftInFontUnits dx dy)
          | None => ret tt
          end) ;;;
         scalePoints f scale dx dy roundDxDy np0 np ;;;
         match h with
         | Some hh =>
             g <- get ;;
             s <- check (subslice (Points g) np0 np) ;;
             put (set_Unhinted (Unhinted g ++ elems s) g) ;;;
             h_run hh program
         | None => ret None
         end).
Proof.
  intros Hh.
  apply keeps_bind; [apply keeps_decodeFlags|]. intros offset2.
  apply keeps_bind; [apply keeps_decodeCoords|]. intros _.
  apply keeps_bind.
  { destruct h as [hh|]; [|apply keeps_ret].
    apply (keeps_snapshot (fun g s => set_InFontUnits (InFontUnits g ++ elems s) g));
      [intros; split; reflexivity|].
    apply keeps_for_loop. intros. apply keeps_shiftInFontUnits. }
  intros _. apply keeps_bind; [apply keeps_scalePoints|]. intros _.
  destruct h as [hh|]; [|apply keeps_ret].
  apply (keeps_snapshot (fun g s => set_Unhinted (Unhinted g ++ elems s) g));
    [intros; split; reflexivity|].
  apply (Hh hh eq_refl).
Qed.

End Keeps.

Section SimpleShape.
Context {H : Type}.
Implicit Types (w : World H) (h : option (Hinter H)).

Lemma set_ends_id w : set_ends (ends w) w = w.
Proof. destruct w as [[b p u f t [e s]] hs]. reflexivity. Qed.

Lemma readEnd_eq gl np0 i offset w :
  readEnd gl np0 i offset w =
  match u16 gl offset with
  | Some v =>
      match store (ends w) i (1 + np0 + v) with
      | Some l => Ret (offset + 2) (set_ends l w)
      | None => Panic
      end
  | None => Panic
  end.
Proof.
  unfold readEnd, bind. destruct (u16 gl offset) as [v|]; [|reflexivity].
  cbn [check ret get]. unfold ends.
  destruct (store (elems (End (buf w))) i (1 + np0 + v)); reflexivity.
Qed.

Lemma readEnd_loop gl np0 (n : nat) :
  forall i offset w, 0 <= i -> i + Z.of_nat n <= Z.of_nat (length (ends w)) ->
  for_loop n i offset (readEnd gl np0) w =
  match readU16s gl offset n with
  | Some vs =>
      Ret (offset + 2 * Z.of_nat n)
          (set_ends (take (Z.to_nat i) (ends w) ++
                     ((fun v => 1 + np0 + v) <$> vs) ++
                     drop (Z.to_nat i + n) (ends w)) w)
  | None => Panic
  end.
Proof.
  induction n as [|n IH]; intros i offset w Hi Hn.
  - cbn [for_loop readU16s ret fmap list_fmap app].
    rewrite Nat.add_0_r, take_drop, set_ends_id. f_equal. lia.
  - rewrite for_loop_S, readEnd_eq. cbn [readU16s].
    destruct (u16 gl offset) as [v|]; [|reflexivity].
    cbn [mbind option_bind].
    rewrite store_Some by lia.
    rewrite IH; [|lia|]; cycle 1.
    { unfold ends, set_ends. cbn. rewrite length_insert. fold (ends w). lia. }
    destruct (readU16s gl (offset + 2) n) as [vs|]; [|reflexivity].
    cbn [mbind option_bind fmap list_fmap].
    f_equal; [lia|].
    change (ends (set_ends ?l _)) with l.
    change (set_ends ?l (set_ends _ ?w0)) with (set_ends l w0).
    f_equal.
    replace (Z.to_nat (i + 1)) with (S (Z.to_nat i)) by lia.
    rewrite drop_insert_lt by lia.
    rewrite take_insert_lt by lia.
    destruct (lookup_lt_is_Some_2 (ends w) (Z.to_nat i)) as [x Hx]; [lia|].
    rewrite (take_S_r _ _ _ Hx).
    assert (Hlt : length (take (Z.to_nat i) (ends w)) = Z.to_nat i)
      by (apply length_take_le; lia).
    rewrite <- Hlt at 1. rewrite <- (Nat.add_0_r (length _)).
    rewrite insert_app_r. cbn [insert list_insert]. rewrite <- app_assoc.
    cbn [app].
    replace (S (Z.to_nat i) + n)%nat with (Z.to_nat i + S n)%nat by lia.
    reflexivity.
Qed.

Lemma resizeEnd_length (e : slice Z) (ne : Z) :
  0 <= ne -> length (elems (resizeEnd e ne)) = Z.to_nat ne.
Proof.
  intros Hne. unfold resizeEnd. destruct (Z.leb_spec ne (cap e)) as [Hle|Hgt]; cbn.
  - apply length_take_le. unfold cap in Hle. lia.
  - apply length_replicate.
Qed.

Lemma resizeEnd_cap (e : slice Z) (ne : Z) :
  0 <= ne -> cap e <= cap (resizeEnd e ne).
Proof.
  intros Hne. unfold resizeEnd. destruct (Z.leb_spec ne (cap e)) as [Hle|Hgt].
  - unfold cap at 2, backing at 1. cbn [elems spare]. rewrite take_drop.
    unfold cap. lia.
  - unfold cap at 2, backing, make. cbn [elems spare].
    rewrite length_app, !length_replicate. lia.
Qed.

Lemma copy_length {A} (dst src : list A) :
  (length src <= length dst)%nat -> length (copy dst src) = length dst.
Proof.
  intros Hle. unfold copy. rewrite length_app, length_take, length_drop. lia.
Qed.

(** What [loadSimple] leaves: the resized [End] with the glyph's contour
    ends, each moved by [1 + np0], after the entries it kept; and as many
    points as the last contour end says. *)
Lemma loadSimple_shape f scale h gl ne offset dx dy roundDxDy w r w' :
  hinter_keeps h -> 0 <= ne ->
  loadSimple f scale h gl ne offset dx dy roundDxDy w = Ret r w' ->
  exists vs,
    readU16s (elems gl) offset (Z.to_nat ne) = Some vs /\
    let e1 := resizeEnd (End (buf w)) (ne + len (End (buf w))) in
    End (buf w') =
      Slice (take (length (ends w)) (elems e1) ++ ((fun v => 1 + plen w + v) <$> vs))
            (spare e1) /\
    index (ends w') (ne + len (End (buf w)) - 1) = Some (plen w').
Proof.
  intros Hh Hne Hr. unfold loadSimple in Hr.
  apply bind_Ret in Hr as (g & w0 & [= <- <-] & Hr). cbv zeta in Hr.
  set (ne' := ne + len (End (buf w))) in *.
  assert (Hne' : 0 <= ne') by (unfold ne', len; lia).
  apply bind_Ret in Hr as ([] & w1 & Hresize & Hr).
  assert (Hw1 : w1 = mkWorld (set_End (resizeEnd (End (buf w)) ne') (buf w)) (hstate w)).
  { unfold resizeEnd. destruct (Z.leb_spec ne' (cap (End (buf w)))) as [Hle|Hgt].
    - apply bind_Ret in Hresize as (e & w0 & Hc & Hp).
      apply check_Ret in Hc as [Hs ->]. injection Hp as <-.
      unfold subslice in Hs.
      destruct (Z.leb_spec 0 ne'); [|lia].
      destruct (Z.leb_spec ne' (cap (End (buf w)))); [|lia].
      cbn in Hs. injection Hs as <-.
      rewrite Z.sub_0_r. reflexivity.
    - injection Hresize as <-. reflexivity. }
  clear Hresize. subst w1.
  set (e1 := resizeEnd (End (buf w)) ne') in *.
  pose proof (resizeEnd_length (End (buf w)) ne' Hne') as Hl1. fold e1 in Hl1.
  apply bind_Ret in Hr as (offset1 & w2 & Hloop & Hr).
  unfold for_range in Hloop.
  replace (Z.to_nat (ne' - len (End (buf w)))) with (Z.to_nat ne) in Hloop
    by (unfold ne'; lia).
  rewrite readEnd_loop in Hloop; cycle 1.
  { unfold len. lia. }
  { unfold ends. cbn [buf set_End End]. rewrite Hl1. unfold ne', len. lia. }
  destruct (readU16s (elems gl) offset (Z.to_nat ne)) as [vs|]; [|discriminate].
  injection Hloop as <- <-. exists vs. split; [reflexivity|].
  change (ends (mkWorld (set_End e1 (buf w)) (hstate w))) with (elems e1) in Hr.
  rewrite (drop_ge (elems e1)) in Hr by (unfold len in *; lia).
  rewrite app_nil_r in Hr.
  replace (Z.to_nat (len (End (buf w)))) with (length (ends w)) in Hr
    by (unfold len, ends; lia).
  set (en := take (length (ends w)) (elems e1) ++
             ((fun v => 1 + len (Points (buf w)) + v) <$> vs)) in *.
  apply bind_Ret in Hr as (instrLen & w3 & Hc & Hr). apply check_Ret in Hc as [_ ->].
  apply bind_Ret in Hr as (program & w3 & Hc & Hr). apply check_Ret in Hc as [_ ->].
  apply bind_Ret in Hr as (g2 & w3 & [= <- <-] & Hr).
  apply bind_Ret in Hr as (np & w3 & Hc & Hr). apply check_Ret in Hc as [Hnp ->].
  apply bind_Ret in Hr as ([] & w4 & Hpts & Hr).
  assert (Hw4 : End (buf w4) = Slice en (spare e1) /\ plen w4 = np).
  { cbn [buf set_ends set_End Points End] in Hpts.
    destruct (Z.leb_spec np (cap (Points (buf w)))) as [Hle|Hgt].
    - apply bind_Ret in Hpts as (p & w0 & Hc & Hp).
      apply check_Ret in Hc as [Hs ->]. injection Hp as <-.
      split; [reflexivity|]. unfold subslice in Hs.
      destruct (Z.leb_spec 0 np); [|discriminate].
      destruct (Z.leb_spec np (cap (Points (buf w)))); [|lia].
      cbn in Hs. injection Hs as <-. unfold plen, len. cbn [buf Points set_Points elems].
      change (Z.to_nat 0) with 0%nat. rewrite drop_0, Z.sub_0_r.
      rewrite length_take_le; [lia|]. unfold cap in Hle. lia.
    - injection Hpts as <-. split; [reflexivity|].
      unfold plen, len. cbn. rewrite copy_length.
      + rewrite length_replicate. unfold cap in Hgt. lia.
      + rewrite length_replicate. unfold cap, backing in Hgt.
        rewrite length_app in Hgt. lia. }
  destruct Hw4 as [He4 Hp4].
  apply (keeps_loadSimple_tail f scale h gl program _ dx dy _ np roundDxDy Hh) in Hr
    as [He Hp].
  cbv zeta. split; [rewrite He, He4; reflexivity|].
  unfold ends. rewrite He, He4, Hp, Hp4. exact Hnp.
Qed.

End SimpleShape.

(** ** Contours after a load *)

Lemma increasing_weaken a b l : a <= b -> increasing b l -> increasing a l.
Proof. destruct l as [|x l]; [auto|]. intros Hab [Hx Hl]. split; [lia|exact Hl]. Qed.

Lemma increasing_app a l1 l2 :
  increasing a l1 -> increasing (default a (last l1)) l2 -> increasing a (l1 ++ l2).
Proof.
  revert a. induction l1 as [|x l1 IH]; intros a H1 H2; [exact H2|].
  destruct H1 as [Hx H1]. split; [exact Hx|]. apply IH; [exact H1|].
  rewrite last_cons in H2. destruct (last l1); exact H2.
Qed.

Lemma increasing_last a l : increasing a l -> a <= default a (last l).
Proof.
  revert a. induction l as [|x l IH]; intros a; [simpl; lia|].
  intros [Hx Hl]. specialize (IH x Hl). rewrite last_cons.
  destruct (last l); simpl in *; lia.
Qed.

Lemma increasing_shift (k a : Z) (vs : list Z) :
  increasing a vs -> increasing (k + a) ((fun v => k + v) <$> vs).
Proof.
  revert a. induction vs as [|v vs IH]; intros a; [auto|].
  intros [Hv Hvs]. split; [lia|]. apply IH, Hvs.
Qed.

Lemma strictly_increasing_shift (np0 : Z) (vs : list Z) :
  strictly_increasing vs -> (forall v, head vs = Some v -> 0 <= v) ->
  increasing np0 ((fun v => 1 + np0 + v) <$> vs).
Proof.
  destruct vs as [|v vs]; [auto|]. intros Hinc Hhd.
  specialize (Hhd v eq_refl). split; [lia|].
  apply (increasing_shift (1 + np0) v vs Hinc).
Qed.

Lemma increasing_strictly a l : increasing a l -> strictly_increasing l.
Proof. destruct l as [|x l]; [auto|]. intros [_ Hl]. exact Hl. Qed.

Lemma readU16s_length gl offset n vs :
  readU16s gl offset n = Some vs -> length vs = n.
Proof.
  revert offset vs. induction n as [|n IH]; intros offset vs; cbn [readU16s].
  - intros [= <-]. reflexivity.
  - destruct (u16 gl offset) as [v|]; [|discriminate]. cbn [mbind option_bind].
    destruct (readU16s gl (offset + 2) n) as [vs'|] eqn:E; [|discriminate].
    cbn. intros [= <-]. cbn. f_equal. eapply IH, E.
Qed.

Lemma readU16s_head gl offset n vs v :
  readU16s gl offset n = Some vs -> head vs = Some v -> 0 <= v.
Proof.
  destruct n as [|n]; cbn [readU16s].
  - intros [= <-]. discriminate.
  - destruct (u16 gl offset) as [v0|] eqn:E0; [|discriminate]. cbn [mbind option_bind].
    destruct (readU16s gl (offset + 2) n) as [vs'|]; [|discriminate].
    cbn. intros [= <-] [= <-]. apply u16_range in E0. lia.
Qed.

(** Contours that increase up to the number of points partition the
    points. *)
Lemma contours_partition (prev : Z) (es : list Z) (l : list Point) :
  0 <= prev -> increasing prev es ->
  default prev (last es) = Z.of_nat (length l) ->
  concat (contours prev es l) = drop (Z.to_nat prev) l.
Proof.
  revert prev. induction es as [|e es IH]; intros prev H0 Hinc Hlast.
  - cbn in *. symmetry. apply drop_ge. lia.
  - destruct Hinc as [He Hes]. cbn [contours concat].
    rewrite IH; [|lia|exact Hes|]; cycle 1.
    { rewrite last_cons in Hlast. destruct (last es); exact Hlast. }
    replace (Z.to_nat e) with (Z.to_nat prev + Z.to_nat (e - prev))%nat by lia.
    rewrite <- drop_drop. apply take_drop.
Qed.

Section Contours.
Context {H : Type}.
Implicit Types (w : World H) (h : option (Hinter H)).

Lemma loadSimple_contours f scale h gl ne offset dx dy roundDxDy w r w' :
  hinter_keeps h -> 0 <= ne ->
  loadSimple f scale h gl ne offset dx dy roundDxDy w = Ret r w' ->
  cap (End (buf w)) <= cap (End (buf w')) /\
  exists vs, readU16s (elems gl) offset (Z.to_nat ne) = Some vs /\
    (strictly_increasing vs -> contours_ok w ->
     cap (End (buf w')) = cap (End (buf w)) \/ ends w = [] ->
     contours_ok w').
Proof.
  intros Hh Hne Hr.
  destruct (loadSimple_shape _ _ _ _ _ _ _ _ _ _ _ _ Hh Hne Hr) as (vs & Hvs & Hsh).
  cbv zeta in Hsh. destruct Hsh as [HE Hlast].
  set (ne' := ne + len (End (buf w))) in *.
  assert (Hne' : 0 <= ne') by (unfold ne', len; lia).
  pose proof (resizeEnd_length (End (buf w)) ne' Hne') as Hl1.
  pose proof (resizeEnd_cap (End (buf w)) ne' Hne') as Hc1.
  pose proof (readU16s_length _ _ _ _ Hvs) as Hlv.
  set (e1 := resizeEnd (End (buf w)) ne') in *.
  assert (Hlen0 : (length (ends w) <= length (elems e1))%nat).
  { rewrite Hl1. unfold ne', len, ends. lia. }
  assert (Hlen : length (ends w') = length (elems e1)).
  { unfold ends. rewrite HE. cbn [elems].
    rewrite length_app, length_take_le, length_fmap by exact Hlen0.
    rewrite Hl1, Hlv. unfold ne', len, ends. lia. }
  assert (Hcap : cap (End (buf w')) = cap e1).
  { unfold cap, backing. fold (ends w'). rewrite !length_app, Hlen, HE. reflexivity. }
  split; [lia|]. exists vs. split; [exact Hvs|].
  intros Hinc [Hok1 Hok2] Hsame.
  assert (Hkeep : take (length (ends w)) (elems e1) = ends w).
  { subst e1. unfold resizeEnd in *.
    destruct (Z.leb_spec ne' (cap (End (buf w)))) as [Hle|Hgt].
    - cbn [elems]. rewrite take_take.
      replace (length (ends w) `min` Z.to_nat ne')%nat with (length (ends w))
        by (unfold ne', len, ends; lia).
      unfold backing. fold (ends w). apply take_app_length.
    - destruct Hsame as [Hsame| ->]; [|reflexivity].
      rewrite Hcap in Hsame. unfold cap at 1, backing, make in Hsame.
      cbn [elems spare] in Hsame. rewrite length_app, !length_replicate in Hsame.
      lia. }
  split.
  - unfold ends at 1. rewrite HE. cbn [elems]. rewrite Hkeep.
    apply increasing_app; [exact Hok1|]. rewrite Hok2.
    apply strictly_increasing_shift; [exact Hinc|].
    intros v. eapply readU16s_head, Hvs.
  - rewrite last_lookup, Hlen, Hl1.
    apply index_Some in Hlast as [Hpos Hl].
    replace (Init.Nat.pred (Z.to_nat ne')) with (Z.to_nat (ne' - 1)) by lia.
    rewrite Hl. reflexivity.
Qed.

Lemma loadCompound_loop_cap (ld : loader H) (n : nat) f scale h glyf offset dx dy
    recursion w r w' :
  (forall i dx dy rd w r w',
     ld f scale i h dx dy rd (recursion + 1) w = Ret r w' ->
     cap (End (buf w)) <= cap (End (buf w'))) ->
  loadCompound_loop ld n f scale h glyf offset dx dy recursion w = Ret r w' ->
  cap (End (buf w)) <= cap (End (buf w')).
Proof.
  intros Hld. revert offset w. induction n as [|n IH]; intros offset w; [discriminate|].
  rewrite loadCompound_loop_eq.
  destruct (readComponent glyf offset dx dy) as [[[[[fl c] dx1] dy1] off']|];
    [|discriminate].
  destruct (negb (has fl flagArgsAreXYValues)); [intros [= _ <-]; lia|].
  destruct (has fl transformBits); [intros [= _ <-]; lia|].
  destruct (ld f scale c h dx1 dy1 _ _ w) as [r1 w1| |] eqn:E1; try discriminate.
  apply Hld in E1. cbv zeta.
  assert (Hc2 : cap (End (buf (if has fl flagUseMyMetrics then w1
                               else setB (B (buf w)) w1))) = cap (End (buf w1))).
  { destruct (has fl flagUseMyMetrics); reflexivity. }
  destruct (has fl flagMoreComponents).
  - intros Hr. apply IH in Hr. lia.
  - intros [= _ <-]. lia.
Qed.

Lemma load_cap (fuel : nat) f scale i h dx dy roundDxDy recursion w r w' :
  hinter_keeps h ->
  load fuel f scale i h dx dy roundDxDy recursion w = Ret r w' ->
  cap (End (buf w)) <= cap (End (buf w')).
Proof.
  intros Hh. revert i dx dy roundDxDy recursion w r w'.
  induction fuel as [|fuel IH]; intros i dx dy roundDxDy recursion w r w';
    [discriminate|].
  rewrite load_eq. destruct (recursion >=? 4); [intros [= _ <-]; lia|].
  destruct (glyphRange f i) as [[g0 g1]|]; [|discriminate].
  destruct (g0 =? g1); [intros [= _ <-]; lia|].
  destruct (subslice (glyf f) g0 g1) as [gl|]; [|discriminate].
  destruct (readHeader (elems gl)) as [[ne b]|]; [|discriminate].
  cbv zeta. destruct (ne =? -1).
  - intros Hr. apply loadCompound_loop_cap in Hr; [exact Hr|].
    intros i' dx' dy' rd w0 r0 w0'. apply IH.
  - destruct (Z.ltb_spec ne 0); [intros [= _ <-]; reflexivity|].
    intros Hr. apply (loadSimple_contours _ _ _ _ _ _ _ _ _ _ _ _ Hh) in Hr as [Hc _];
      [exact Hc|lia].
Qed.

Lemma loadCompound_loop_contours (ld : loader H) (n : nat) f scale h glyf offset dx dy
    recursion w r w' :
  (forall i dx dy rd w r w',
     ld f scale i h dx dy rd (recursion + 1) w = Ret r w' ->
     cap (End (buf w)) <= cap (End (buf w')) /\
     (contours_ok w -> cap (End (buf w')) = cap (End (buf w)) -> contours_ok w')) ->
  loadCompound_loop ld n f scale h glyf offset dx dy recursion w = Ret r w' ->
  contours_ok w -> cap (End (buf w')) = cap (End (buf w)) -> contours_ok w'.
Proof.
  intros Hld. revert offset w. induction n as [|n IH]; intros offset w; [discriminate|].
  rewrite loadCompound_loop_eq.
  destruct (readComponent glyf offset dx dy) as [[[[[fl c] dx1] dy1] off']|];
    [|discriminate].
  destruct (negb (has fl flagArgsAreXYValues)); [intros [= _ <-]; auto|].
  destruct (has fl transformBits); [intros [= _ <-]; auto|].
  destruct (ld f scale c h dx1 dy1 _ _ w) as [r1 w1| |] eqn:E1; try discriminate.
  apply Hld in E1 as [Hc1 Hok1]. cbv zeta.
  set (w2 := if has fl flagUseMyMetrics then w1 else setB (B (buf w)) w1).
  assert (Hc2 : cap (End (buf w2)) = cap (End (buf w1)))
    by (unfold w2; destruct (has fl flagUseMyMetrics); reflexivity).
  assert (Hok2 : contours_ok w1 -> contours_ok w2)
    by (unfold w2; destruct (has fl flagUseMyMetrics); auto).
  destruct (has fl flagMoreComponents).
  - intros Hr Hok Hcap.
    assert (Hc3 : cap (End (buf w2)) <= cap (End (buf w'))).
    { eapply loadCompound_loop_cap; [|exact Hr].
      intros i' dx' dy' rd w0 r0 w0' Hl. apply Hld in Hl as [Hl _]. exact Hl. }
    apply (IH _ _ Hr); [apply Hok2, Hok1; [exact Hok|lia]|lia].
  - intros [= _ <-] Hok Hcap. apply Hok2, Hok1; [exact Hok|lia].
Qed.

Lemma glyphData_eq f i g0 g1 gl :
  glyphRange f i = Some (g0, g1) -> (g0 =? g1) = false ->
  subslice (glyf f) g0 g1 = Some gl -> glyphData f i = Some gl.
Proof.
  intros Hr Hne Hs. unfold glyphData. rewrite Hr. cbn. rewrite Hne. exact Hs.
Qed.

Lemma contourEnds_eq gl ne b :
  readHeader gl = Some (ne, b) ->
  contourEnds gl = if 0 <=? ne then readU16s gl 10 (Z.to_nat ne) else None.
Proof.
  unfold readHeader, contourEnds.
  destruct (u16 gl 0) as [n0|]; [|discriminate]. cbn [mbind option_bind].
  destruct (u16 gl 2); [|discriminate]. destruct (u16 gl 4); [|discriminate].
  destruct (u16 gl 6); [|discriminate]. destruct (u16 gl 8); [|discriminate].
  cbn. intros [= <- _]. reflexivity.
Qed.

Lemma load_contours (fuel : nat) f scale i h dx dy roundDxDy recursion w r w' :
  hinter_keeps h -> ends_increasing f ->
  load fuel f scale i h dx dy roundDxDy recursion w = Ret r w' ->
  contours_ok w ->
  cap (End (buf w')) = cap (End (buf w)) \/ (ends w = [] /\ isSimple f i) ->
  contours_ok w'.
Proof.
  intros Hh Hf. revert i dx dy roundDxDy recursion w r w'.
  induction fuel as [|fuel IH]; intros i dx dy roundDxDy recursion w r w';
    [discriminate|].
  rewrite load_eq. destruct (recursion >=? 4); [intros [= _ <-]; auto|].
  destruct (glyphRange f i) as [[g0 g1]|] eqn:Er; [|discriminate].
  destruct (g0 =? g1) eqn:Eg; [intros [= _ <-]; auto|].
  destruct (subslice (glyf f) g0 g1) as [gl|] eqn:Es; [|discriminate].
  pose proof (glyphData_eq f i g0 g1 gl Er Eg Es) as Hgd.
  destruct (readHeader (elems gl)) as [[ne b]|] eqn:Eh; [|discriminate].
  pose proof (contourEnds_eq _ _ _ Eh) as Hce.
  cbv zeta. destruct (Z.eqb_spec ne (-1)) as [->|Hnc].
  - intros Hr Hok Hcap.
    apply (loadCompound_loop_contours _ _ _ _ _ _ _ _ _ _ _ _ _
             ltac:(intros i' dx' dy' rd w0 r0 w0' Hl; split;
                   [eapply load_cap; eauto | intros; eapply IH; eauto]) Hr).
    + exact Hok.
    + destruct Hcap as [Hcap|[_ (gl' & vs & Hgl' & Hvs)]]; [exact Hcap|].
      rewrite Hgd in Hgl'. injection Hgl' as <-. rewrite Hce in Hvs. discriminate.
  - destruct (Z.ltb_spec ne 0); [intros [= _ <-]; auto|].
    intros Hr Hok Hcap.
    apply (loadSimple_contours _ _ _ _ _ _ _ _ _ _ _ _ Hh) in Hr
      as [_ (vs & Hvs & Hgo)]; [|lia].
    apply Hgo.
    + apply (Hf i gl vs Hgd). rewrite Hce.
      destruct (Z.leb_spec 0 ne); [exact Hvs|lia].
    + exact Hok.
    + destruct Hcap as [Hcap|[Hnil _]]; [left; exact Hcap|right; exact Hnil].
Qed.

End Contours.

(** C5 (amended). After a successful [Load] of a glyph of a font whose
    simple glyphs all list strictly increasing contour end indices, with no
    hinter or one that leaves [End] and the number of points as they are,
    and when [End] was not re-allocated by the call (its capacity is the same
    before and after) or the glyph is a simple glyph: [End] is strictly
    increasing; its last element, when there is one, is [len(Point)], and
    [Point] is empty when [End] is; and the contour slices
    [Point[End[i-1]:End[i]]] put one after the other are exactly [Point]. *)
Theorem Load_contours_partition {H} (f : Font) (scale i : Z)
    (h : option (Hinter H)) (w w' : World H) :
  ends_increasing f -> hinter_keeps h ->
  Load f scale i h w = Ret None w' ->
  cap (End (buf w')) = cap (End (buf w)) \/ isSimple f i ->
  strictly_increasing (ends w') /\
  (ends w' <> [] -> last (ends w') = Some (plen w')) /\
  (ends w' = [] -> pts w' = []) /\
  concat (contours 0 (ends w') (pts w')) = pts w'.
Proof.
  intros Hf Hh. rewrite Load_eq.
  destruct (initHinter h f scale (resetWorld w)) as [[e|] w1| |] eqn:Ei;
    try discriminate.
  assert (Hk : End (buf w1) = End (buf (resetWorld w)) /\ plen w1 = plen (resetWorld w)).
  { destruct h as [hh|]; [apply (Hh hh eq_refl) in Ei; exact Ei|].
    injection Ei as <-. auto. }
  destruct Hk as [HE1 Hp1].
  assert (Hok1 : contours_ok w1).
  { unfold contours_ok, ends. rewrite HE1, Hp1. split; [exact I|reflexivity]. }
  destruct (load load_fuel f scale i h 0 0 false 0 w1) as [[e|] w2| |] eqn:El;
    try discriminate.
  intros [= <-] Hcap.
  assert (Hok : contours_ok w2).
  { eapply load_contours; eauto.
    destruct Hcap as [Hcap|Hs].
    - left. cbn [setB buf set_B End] in Hcap. rewrite Hcap, HE1.
      unfold cap, backing. cbn. reflexivity.
    - right. split; [|exact Hs]. unfold ends. rewrite HE1. reflexivity. }
  destruct Hok as [Hinc Hlast].
  change (ends (setB _ w2)) with (ends w2). change (pts (setB _ w2)) with (pts w2).
  change (plen (setB _ w2)) with (plen w2).
  split; [eapply increasing_strictly, Hinc|]. split; [|split].
  - intros Hne. destruct (last (ends w2)) as [x|] eqn:E.
    + cbn in Hlast. congruence.
    + apply last_None in E. contradiction.
  - intros Hnil. rewrite Hnil in Hlast. cbn in Hlast.
    rewrite plen_pts in Hlast. destruct (pts w2); [reflexivity|discriminate].
  - rewrite contours_partition; [reflexivity|lia|exact Hinc|].
    rewrite Hlast. apply plen_pts.
Qed.

(** ** The recursion cap *)

Section RecursionCap.
Context {H : Type}.
Implicit Types (w : World H).

Lemma loadSimple_no_hinter f scale gl ne offset dx dy roundDxDy w r w' :
  loadSimple f scale None gl ne offset dx dy roundDxDy w = Ret r w' -> r = None.
Proof.
  unfold loadSimple. intros Hr.
  repeat (apply bind_Ret in Hr as (? & ? & _ & Hr); cbv zeta in Hr).
  injection Hr as <- _. reflexivity.
Qed.

(** Without a hinter, the errors of [Load] are those of the glyph it was
    asked for: never the recursion cap, which only a component can reach. *)
Lemma Load_errors f scale i w e w' :
  Load f scale i None w = Ret (Some e) w' ->
  e = UnsupportedError "compound glyph transform vector" \/
  e = UnsupportedError "compound glyph scale/transform" \/
  e = UnsupportedError "negative number of contours".
Proof.
  rewrite Load_eq. cbn [initHinter ret]. unfold load_fuel. rewrite load_eq.
  cbn [Z.geb Z.compare].
  destruct (glyphRange f i) as [[g0 g1]|]; [|discriminate].
  destruct (g0 =? g1); [discriminate|].
  destruct (subslice (glyf f) g0 g1) as [gl|]; [|discriminate].
  destruct (readHeader (elems gl)) as [[ne b]|]; [|discriminate].
  cbv zeta. destruct (ne =? -1).
  - destruct (loadCompound _ _ _ _ _ _ _ _ _ _) as [[e0|] w2| |] eqn:E;
      try discriminate.
    intros [= <- _]. apply loadCompound_loop_own_errors in E. tauto.
  - destruct (ne <? 0); [intros [= <- _]; tauto|].
    destruct (loadSimple _ _ _ _ _ _ _ _ _ _) as [[e0|] w2| |] eqn:E;
      try discriminate.
    apply loadSimple_no_hinter in E. discriminate.
Qed.

End RecursionCap.

(** C1. The recursive [load] rejects a call whose recursion counter has
    reached 4, and a chain of nesting depth 4 loads its point; but a chain
    of depth 5 does not make [Load] fail: [loadCompound] drops the error and
    [Load] returns nil with no point.  No [Load] without a hinter returns
    the recursion error. *)
Theorem Load_depth_five_returns_nil :
  load 1 chainFont 64 4 noHinter 0 0 false 4 fresh =
    Ret (Some (UnsupportedError "excessive compound glyph recursion")) fresh
  /\ (exists w, Load chainFont 64 1 noHinter fresh = Ret None w /\
        pts w = [mkPoint 192 192 49] /\ ends w = [1])
  /\ (exists w, Load chainFont 64 0 noHinter fresh = Ret None w /\
        pts w = [] /\ ends w = [])
  /\ (forall f scale i (w : World unit) e w',
        Load f scale i None w = Ret (Some e) w' ->
        e <> UnsupportedError "excessive compound glyph recursion").
Proof.
  split; [vm_compute; reflexivity|]. split; [|split].
  - exists (world_of (Load chainFont 64 1 noHinter fresh)).
    split; [vm_compute; reflexivity|]. split; vm_compute; reflexivity.
  - exists (world_of (Load chainFont 64 0 noHinter fresh)).
    split; [vm_compute; reflexivity|]. split; vm_compute; reflexivity.
  - intros f scale i w e w' Hr. apply Load_errors in Hr as [->|[->| ->]]; discriminate.
Qed.

(** Components that fail in four ways -- recursion depth, an unsupported
    feature in a nested compound, a negative contour count, a hinting
    program -- and a [Load] that returns nil each time, with the point of
    the component that loaded. *)
Example Load_succeeds_over_failed_components :
  (exists w, Load selfFont 64 0 noHinter fresh = Ret None w /\ pts w = [])
  /\ load 4 nestedFont 64 1 noHinter 0 0 false 1 fresh =
       Ret (Some (UnsupportedError "compound glyph transform vector"))
           (setB (mkBounds 1 2 3 4) fresh)
  /\ (exists w, Load nestedFont 64 0 noHinter fresh = Ret None w /\
        pts w = [mkPoint 64 64 49])
  /\ load 4 negativeFont 64 1 noHinter 0 0 false 1 fresh =
       Ret (Some (UnsupportedError "negative number of contours"))
           (setB (mkBounds 1 2 3 4) fresh)
  /\ (exists w, Load negativeFont 64 0 noHinter fresh = Ret None w /\
        pts w = [mkPoint 64 64 49])
  /\ (exists w, Load nestedFont 64 2 (Some failingHinter) fresh =
                  Ret (Some (FormatError "hint")) w)
  /\ (exists w, Load nestedFont 64 0 (Some failingHinter) fresh = Ret None w /\
        pts w = [mkPoint 64 64 49]).
Proof.
  split.
  { exists (world_of (Load selfFont 64 0 noHinter fresh)).
    split; vm_compute; reflexivity. }
  split; [vm_compute; reflexivity|]. split.
  { exists (world_of (Load nestedFont 64 0 noHinter fresh)).
    split; vm_compute; reflexivity. }
  split; [vm_compute; reflexivity|]. split.
  { exists (world_of (Load negativeFont 64 0 noHinter fresh)).
    split; vm_compute; reflexivity. }
  split.
  { exists (world_of (Load nestedFont 64 2 (Some failingHinter) fresh)).
    vm_compute; reflexivity. }
  exists (world_of (Load nestedFont 64 0 (Some failingHinter) fresh)).
  split; vm_compute; reflexivity.
Qed.

(** ** decodeFlags stays within its range *)

(** A repeat count of 5 for two points: the call panics. *)
Lemma decodeFlags_overrun_panics : decodeFlags overrunFlags 0 0 twoPoints = Panic.
Proof. vm_compute. reflexivity. Qed.

(** ** Contours of accepted input *)

(** [Load] accepts a glyph whose contour ends are 5 and 3. *)
Lemma Load_accepts_decreasing_ends :
  exists w', Load badEndsFont 64 0 noHinter fresh = Ret None w' /\
    ends w' = [6; 4] /\ plen w' = 4 /\ ~ strictly_increasing (ends w').
Proof.
  exists (world_of (Load badEndsFont 64 0 noHinter fresh)).
  split; [vm_compute; reflexivity|]. split; [vm_compute; reflexivity|].
  split; [vm_compute; reflexivity|].
  intros Hs. vm_compute in Hs. destruct Hs as [Hlt _]. discriminate Hlt.
Qed.

(** When the contours of a component do not fit the capacity of [End],
    [load] replaces [End] by a fresh array and does not copy the entries of
    the components before it: two contours, then three, into an [End] of
    capacity 4. *)
Example End_reallocation_drops_entries :
  (exists w', Load fiveContoursFont 64 0 noHinter zeroValue = Ret None w' /\
     ends w' = [0; 0; 3; 4; 5] /\ plen w' = 5)
  /\ (exists w', Load fiveContoursFont 64 0 noHinter fresh = Ret None w' /\
        ends w' = [1; 2; 3; 4; 5] /\ plen w' = 5).
Proof.
  split.
  - exists (world_of (Load fiveContoursFont 64 0 noHinter zeroValue)).
    split; [vm_compute; reflexivity|]. split; vm_compute; reflexivity.
  - exists (world_of (Load fiveContoursFont 64 0 noHinter fresh)).
    split; [vm_compute; reflexivity|]. split; vm_compute; reflexivity.
Qed.

(** ** The properties at concrete inputs *)

(** [u32] outside the slice. *)
Lemma u32_out_of_range (b : list byte) (i : Z) :
  i < 0 \/ Z.of_nat (length b) < i + 4 -> u32 b i = None.
Proof.
  intros Hi. unfold u32.
  destruct (index b i) as [b0|] eqn:E0; [|reflexivity].
  destruct (index b (i + 1)) as [b1|]; [|reflexivity].
  destruct (index b (i + 2)) as [b2|]; [|reflexivity].
  destruct (index b (i + 3)) as [b3|] eqn:E3; [|reflexivity].
  apply index_lt in E0, E3. lia.
Qed.

(** The triangle font has one glyph, with one contour end. *)
Lemma triangleFont_ends_increasing : ends_increasing triangleFont.
Proof.
  intros i gl vs Hg Hc. unfold glyphData in Hg.
  destruct (Z.eq_dec i 0) as [->|Hi].
  - vm_compute in Hg. injection Hg as <-. vm_compute in Hc. injection Hc as <-.
    exact I.
  - assert (Hr : glyphRange triangleFont i = None).
    { unfold glyphRange. cbn [locaOffsetFormat triangleFont].
      assert (Hlen : length (loca triangleFont) = 8%nat) by reflexivity.
      destruct (Z_lt_ge_dec i 0).
      - rewrite (u32_out_of_range _ (4 * i)) by lia. reflexivity.
      - rewrite (u32_out_of_range _ (4 * i + 4)) by (rewrite Hlen; lia).
        destruct (u32 (loca triangleFont) (4 * i)); reflexivity. }
    rewrite Hr in Hg. discriminate.
Qed.

(** No hinter changes nothing. *)
Lemma no_hinter_keeps {H} : hinter_keeps (H:=H) None.
Proof. intros hh [=]. Qed.


(** The triangle: X stream 10, -1, -1 in four bytes, then Y stream 0, 1795,
    same in three bytes; the stale coordinates are overwritten. *)
Lemma decodeCoords_two_passes_witness :
  decodeCoords triangleStream 0 0 threeFlagged =
  Ret 7 (set_pts [mkPoint 10 0 55; mkPoint 9 1795 1; mkPoint 8 1795 35] threeFlagged).
Proof.
  rewrite (decodeCoords_two_passes triangleStream 0 0 threeFlagged) by lia.
  vm_compute. reflexivity.
Defined.


(** Grid-rounded scaling of the second point by 64 with offset (1, 1): the
    offset 64 rounds to 64, the raw 7 scales to 448; the first point is
    left alone. *)
Lemma scalePoints_policy_witness :
  exists w', scalePoints triangleFont 64 1 1 true 1 2 afterEarlier = Ret tt w' /\
    index (pts w') 0 = Some (mkPoint 100 200 1) /\
    index (pts w') 1 = Some (mkPoint 512 512 49).
Proof.
  destruct (scalePoints_policy triangleFont 64 1 1 true 1 2 afterEarlier
              ltac:(lia) ltac:(vm_compute; discriminate))
    as (w' & Hr & _ & _ & Hp).
  exists w'. split; [exact Hr|]. split.
  - exact (Hp 0 (mkPoint 100 200 1) eq_refl).
  - exact (Hp 1 (mkPoint 7 7 49) eq_refl).
Defined.

(** The compound glyph made of the dot, "use my metrics" unset: the bounds
    are those from before the component. *)
Lemma loadCompound_component_bounds_witness :
  exists w2, B (buf w2) = B (buf fresh) /\
    loadCompound (load 2) chainFont 64 noHinter (bytes (compoundGlyph 4)) 10 0 0 0 fresh
    = Ret None w2.
Proof.
  destruct (loadCompound_component_bounds (load 2) chainFont 64 noHinter
              (bytes (compoundGlyph 4)) 10 0 0 0 fresh 2 4 1 1 16 None
              (world_of (load 2 chainFont 64 4 noHinter 1 1 false 1 fresh))
              ltac:(vm_compute; reflexivity) eq_refl eq_refl
              ltac:(vm_compute; reflexivity))
    as (w2 & HB & _ & Hl).
  exists w2. split; [exact HB|exact Hl].
Defined.

(** The font whose glyph 0 has zero length. *)
Lemma Load_zero_length_glyph_witness :
  exists w', Load emptyFont 64 0 noHinter fresh = Ret None w' /\
    pts w' = [] /\ elems (End (buf w')) = [].
Proof.
  exact (proj2 (Load_zero_length_glyph emptyFont 64 0 noHinter fresh
                  (resetWorld fresh) 0
                  ltac:(vm_compute; reflexivity) eq_refl eq_refl eq_refl)).
Defined.

(** The triangle, loaded into a new buffer: its one contour is the three
    points. *)
Lemma Load_contours_partition_witness :
  concat (contours 0 (ends (world_of (Load triangleFont 64 0 noHinter fresh)))
            (pts (world_of (Load triangleFont 64 0 noHinter fresh)))) =
  pts (world_of (Load triangleFont 64 0 noHinter fresh)).
Proof.
  apply (Load_contours_partition triangleFont 64 0 noHinter fresh
           (world_of (Load triangleFont 64 0 noHinter fresh))
           triangleFont_ends_increasing no_hinter_keeps).
  - vm_compute. reflexivity.
  - right. eexists. eexists. split; vm_compute; reflexivity.
Defined.

(** * Further properties *)

(** ** decodeFlags against the format *)

Lemma mapRange_all {A} (f : A -> A) (lo hi : Z) (l : list A) :
  lo <= 0 -> Z.of_nat (length l) <= hi -> mapRange f lo hi l = f <$> l.
Proof.
  intros Hlo Hhi. apply list_eq. intros j.
  rewrite mapRange_lookup, list_lookup_fmap.
  destruct (l !! j) eqn:E; [simpl|reflexivity]. apply lookup_lt_Some in E.
  destruct (Z.leb_spec lo (Z.of_nat j)); [|lia].
  destruct (Z.ltb_spec (Z.of_nat j) hi); [reflexivity|lia].
Qed.

Lemma mapRange_app {A} (f : A -> A) (lo hi : Z) (l1 l2 : list A) :
  mapRange f lo hi (l1 ++ l2) =
  mapRange f lo hi l1 ++
  mapRange f (lo - Z.of_nat (length l1)) (hi - Z.of_nat (length l1)) l2.
Proof.
  apply list_eq. intros j.
  rewrite mapRange_lookup, !lookup_app, !mapRange_lookup, mapRange_length.
  destruct (l1 !! j) eqn:E1; [reflexivity|]. simpl.
  apply lookup_ge_None in E1.
  destruct (l2 !! (j - length l1)%nat); [simpl|reflexivity]. f_equal.
  replace (Z.of_nat (j - length l1)) with (Z.of_nat j - Z.of_nat (length l1)) by lia.
  destruct (Z.leb_spec lo (Z.of_nat j)),
    (Z.leb_spec (lo - Z.of_nat (length l1)) (Z.of_nat j - Z.of_nat (length l1)));
    try lia; simpl; [|reflexivity].
  destruct (Z.ltb_spec (Z.of_nat j) hi),
    (Z.ltb_spec (Z.of_nat j - Z.of_nat (length l1)) (hi - Z.of_nat (length l1)));
    try lia; reflexivity.
Qed.

Lemma mapRange_outside {A} (f : A -> A) (lo hi : Z) (l : list A) :
  Z.of_nat (length l) <= lo \/ hi <= 0 -> mapRange f lo hi l = l.
Proof.
  intros Hout. apply list_eq. intros j. rewrite mapRange_lookup.
  destruct (l !! j) eqn:E; [simpl|reflexivity]. apply lookup_lt_Some in E.
  destruct (Z.leb_spec lo (Z.of_nat j)); simpl; [|reflexivity].
  destruct (Z.ltb_spec (Z.of_nat j) hi); [lia|reflexivity].
Qed.

(** A range of a list, rewritten: the part before, the part in the range
    under [f], the part after. *)
Lemma mapRange_split {A} (f : A -> A) (lo hi : nat) (l : list A) :
  (lo <= hi <= length l)%nat ->
  mapRange f (Z.of_nat lo) (Z.of_nat hi) l =
  take lo l ++ (f <$> take (hi - lo) (drop lo l)) ++ drop hi l.
Proof.
  intros Hle.
  rewrite <- (take_drop lo l) at 1. rewrite mapRange_app.
  rewrite (mapRange_outside f _ _ (take lo l)) by (left; rewrite length_take; lia).
  f_equal. rewrite length_take_le by lia.
  rewrite <- (take_drop (hi - lo) (drop lo l)) at 1. rewrite mapRange_app.
  rewrite mapRange_all by (rewrite ?length_take, ?length_drop; lia).
  f_equal. rewrite mapRange_outside by (right; rewrite length_take, length_drop; lia).
  rewrite drop_drop. f_equal. lia.
Qed.

Lemma zip_with_replicate_l {A C} (g : Z -> A -> C) (n : nat) (c : Z) (l : list A) :
  length l = n -> zip_with g (replicate n c) l = g c <$> l.
Proof.
  revert l. induction n as [|n IH]; intros [|x l] Hl; try discriminate; [reflexivity|].
  simpl. f_equal. apply IH. simpl in Hl. lia.
Qed.

Section FlagStream.
Context {H : Type}.
Implicit Types (w : World H) (l : list Point).

Lemma withFlags_nil i l : (length l <= Z.to_nat i)%nat -> withFlags i [] l = l.
Proof.
  intros Hle. unfold withFlags. rewrite take_ge by lia. cbn. apply app_nil_r.
Qed.

Lemma withFlags_cons i c fl l p :
  0 <= i -> l !! Z.to_nat i = Some p ->
  withFlags (i + 1) fl (<[Z.to_nat i := with_Flags c p]> l) = withFlags i (c :: fl) l.
Proof.
  intros Hi Hl. pose proof (lookup_lt_Some _ _ _ Hl) as Hlt. unfold withFlags.
  replace (Z.to_nat (i + 1)) with (S (Z.to_nat i)) by lia.
  rewrite drop_insert_lt, take_insert_lt by lia.
  rewrite (take_S_r _ _ _ Hl), (drop_S _ _ _ Hl). cbn [zip_with].
  assert (Hlt' : length (take (Z.to_nat i) l) = Z.to_nat i)
    by (apply length_take_le; lia).
  rewrite <- Hlt' at 1. rewrite <- (Nat.add_0_r (length _)).
  rewrite insert_app_r. cbn [insert list_insert].
  rewrite <- app_assoc. reflexivity.
Qed.

Lemma withFlags_run (i run : nat) c fl l :
  (i + run <= length l)%nat ->
  withFlags (Z.of_nat (i + run)) fl
    (mapRange (with_Flags c) (Z.of_nat i) (Z.of_nat (i + run)) l) =
  withFlags (Z.of_nat i) (replicate run c ++ fl) l.
Proof.
  intros Hfit. rewrite mapRange_split by lia. unfold withFlags.
  rewrite !Nat2Z.id. replace (i + run - i)%nat with run by lia.
  set (pre := take i l). set (mid := take run (drop i l)).
  set (post := drop (i + run) l).
  assert (Hpre : length pre = i) by (apply length_take_le; lia).
  assert (Hmid : length mid = run)
    by (unfold mid; rewrite length_take, length_drop; lia).
  assert (Hdrop : drop i l = mid ++ post).
  { unfold mid, post. rewrite <- drop_drop. symmetry. apply take_drop. }
  rewrite Hdrop, app_assoc.
  rewrite take_app_length' by (rewrite length_app, length_fmap; lia).
  rewrite drop_app_length' by (rewrite length_app, length_fmap; lia).
  rewrite zip_with_app by (rewrite length_replicate; lia).
  rewrite zip_with_replicate_l by exact Hmid.
  rewrite <- !app_assoc. reflexivity.
Qed.

Lemma withFlags_run_Z (i : Z) (run : nat) c fl l :
  0 <= i -> (Z.to_nat i + run <= length l)%nat ->
  withFlags (i + Z.of_nat run) fl
    (mapRange (with_Flags c) i (i + Z.of_nat run) l) =
  withFlags i (replicate run c ++ fl) l.
Proof.
  intros Hi Hfit. rewrite <- (Z2Nat.id i Hi). rewrite <- Nat2Z.inj_add.
  apply withFlags_run. exact Hfit.
Qed.

(** [decodeFlags_loop] decodes the flag stream for the points left. *)
Lemma decodeFlags_loop_stream (fuel : nat) d :
  forall offset i w (n : nat),
  0 <= i -> i + Z.of_nat n = plen w -> (n <= fuel)%nat ->
  decodeFlags_loop fuel d offset i w =
  match expandFlags fuel d offset n with
  | Some (fl, off) => Ret off (set_pts (withFlags i fl (pts w)) w)
  | None => Panic
  end.
Proof.
  induction fuel as [|fuel IH]; intros offset i w n Hi Hn Hf.
  - assert (n = 0%nat) as -> by lia. rewrite decodeFlags_loop_eq.
    destruct (Z.ltb_spec i (plen w)); [lia|]. cbn [expandFlags].
    rewrite withFlags_nil by (rewrite plen_pts in Hn; lia).
    rewrite set_pts_id. reflexivity.
  - rewrite decodeFlags_loop_eq. destruct n as [|n].
    + destruct (Z.ltb_spec i (plen w)); [lia|]. cbn [expandFlags].
      rewrite withFlags_nil by (rewrite plen_pts in Hn; lia).
      rewrite set_pts_id. reflexivity.
    + destruct (Z.ltb_spec i (plen w)); [|lia]. cbn [expandFlags].
      destruct (index d offset) as [b|]; [|reflexivity]. cbn [mbind option_bind].
      destruct (index_is_Some (pts w) i) as [p Hp]; [rewrite <- plen_pts; lia|].
      rewrite Hp. cbv zeta.
      pose proof Hp as Hp'. apply index_Some in Hp' as [_ Hl].
      pose proof (lookup_lt_Some _ _ _ Hl) as Hlt.
      destruct (has (byte_val b) flagRepeat).
      * destruct (index d (offset + 1)) as [k|]; [|reflexivity].
        cbn [mbind option_bind]. pose proof (byte_val_range k) as Hk.
        unfold bind. rewrite decodeFlags_repeat_eq.
        rewrite plen_set_pts, length_insert, <- plen_pts, pts_set_pts.
        set (kn := Z.to_nat (byte_val k)).
        replace (offset + 1 + 1) with (offset + 2) by lia.
        destruct (decide (kn = 0%nat)) as [Hz|Hnz].
        -- rewrite decide_True by lia.
           rewrite (IH _ _ _ (S n - S kn)%nat); [|lia| |lia]; cycle 1.
           { rewrite plen_set_pts, length_insert, <- plen_pts. lia. }
           destruct (expandFlags fuel d (offset + 2) (S n - S kn))
             as [[fl off]|]; [|reflexivity].
           cbn [mbind option_bind fst snd]. rewrite pts_set_pts, set_pts_twice.
           rewrite withFlags_cons by assumption. rewrite Hz. reflexivity.
        -- destruct (decide (S kn <= S n)%nat) as [Hfit|Hover].
           ++ rewrite decide_True by lia.
              rewrite mapRange_cons by exact Hp.
              replace (Z.max (i + 1 + Z.of_nat kn) (i + 1))
                with (i + Z.of_nat (S kn)) by lia.
              replace (i + 1 + Z.of_nat kn) with (i + Z.of_nat (S kn)) by lia.
              rewrite (IH _ _ _ (S n - S kn)%nat); [|lia| |lia]; cycle 1.
              { rewrite plen_set_pts, mapRange_length. rewrite plen_pts in Hn. lia. }
              destruct (expandFlags fuel d (offset + 2) (S n - S kn))
                as [[fl off]|]; [|reflexivity].
              cbn [mbind option_bind fst snd]. rewrite pts_set_pts, set_pts_twice.
              rewrite withFlags_run_Z by (rewrite ?plen_pts in Hn; lia).
              reflexivity.
           ++ rewrite decide_False by lia. reflexivity.
      * rewrite (IH _ _ _ n); [|lia| |lia]; cycle 1.
        { rewrite plen_set_pts, length_insert, <- plen_pts. lia. }
        replace (S n - 1)%nat with n by lia.
        destruct (expandFlags fuel d (offset + 1) n) as [[fl off]|]; [|reflexivity].
        cbn [mbind option_bind fst snd]. rewrite pts_set_pts, set_pts_twice.
        rewrite withFlags_cons by assumption. reflexivity.
Qed.

Lemma decodeFlags_stream d offset np0 w :
  0 <= np0 ->
  decodeFlags d offset np0 w =
  match flagStream d offset (Z.to_nat (plen w - np0)) with
  | Some (fl, off) => Ret off (set_pts (withFlags np0 fl (pts w)) w)
  | None => Panic
  end.
Proof.
  intros Hnp0. unfold decodeFlags, flagStream, bind. rewrite lenPoint_eq.
  destruct (Z_le_gt_dec np0 (plen w)) as [Hle|Hgt].
  - apply decodeFlags_loop_stream; lia.
  - replace (Z.to_nat (plen w - np0)) with 0%nat by lia.
    rewrite decodeFlags_loop_eq. destruct (Z.ltb_spec np0 (plen w)); [lia|].
    cbn [expandFlags]. rewrite withFlags_nil by (rewrite plen_pts in Hgt; lia).
    rewrite set_pts_id. reflexivity.
Qed.

End FlagStream.

Lemma expandFlags_length (fuel : nat) d :
  forall offset (n : nat) fl off,
  expandFlags fuel d offset n = Some (fl, off) -> length fl = n /\ offset <= off.
Proof.
  induction fuel as [|fuel IH]; intros offset n fl off; destruct n as [|n];
    cbn [expandFlags]; try discriminate; try (intros [= <- <-]; split; [reflexivity|lia]).
  destruct (index d offset) as [b|]; [|discriminate]. cbn [mbind option_bind].
  destruct (has (byte_val b) flagRepeat).
  - destruct (index d (offset + 1)) as [k|]; [|discriminate]. cbn [mbind option_bind].
    destruct (decide _) as [Hfit|]; [|discriminate].
    destruct (expandFlags fuel d (offset + 2) _) as [[fl' off']|] eqn:E; [|discriminate].
    cbn [mbind option_bind fst snd]. intros [= <- <-]. apply IH in E as [El Eo].
    cbn [length]. rewrite length_app, length_replicate, El. split; lia.
  - destruct (expandFlags fuel d (offset + 1) _) as [[fl' off']|] eqn:E; [|discriminate].
    cbn. intros [= <- <-]. apply IH in E as [El Eo]. cbn. split; lia.
Qed.

(** ** The bytes that coordinates take *)

Lemma axisDelta_bytes sh po sa d offset acc f :
  0 <= offset ->
  match axisDelta sh po sa d offset acc f with
  | Some (off', _) =>
      off' = offset + axisBytes sh sa f /\
      (axisBytes sh sa f = 0 \/ off' <= Z.of_nat (length d))
  | None => Z.of_nat (length d) < offset + axisBytes sh sa f
  end.
Proof.
  intros H0. unfold axisDelta, axisBytes. destruct (has f sh).
  - destruct (index d offset) as [b|] eqn:E; cbn.
    + apply index_lt in E. split; [reflexivity|right; lia].
    + apply index_None in E. lia.
  - destruct (has f sa); [cbn; split; [lia|left; reflexivity]|].
    destruct (index d offset) as [b0|] eqn:E0; cbn.
    + destruct (index d (offset + 1)) as [b1|] eqn:E1; cbn.
      * apply index_lt in E1. split; [reflexivity|right; lia].
      * apply index_None in E1. lia.
    + apply index_None in E0. lia.
Qed.

Lemma axisBytes_nonneg sh sa f : 0 <= axisBytes sh sa f.
Proof. unfold axisBytes. destruct (has f sh), (has f sa); lia. Qed.

Lemma sumZ_nonneg (g : Z -> Z) (l : list Z) :
  (forall x, 0 <= g x) -> 0 <= sumZ (g <$> l).
Proof.
  intros Hg. induction l as [|x l IH]; cbn; [lia|]. specialize (Hg x).
  unfold sumZ in IH. lia.
Qed.

(** A coordinate stream takes the bytes its flags say, and decoding fails
    exactly when they are not all there. *)
Lemma decodeAxis_bytes sh po sa d :
  forall flags offset acc,
  0 <= offset <= Z.of_nat (length d) ->
  match decodeAxis sh po sa d offset acc flags with
  | Some (cs, off') =>
      off' = offset + sumZ (axisBytes sh sa <$> flags) /\
      off' <= Z.of_nat (length d)
  | None => Z.of_nat (length d) < offset + sumZ (axisBytes sh sa <$> flags)
  end.
Proof.
  induction flags as [|f flags IH]; intros offset acc Hoff.
  - cbn. lia.
  - cbn [decodeAxis fmap list_fmap sumZ foldr].
    pose proof (axisDelta_bytes sh po sa d offset acc f ltac:(lia)) as Hd.
    pose proof (sumZ_nonneg (axisBytes sh sa) flags (axisBytes_nonneg sh sa)) as Hs.
    pose proof (axisBytes_nonneg sh sa f) as Hf.
    unfold sumZ in *.
    destruct (axisDelta sh po sa d offset acc f) as [[o1 a1]|]; cbn [mbind option_bind];
      [|lia].
    destruct Hd as [-> Hd]. cbn [fst snd].
    assert (Ho1 : 0 <= offset + axisBytes sh sa f <= Z.of_nat (length d)) by lia.
    specialize (IH (offset + axisBytes sh sa f) a1 Ho1).
    destruct (decodeAxis sh po sa d (offset + axisBytes sh sa f) a1 flags)
      as [[cs o2]|]; cbn; lia.
Qed.

Lemma decodeAxis_range sh po sa d :
  forall flags offset acc cs off',
  -32768 <= acc < 32768 ->
  decodeAxis sh po sa d offset acc flags = Some (cs, off') ->
  Forall (fun c => -32768 <= c < 32768) cs.
Proof.
  induction flags as [|f flags IH]; intros offset acc cs off' Hacc; cbn [decodeAxis].
  - intros [= <- <-]. constructor.
  - destruct (axisDelta sh po sa d offset acc f) as [[o1 a1]|] eqn:Ed; [|discriminate].
    cbn [mbind option_bind fst snd].
    destruct (decodeAxis sh po sa d o1 a1 flags) as [[cs' o2]|] eqn:E; [|discriminate].
    cbn. intros [= <- <-].
    pose proof (axisDelta_range _ _ _ _ _ _ _ _ _ Hacc Ed) as Ha.
    constructor; [exact Ha|]. eapply IH; eauto.
Qed.

(** ** decodeFlags over the whole stream *)

Lemma expandFlags_fuel (fuel1 : nat) d :
  forall (fuel2 : nat) offset (n : nat), (n <= fuel1)%nat -> (n <= fuel2)%nat ->
  expandFlags fuel1 d offset n = expandFlags fuel2 d offset n.
Proof.
  induction fuel1 as [|fuel1 IH]; intros fuel2 offset n H1 H2.
  - assert (n = 0%nat) as -> by lia. destruct fuel2; reflexivity.
  - destruct n as [|n]; [destruct fuel2; reflexivity|].
    destruct fuel2 as [|fuel2]; [lia|]. cbn [expandFlags].
    destruct (index d offset) as [b|]; [|reflexivity]. cbn [mbind option_bind].
    destruct (has (byte_val b) flagRepeat).
    + destruct (index d (offset + 1)) as [k|]; [|reflexivity].
      cbn [mbind option_bind].
      destruct (decide _) as [Hfit|]; [|reflexivity].
      rewrite (IH fuel2) by lia. reflexivity.
    + rewrite (IH fuel2) by lia. reflexivity.
Qed.

(** The flags of [m] points, then those of the [r] points after them. *)
Lemma expandFlags_app (fuel : nat) d :
  forall (m : nat) offset fl off, (m <= fuel)%nat ->
  expandFlags fuel d offset m = Some (fl, off) ->
  forall (r fuel2 : nat), (m + r <= fuel2)%nat ->
  expandFlags fuel2 d offset (m + r) =
  rest ← flagStream d off r; Some (fl ++ rest.1, rest.2).
Proof.
  induction fuel as [|fuel IH]; intros m offset fl off Hm He r fuel2 Hf.
  - assert (m = 0%nat) as -> by lia. cbn [expandFlags] in He.
    injection He as <- <-. cbn [Nat.add app]. unfold flagStream.
    rewrite (expandFlags_fuel fuel2 d r offset r) by lia.
    destruct (expandFlags r d offset r) as [[fl' off']|]; reflexivity.
  - destruct m as [|m].
    + cbn [expandFlags] in He. injection He as <- <-. cbn [Nat.add app].
      unfold flagStream. rewrite (expandFlags_fuel fuel2 d r offset r) by lia.
      destruct (expandFlags r d offset r) as [[fl' off']|]; reflexivity.
    + destruct fuel2 as [|fuel2]; [lia|]. cbn [expandFlags Nat.add] in *.
      destruct (index d offset) as [b|]; [|discriminate]. cbn [mbind option_bind] in *.
      destruct (has (byte_val b) flagRepeat).
      * destruct (index d (offset + 1)) as [k|]; [|discriminate].
        cbn [mbind option_bind] in *.
        destruct (decide (S (Z.to_nat (byte_val k)) <= S m)%nat) as [Hfit|];
          [|discriminate].
        rewrite decide_True by lia.
        destruct (expandFlags fuel d (offset + 2) (S m - S (Z.to_nat (byte_val k))))
          as [[fl' off']|] eqn:E; [|discriminate].
        cbn [mbind option_bind fst snd] in He. injection He as <- <-.
        replace (S (m + r) - S (Z.to_nat (byte_val k)))%nat
          with (S m - S (Z.to_nat (byte_val k)) + r)%nat by lia.
        assert (Hle : (S m - S (Z.to_nat (byte_val k)) <= fuel)%nat) by lia.
        rewrite (IH _ _ _ _ Hle E r fuel2) by lia.
        destruct (flagStream d off' r) as [[fl2 off2]|]; [|reflexivity].
        cbn [mbind option_bind fst snd]. rewrite app_assoc. reflexivity.
      * destruct (expandFlags fuel d (offset + 1) (S m - 1)) as [[fl' off']|] eqn:E;
          [|discriminate].
        cbn [mbind option_bind fst snd] in He. injection He as <- <-.
        replace (S (m + r) - 1)%nat with (S m - 1 + r)%nat by lia.
        assert (Hle : (S m - 1 <= fuel)%nat) by lia.
        rewrite (IH _ _ _ _ Hle E r fuel2) by lia.
        destruct (flagStream d off' r) as [[fl2 off2]|]; [|reflexivity].
        cbn [mbind option_bind fst snd]. reflexivity.
Qed.

Lemma flagStream_app d offset (m r : nat) fl off :
  flagStream d offset m = Some (fl, off) ->
  flagStream d offset (m + r) =
  rest ← flagStream d off r; Some (fl ++ rest.1, rest.2).
Proof.
  intros He. unfold flagStream at 1.
  apply (expandFlags_app m d m offset fl off); [lia|exact He|lia].
Qed.

(** A run at the head of the stream. *)
Lemma flagStream_run d off (r : nat) (b k : byte) :
  index d off = Some b -> has (byte_val b) flagRepeat = true ->
  index d (off + 1) = Some k ->
  flagStream d off (S r) =
  if decide (S (Z.to_nat (byte_val k)) <= S r)%nat then
    rest ← flagStream d (off + 2) (S r - S (Z.to_nat (byte_val k)));
    Some (replicate (S (Z.to_nat (byte_val k))) (byte_val b) ++ rest.1, rest.2)
  else None.
Proof.
  intros Hb Hrep Hk. unfold flagStream. cbn [expandFlags].
  rewrite Hb. cbn [mbind option_bind]. rewrite Hrep, Hk. cbn [mbind option_bind].
  destruct (decide _) as [Hfit|]; [|reflexivity].
  rewrite (expandFlags_fuel r d (S r - S (Z.to_nat (byte_val k)))) by lia.
  reflexivity.
Qed.

Section WholeStream.
Context {H : Type}.
Implicit Types (w : World H).

Lemma decodeFlags_negative d offset np0 w :
  np0 < 0 -> np0 < plen w -> decodeFlags d offset np0 w = Panic.
Proof.
  intros Hneg Hlt.
  rewrite (decodeFlags_eq d offset np0 w (S (Z.to_nat (plen w - np0)))) by lia.
  rewrite decodeFlags_loop_eq. destruct (Z.ltb_spec np0 (plen w)); [|lia].
  destruct (index d offset) as [b|]; [|reflexivity].
  assert (Hi : index (pts w) np0 = None) by (apply index_None; lia).
  rewrite Hi. reflexivity.
Qed.

(** A run that passes the last point, wherever the stream has it. *)
Lemma decodeFlags_overrun_later d offset np0 w (m : nat) fl off (b k : byte) :
  flagStream d offset m = Some (fl, off) ->
  index d off = Some b -> has (byte_val b) flagRepeat = true ->
  index d (off + 1) = Some k ->
  np0 + Z.of_nat m < plen w -> plen w < np0 + Z.of_nat m + 1 + byte_val k ->
  decodeFlags d offset np0 w = Panic.
Proof.
  intros Hm Hb Hrep Hk Hlt Hover.
  destruct (Z_lt_ge_dec np0 0) as [Hneg|Hnn]; [apply decodeFlags_negative; lia|].
  rewrite decodeFlags_stream by lia.
  set (n := Z.to_nat (plen w - np0)).
  assert (Hn : n = (m + S (n - m - 1))%nat) by lia. rewrite Hn.
  rewrite (flagStream_app _ _ _ _ _ _ Hm).
  rewrite (flagStream_run _ _ _ _ _ Hb Hrep Hk).
  pose proof (byte_val_range k) as Hkr.
  rewrite decide_False by lia. reflexivity.
Qed.

(** A run that fits is stored whole, wherever the stream has it. *)
Lemma decodeFlags_run_later d offset np0 w (m : nat) fl off (b k : byte) off' w' :
  flagStream d offset m = Some (fl, off) ->
  index d off = Some b -> has (byte_val b) flagRepeat = true ->
  index d (off + 1) = Some k ->
  np0 + Z.of_nat m < plen w ->
  decodeFlags d offset np0 w = Ret off' w' ->
  forall j, Z.of_nat m <= j <= Z.of_nat m + byte_val k ->
  exists p, index (pts w') (np0 + j) = Some p /\ Flags p = byte_val b.
Proof.
  intros Hm Hb Hrep Hk Hlt Hr j Hj.
  destruct (Z_lt_ge_dec np0 0) as [Hneg|Hnn];
    [rewrite decodeFlags_negative in Hr by lia; discriminate|].
  rewrite decodeFlags_stream in Hr by lia.
  set (n := Z.to_nat (plen w - np0)) in *.
  assert (Hn : n = (m + S (n - m - 1))%nat) by lia. rewrite Hn in Hr.
  rewrite (flagStream_app _ _ _ _ _ _ Hm) in Hr.
  rewrite (flagStream_run _ _ _ _ _ Hb Hrep Hk) in Hr.
  pose proof (byte_val_range k) as Hkr.
  set (run := S (Z.to_nat (byte_val k))) in *.
  destruct (decide (run <= S (n - m - 1))%nat) as [Hfit|]; [|discriminate].
  destruct (flagStream d (off + 2) (S (n - m - 1) - run)) as [[fl2 off2]|] eqn:E2;
    [|discriminate].
  cbn [mbind option_bind fst snd] in Hr. injection Hr as _ <-.
  rewrite pts_set_pts.
  apply expandFlags_length in Hm as [Hlm _].
  unfold flagStream in E2. apply expandFlags_length in E2 as [Hl2 _].
  set (whole := fl ++ replicate run (byte_val b) ++ fl2).
  assert (Hwhole : whole !! Z.to_nat j = Some (byte_val b)).
  { unfold whole. rewrite lookup_app_r by lia.
    rewrite lookup_app_l by (rewrite length_replicate; unfold run; lia).
    apply lookup_replicate_2. unfold run. lia. }
  assert (Hlp : (Z.to_nat np0 + Z.to_nat j < length (pts w))%nat).
  { pose proof (plen_pts w) as Hpl. unfold n, run in *. lia. }
  destruct (lookup_lt_is_Some_2 (pts w) _ Hlp) as [q Hq].
  exists (with_Flags (byte_val b) q). split; [|reflexivity].
  apply index_Some. split; [lia|].
  unfold withFlags. replace (Z.to_nat (np0 + j)) with (Z.to_nat np0 + Z.to_nat j)%nat
    by lia.
  rewrite lookup_app_r by (rewrite length_take; lia).
  rewrite length_take_le by lia.
  replace (Z.to_nat np0 + Z.to_nat j - Z.to_nat np0)%nat with (Z.to_nat j) by lia.
  apply lookup_zip_with_Some. exists (byte_val b), q.
  split; [reflexivity|]. split; [exact Hwhole|].
  rewrite lookup_drop. exact Hq.
Qed.

End WholeStream.

(** C2 (amended). For every flag stream and range, [decodeFlags] changes
    nothing but the [Flags] of points [np0 .. len(Point)): it adds or
    removes no point and leaves the other points, the coordinates and the
    spare capacity as they are; whether it returns, and the offset it
    returns, do not depend on what the points hold.  Over the whole stream
    it is the run-length decoding: it returns exactly when the bytes hold
    the flags of all the points to fill, and then every point has its flag
    and the offset is the one after them; in every other case, a missing
    byte or a run longer than the points left, it panics.  A repeat count
    that would run past the last point, at the first flag byte or at any
    later one that the decoding reaches, is stopped by the bounds check of
    the slice: the call panics, it returns no error value, and it does not
    return with the run cut short; a run that fits is stored whole.  The
    call always terminates. *)
Theorem decodeFlags_stays_in_range {H} (d : list byte) (offset np0 : Z)
    (w : World H) :
  decodeFlags d offset np0 w <> Timeout
  /\ (forall off w', decodeFlags d offset np0 w = Ret off w' -> flags_only np0 w w')
  /\ (forall w2 : World H, plen w2 = plen w ->
        outcome (decodeFlags d offset np0 w2) = outcome (decodeFlags d offset np0 w))
  /\ (forall b k : byte,
        index d offset = Some b -> has (byte_val b) flagRepeat = true ->
        index d (offset + 1) = Some k ->
        np0 < plen w -> plen w < np0 + 1 + byte_val k ->
        decodeFlags d offset np0 w = Panic)
  /\ (0 <= np0 ->
      decodeFlags d offset np0 w =
      match flagStream d offset (Z.to_nat (plen w - np0)) with
      | Some (fl, off) => Ret off (set_pts (withFlags np0 fl (pts w)) w)
      | None => Panic
      end)
  /\ (forall (m : nat) fl off (b k : byte),
        flagStream d offset m = Some (fl, off) ->
        index d off = Some b -> has (byte_val b) flagRepeat = true ->
        index d (off + 1) = Some k ->
        np0 + Z.of_nat m < plen w ->
        (plen w < np0 + Z.of_nat m + 1 + byte_val k ->
         decodeFlags d offset np0 w = Panic) /\
        (forall off' w', decodeFlags d offset np0 w = Ret off' w' ->
         forall j, Z.of_nat m <= j <= Z.of_nat m + byte_val k ->
         exists p, index (pts w') (np0 + j) = Some p /\ Flags p = byte_val b)).
Proof.
  split; [apply total_decodeFlags|]. split; [|split; [|split; [|split]]].
  - intros off w' Hr.
    rewrite (decodeFlags_eq d offset np0 w (Z.to_nat (plen w - np0))) in Hr by lia.
    eapply decodeFlags_loop_frame, Hr.
  - intros w2 Hl.
    rewrite (decodeFlags_eq d offset np0 w2 (Z.to_nat (plen w - np0))) by lia.
    rewrite (decodeFlags_eq d offset np0 w (Z.to_nat (plen w - np0))) by lia.
    apply decodeFlags_loop_blind, Hl.
  - intros b k. apply decodeFlags_overrun.
  - apply decodeFlags_stream.
  - intros m fl off b k Hm Hb Hrep Hk Hlt. split.
    + intros Hover. eapply decodeFlags_overrun_later; eauto.
    + intros off' w' Hr. eapply decodeFlags_run_later; eauto.
Qed.

(** The flag 1, then the flag 9 with a repeat count of 5, for two points:
    the run starts at the second point and passes it, and the call
    panics. *)
Lemma decodeFlags_stays_in_range_witness :
  decodeFlags (bytes [1; 9; 5]) 0 0 twoPoints = Panic.
Proof.
  apply (proj1 (proj2 (proj2 (proj2 (proj2 (proj2
           (decodeFlags_stays_in_range (bytes [1; 9; 5]) 0 0 twoPoints)))))
           1%nat [1] 1 (byte_of 9) (byte_of 5)
           ltac:(vm_compute; reflexivity) ltac:(vm_compute; reflexivity)
           ltac:(vm_compute; reflexivity) ltac:(vm_compute; reflexivity)
           ltac:(vm_compute; reflexivity))).
  vm_compute. reflexivity.
Defined.

(** ** A simple glyph, step by step *)

Lemma rawPoints_zip (xs ys fl : list Z) (l : list Point) :
  length xs = length l -> length ys = length l -> length fl = length l ->
  zip_with with_Y ys (zip_with with_X xs (zip_with with_Flags fl l)) =
  rawPoints xs ys fl.
Proof.
  revert ys fl l. induction xs as [|x xs IH]; intros [|y ys] [|c fl] [|p l] Hx Hy Hc;
    try discriminate; [reflexivity|].
  cbn in *. unfold rawPoints in *. cbn. f_equal. apply IH; lia.
Qed.

Lemma rawPoints_length (xs ys fl : list Z) :
  length xs = length fl -> length ys = length fl ->
  length (rawPoints xs ys fl) = length fl.
Proof.
  intros Hx Hy. unfold rawPoints. rewrite length_zip_with, length_zip_with. lia.
Qed.

Lemma Flags_rawPoints (xs ys fl : list Z) :
  length xs = length fl -> length ys = length fl ->
  Flags <$> rawPoints xs ys fl = fl.
Proof.
  revert ys fl. induction xs as [|x xs IH]; intros [|y ys] [|c fl] Hx Hy;
    try discriminate; [reflexivity|].
  cbn in *. unfold rawPoints in *. cbn. f_equal. apply IH; lia.
Qed.

Lemma Flags_withFlags (fl : list Z) (l : list Point) :
  length fl = length l -> Flags <$> zip_with with_Flags fl l = fl.
Proof.
  revert l. induction fl as [|c fl IH]; intros [|p l] Hl; try discriminate;
    [reflexivity|].
  cbn. f_equal. apply IH. cbn in Hl. lia.
Qed.

Lemma resizePoints_length (p : slice Point) (np : Z) :
  0 <= np -> length (elems (resizePoints p np)) = Z.to_nat np.
Proof.
  intros Hnp. unfold resizePoints. destruct (Z.leb_spec np (cap p)) as [Hle|Hgt]; cbn.
  - apply length_take_le. unfold cap in Hle. lia.
  - rewrite copy_length; rewrite length_replicate; [reflexivity|].
    unfold cap, backing in Hgt. rewrite length_app in Hgt. lia.
Qed.

Lemma resizePoints_prefix (p : slice Point) (np : Z) :
  len p <= np -> take (length (elems p)) (elems (resizePoints p np)) = elems p.
Proof.
  intros Hnp. unfold resizePoints, len in *.
  destruct (Z.leb_spec np (cap p)) as [Hle|Hgt]; cbn.
  - rewrite take_take. replace (length (elems p) `min` Z.to_nat np)%nat
      with (length (elems p)) by lia.
    unfold backing. apply take_app_length.
  - unfold copy. rewrite length_replicate.
    rewrite (take_ge (elems p)) by lia. apply take_app_length.
Qed.

Lemma resizePoints_cap (p : slice Point) (np : Z) :
  0 <= np -> cap p <= cap (resizePoints p np).
Proof.
  intros Hnp. unfold resizePoints. destruct (Z.leb_spec np (cap p)) as [Hle|Hgt].
  - unfold cap at 2, backing at 1. cbn [elems spare]. rewrite take_drop.
    unfold cap. lia.
  - unfold cap at 2, backing. cbn [elems spare].
    rewrite length_app, length_replicate, copy_length; rewrite length_replicate.
    + lia.
    + unfold cap, backing in Hgt. rewrite length_app in Hgt. lia.
Qed.

Section SimpleSteps.
Context {H : Type}.
Implicit Types (w : World H) (h : option (Hinter H)).

(** The resizing of [End]. *)
Lemma resizeEnd_step w (ne : Z) :
  0 <= ne ->
  (if ne <=? cap (End (buf w))
   then e <- check (subslice (End (buf w)) 0 ne) ;; put (set_End e (buf w))
   else put (set_End (make 0 ne (ne * 2)) (buf w))) w =
  Ret tt (mkWorld (set_End (resizeEnd (End (buf w)) ne) (buf w)) (hstate w)).
Proof.
  intros Hne. unfold resizeEnd.
  destruct (Z.leb_spec ne (cap (End (buf w)))) as [Hle|Hgt]; [|reflexivity].
  unfold bind, subslice.
  destruct (Z.leb_spec 0 ne); [|lia].
  destruct (Z.leb_spec ne (cap (End (buf w)))); [|lia].
  cbn. rewrite Z.sub_0_r. reflexivity.
Qed.

(** The resizing of [Point]. *)
Lemma resizePoints_step w (np : Z) :
  0 <= np ->
  (if np <=? cap (Points (buf w))
   then p <- check (subslice (Points (buf w)) 0 np) ;; put (set_Points p (buf w))
   else
     let p := Points (buf w) in
     let q := make zeroPoint np (np * 2) in
     put (set_Points (set_elems (copy (elems q) (elems p)) q) (buf w))) w =
  Ret tt (mkWorld (set_Points (resizePoints (Points (buf w)) np) (buf w)) (hstate w)).
Proof.
  intros Hnp. unfold resizePoints.
  destruct (Z.leb_spec np (cap (Points (buf w)))) as [Hle|Hgt]; [|reflexivity].
  unfold bind, subslice.
  destruct (Z.leb_spec 0 np); [|lia].
  destruct (Z.leb_spec np (cap (Points (buf w)))); [|lia].
  cbn. rewrite Z.sub_0_r. reflexivity.
Qed.

(** The loop over [InFontUnits]. *)
Lemma shiftInFontUnits_eq dx dy i u w :
  shiftInFontUnits dx dy i u w =
  match index (InFontUnits (buf w)) i with
  | Some p =>
      Ret tt (mkWorld (set_InFontUnits
                         (<[Z.to_nat i := shiftPoint dx dy p]> (InFontUnits (buf w)))
                         (buf w)) (hstate w))
  | None => Panic
  end.
Proof.
  unfold shiftInFontUnits, bind. cbn [get].
  destruct (index (InFontUnits (buf w)) i) as [p|] eqn:E; [|reflexivity].
  cbn [check ret]. rewrite store_Some by (eapply index_lt; eauto). reflexivity.
Qed.

Lemma shiftInFontUnits_loop dx dy (n : nat) :
  forall i w, 0 <= i -> i + Z.of_nat n <= Z.of_nat (length (InFontUnits (buf w))) ->
  for_loop n i tt (shiftInFontUnits dx dy) w =
  Ret tt (mkWorld (set_InFontUnits
                     (mapRange (shiftPoint dx dy) i (i + Z.of_nat n)
                        (InFontUnits (buf w)))
                     (buf w)) (hstate w)).
Proof.
  induction n as [|n IH]; intros i w Hi Hn.
  - cbn [for_loop ret]. rewrite mapRange_empty by lia.
    destruct w as [[b p u f t e] hs]. reflexivity.
  - rewrite for_loop_S, shiftInFontUnits_eq.
    destruct (index_is_Some (InFontUnits (buf w)) i) as [p Hp]; [lia|].
    rewrite Hp. rewrite IH; [|lia|cbn; rewrite length_insert; lia].
    cbn [buf hstate set_InFontUnits InFontUnits B Points Unhinted Twilight End].
    rewrite mapRange_cons by exact Hp.
    replace (Z.max (i + 1 + Z.of_nat n) (i + 1)) with (i + Z.of_nat (S n)) by lia.
    reflexivity.
Qed.

End SimpleSteps.

Lemma index_last {A} (l : list A) :
  l <> [] -> index l (Z.of_nat (length l) - 1) = last l.
Proof.
  intros Hl. unfold index. destruct l as [|a l]; [congruence|].
  destruct (Z.leb_spec 0 (Z.of_nat (length (a :: l)) - 1)) as [_|Hlt];
    [|cbn [length] in Hlt; lia].
  rewrite last_lookup. f_equal. cbn [length]. lia.
Qed.

Lemma readU16s_range gl offset n vs :
  readU16s gl offset n = Some vs -> Forall (fun v => 0 <= v < 65536) vs.
Proof.
  revert offset vs. induction n as [|n IH]; intros offset vs; cbn [readU16s].
  - intros [= <-]. constructor.
  - destruct (u16 gl offset) as [v|] eqn:Ev; [|discriminate]. cbn [mbind option_bind].
    destruct (readU16s gl (offset + 2) n) as [vs'|] eqn:E; [|discriminate].
    cbn. intros [= <-]. constructor; [eapply u16_range, Ev|eapply IH, E].
Qed.

Lemma subslice_tail {A} (l1 l2 sp : list A) :
  subslice (Slice (l1 ++ l2) sp) (Z.of_nat (length l1))
    (Z.of_nat (length (l1 ++ l2))) = Some (Slice l2 sp).
Proof.
  unfold subslice, cap, backing. cbn [elems spare].
  rewrite !length_app.
  destruct (Z.leb_spec 0 (Z.of_nat (length l1))); [|lia].
  destruct (Z.leb_spec (Z.of_nat (length l1)) (Z.of_nat (length l1 + length l2)));
    [|lia].
  destruct (Z.leb_spec (Z.of_nat (length l1 + length l2))
              (Z.of_nat (length l1 + length l2 + length sp))); [|lia].
  cbn [andb]. f_equal. f_equal.
  - rewrite Nat2Z.id, <- app_assoc, drop_app_length.
    replace (Z.to_nat (Z.of_nat (length l1 + length l2) - Z.of_nat (length l1)))
      with (length l2) by lia.
    apply take_app_length.
  - rewrite Nat2Z.id, <- length_app. apply drop_app_length.
Qed.

Lemma last_fmap_default (k : Z) (vs : list Z) :
  vs <> [] ->
  default 0 (last ((fun v => k + v) <$> vs)) = k + default 0 (last vs).
Proof.
  intros Hvs. rewrite fmap_last. destruct (last vs) eqn:E; [reflexivity|].
  apply last_None in E. congruence.
Qed.

Section SimpleGlyph.
Context {H : Type}.
Implicit Types (w : World H) (h : option (Hinter H)).

Lemma loadSimple_eq f scale h gl ne dx dy roundDxDy w :
  0 <= ne -> ends_cover w -> 0 < ne \/ ends w <> [] ->
  (is_Some h -> length (InFontUnits (buf w)) = length (pts w)) ->
  loadSimple f scale h gl ne 10 dx dy roundDxDy w =
  match decodeSimple gl ne with
  | Some (vs, program, raw) =>
      match h with
      | Some hh =>
          h_run hh program (afterSimple f scale dx dy roundDxDy true vs raw w)
      | None => Ret None (afterSimple f scale dx dy roundDxDy false vs raw w)
      end
  | None => Panic
  end.
Proof.
  intros Hne Hcover Hsome Hifu. unfold loadSimple, decodeSimple.
  unfold bind at 1. cbn [get]. cbv zeta.
  set (ne' := ne + len (End (buf w))).
  assert (Hne' : 0 <= ne') by (unfold ne', len; lia).
  unfold bind at 1. rewrite (resizeEnd_step w ne' Hne').
  set (e1 := resizeEnd (End (buf w)) ne').
  pose proof (resizeEnd_length (End (buf w)) ne' Hne') as Hl1. fold e1 in Hl1.
  unfold bind at 1. unfold for_range at 1.
  replace (Z.to_nat (ne' - len (End (buf w)))) with (Z.to_nat ne) by (unfold ne'; lia).
  rewrite readEnd_loop; cycle 1.
  { unfold len. lia. }
  { unfold ends. cbn [buf set_End End]. rewrite Hl1. unfold ne', len. lia. }
  destruct (readU16s (elems gl) 10 (Z.to_nat ne)) as [vs|] eqn:Evs; [|reflexivity].
  cbn [mbind option_bind].
  pose proof (readU16s_length _ _ _ _ Evs) as Hlv.
  pose proof (readU16s_range _ _ _ _ Evs) as Hrange.
  change (ends (mkWorld (set_End e1 (buf w)) (hstate w))) with (elems e1).
  rewrite (drop_ge (elems e1)) by (unfold len in *; lia).
  rewrite app_nil_r.
  replace (Z.to_nat (len (End (buf w)))) with (length (ends w))
    by (unfold len, ends; lia).
  replace (10 + 2 * Z.of_nat (Z.to_nat ne)) with (10 + 2 * ne) by lia.
  set (en := take (length (ends w)) (elems e1) ++
             ((fun v => 1 + len (Points (buf w)) + v) <$> vs)).
  unfold bind at 1.
  destruct (u16 (elems gl) (10 + 2 * ne)) as [instrLen|]; [|reflexivity].
  cbn [check ret mbind option_bind]. unfold bind at 1.
  destruct (subslice gl (10 + 2 * ne + 2) (10 + 2 * ne + 2 + instrLen))
    as [program|]; [|reflexivity].
  cbn [check ret mbind option_bind]. unfold bind at 1. cbn [get].
  set (W1 := set_ends en (mkWorld (set_End e1 (buf w)) (hstate w))).
  change (elems (End (buf W1))) with en.
  assert (Hlen : length en = Z.to_nat ne').
  { unfold en. rewrite length_app, length_take, length_fmap, Hl1, Hlv.
    unfold ne', len, ends. lia. }
  assert (Hen : en <> []).
  { intros E. rewrite E in Hlen. cbn in Hlen.
    destruct Hsome as [Hpos|Hends]; [unfold ne', len in Hlen; lia|].
    apply Hends. apply length_zero_iff_nil. unfold ne', len, ends in *. lia. }
  replace (ne' - 1) with (Z.of_nat (length en) - 1) by lia.
  rewrite (index_last en Hen).
  destruct (last en) as [np|] eqn:Elast; [|apply last_None in Elast; congruence].
  assert (Hnp : np = plen w + Z.of_nat
            match last vs with Some e => Z.to_nat (1 + e) | None => 0%nat end).
  { destruct (decide (vs = [])) as [->|Hvs].
    - cbn [last]. unfold en in Elast. cbn [fmap list_fmap] in Elast.
      rewrite app_nil_r in Elast.
      assert (E1 : elems e1 = ends w).
      { unfold e1, resizeEnd. cbn [length] in Hlv.
        assert (ne' = len (End (buf w))) as -> by (unfold ne'; lia).
        destruct (Z.leb_spec (len (End (buf w))) (cap (End (buf w)))) as [_|Hgt];
          [|unfold len, cap, backing in Hgt; rewrite length_app in Hgt; lia].
        cbn [elems]. unfold len, backing, ends. rewrite Nat2Z.id.
        apply take_app_length. }
      rewrite E1, take_ge in Elast by lia.
      unfold ends_cover in Hcover. rewrite Elast in Hcover. cbn in Hcover. lia.
    - pose proof (last_fmap_default (1 + len (Points (buf w))) vs Hvs) as Hlast.
      unfold en in Elast. rewrite last_app in Elast.
      destruct (last vs) as [e|] eqn:Ee; [|apply last_None in Ee; congruence].
      rewrite fmap_last, Ee in Elast. cbn in Elast.
      injection Elast as <-.
      assert (0 <= e).
      { apply last_Some_elem_of in Ee.
        rewrite Forall_forall in Hrange. apply Hrange in Ee. lia. }
      unfold plen. lia. }
  cbn [check ret]. unfold bind at 1. cbn [ret]. unfold bind at 1.
  set (n := match last vs with Some e => Z.to_nat (1 + e) | None => 0%nat end) in *.
  assert (Hnp0 : 0 <= np) by (rewrite Hnp, plen_pts; lia).
  pose proof (resizePoints_step W1 np Hnp0) as Hstep. cbv zeta in Hstep.
  rewrite Hstep. clear Hstep.
  change (Points (buf W1)) with (Points (buf w)).
  set (p1 := resizePoints (Points (buf w)) np).
  set (W2 := mkWorld (set_Points p1 (buf W1)) (hstate W1)).
  pose proof (resizePoints_length (Points (buf w)) np Hnp0) as Hlp. fold p1 in Hlp.
  pose proof (resizePoints_prefix (Points (buf w)) np) as Hpre. fold p1 in Hpre.
  specialize (Hpre ltac:(rewrite Hnp; unfold plen; lia)).
  set (tl := drop (length (pts w)) (elems p1)).
  assert (Hp1 : elems p1 = pts w ++ tl).
  { unfold tl. rewrite <- Hpre at 1. symmetry. apply take_drop. }
  assert (Htl : length tl = n).
  { unfold tl. rewrite length_drop, Hlp, Hnp, plen_pts. lia. }
  unfold bind at 1.
  rewrite decodeFlags_stream by (unfold len; lia).
  replace (Z.to_nat (plen W2 - len (Points (buf w)))) with n
    by (unfold plen, W2, len; cbn [buf set_Points Points]; rewrite Hlp, Hnp, plen_pts;
        unfold pts; lia).
  destruct (flagStream (elems gl) (10 + 2 * ne + 2 + instrLen) n)
    as [[fl off]|] eqn:Efl; [|reflexivity].
  cbn [mbind option_bind fst snd].
  pose proof (expandFlags_length _ _ _ _ _ _ Efl) as [Hlf _].
  assert (Hnat : Z.to_nat (len (Points (buf w))) = length (pts w))
    by (unfold len, pts; lia).
  assert (Hwf : withFlags (len (Points (buf w))) fl (pts W2) =
                pts w ++ zip_with with_Flags fl tl).
  { change (pts W2) with (elems p1). rewrite Hp1. unfold withFlags. rewrite Hnat.
    rewrite take_app_length, drop_app_length. reflexivity. }
  rewrite Hwf. clear Hwf. set (fp := zip_with with_Flags fl tl).
  unfold bind at 1. rewrite decodeCoords_eq by (unfold len; lia). cbv zeta.
  rewrite pts_set_pts, Hnat, drop_app_length.
  unfold fp at 1 2. rewrite Flags_withFlags by lia.
  destruct (decodeXs (elems gl) off 0 fl) as [[xs off1]|] eqn:Exs; [|reflexivity].
  cbn [mbind option_bind fst snd].
  destruct (decodeYs (elems gl) off1 0 fl) as [[ys off2]|] eqn:Eys; [|reflexivity].
  cbn [mbind option_bind fst snd].
  pose proof (decodeAxis_length _ _ _ _ _ _ _ _ _ Exs) as Hlx.
  pose proof (decodeAxis_length _ _ _ _ _ _ _ _ _ Eys) as Hly.
  rewrite set_pts_twice.
  assert (Hwc : withCoords (len (Points (buf w))) xs ys (pts w ++ fp) =
                pts w ++ rawPoints xs ys fl).
  { unfold withCoords. rewrite Hnat, take_app_length, drop_app_length.
    unfold fp. rewrite rawPoints_zip by lia. reflexivity. }
  rewrite Hwc. clear Hwc. set (raw := rawPoints xs ys fl).
  assert (Hlr : length raw = n) by (unfold raw; rewrite rawPoints_length; lia).
  assert (Hlo : len (Points (buf w)) = Z.of_nat (length (pts w))) by reflexivity.
  assert (Hhi : np = Z.of_nat (length (pts w ++ raw)))
    by (rewrite length_app, Hnp, plen_pts; lia).
  assert (Hdef : default 0 (last en) = np) by (rewrite Elast; reflexivity).
  assert (Hvl : Z.of_nat (length vs) + len (End (buf w)) = ne')
    by (unfold ne'; lia).
  assert (Hmap : forall g (l : list Point), length l = n ->
            mapRange g (len (Points (buf w))) np (pts w ++ l) = pts w ++ (g <$> l)).
  { intros g l Hl. rewrite mapRange_app.
    rewrite mapRange_outside by (left; unfold len, pts; lia).
    rewrite mapRange_all by (rewrite ?Hnp, ?plen_pts; unfold len, pts; lia).
    reflexivity. }
  destruct h as [hh|].
  - specialize (Hifu ltac:(eauto)).
    unfold bind at 1. unfold bind at 1. cbn [get]. unfold bind at 1.
    change (Points (buf (set_pts (pts w ++ raw) W2)))
      with (Slice (pts w ++ raw) (spare p1)).
    rewrite Hlo. rewrite Hhi at 1. rewrite subslice_tail. cbn [check ret elems].
    unfold bind at 1. cbn [put]. unfold for_range.
    replace (Z.to_nat (np - Z.of_nat (length (pts w)))) with n
      by (rewrite Hnp, plen_pts; lia).
    rewrite shiftInFontUnits_loop; cycle 1.
    { lia. }
    { cbn [buf set_InFontUnits InFontUnits]. rewrite length_app.
      change (InFontUnits (buf (set_pts (pts w ++ raw) W2)))
        with (InFontUnits (buf w)). lia. }
    cbn [buf hstate set_InFontUnits InFontUnits].
    change (InFontUnits (buf (set_pts (pts w ++ raw) W2)))
      with (InFontUnits (buf w)).
    rewrite mapRange_app.
    rewrite (mapRange_outside _ _ _ (InFontUnits (buf w))) by (left; lia).
    rewrite mapRange_all by lia.
    set (W4 := mkWorld (set_InFontUnits _ _) _).
    unfold bind at 1. rewrite scalePoints_eq; cycle 1.
    { lia. }
    { change (plen W4) with (Z.of_nat (length (pts w ++ raw))). lia. }
    unfold bind at 1. cbn [get]. unfold bind at 1.
    change (pts W4) with (pts w ++ raw).
    rewrite <- Hlo, Hmap by exact Hlr.
    set (scaled := scaledPoint f scale dx dy roundDxDy <$> raw).
    change (Points (buf (set_pts (pts w ++ scaled) W4)))
      with (Slice (pts w ++ scaled) (spare p1)).
    assert (Hhi' : np = Z.of_nat (length (pts w ++ scaled)))
      by (unfold scaled; rewrite length_app, length_fmap, Hnp, plen_pts; lia).
    rewrite Hlo. rewrite Hhi' at 1. rewrite subslice_tail. cbn [check ret elems].
    unfold bind at 1. cbn [put]. f_equal.
    unfold afterSimple. cbv zeta. rewrite Hvl.
    change (take (length (ends w)) (elems (resizeEnd (End (buf w)) ne')) ++
            ((fun v => 1 + plen w + v) <$> vs)) with en.
    rewrite Hdef. reflexivity.
  - unfold bind at 1. cbn [ret]. unfold bind at 1.
    rewrite scalePoints_eq; cycle 1.
    { unfold len; lia. }
    { unfold plen, len. cbn [buf set_pts set_Points Points set_elems elems].
      lia. }
    cbn [ret]. f_equal. rewrite pts_set_pts, set_pts_twice, Hmap by exact Hlr.
    unfold afterSimple. cbv zeta. rewrite Hvl.
    change (take (length (ends w)) (elems (resizeEnd (End (buf w)) ne')) ++
            ((fun v => 1 + plen w + v) <$> vs)) with en.
    rewrite Hdef. reflexivity.
Qed.

End SimpleGlyph.

(** ** [Load] of a simple glyph *)

Lemma glyphData_inv f i gl :
  glyphData f i = Some gl ->
  exists g0 g1, glyphRange f i = Some (g0, g1) /\ (g0 =? g1) = false /\
    subslice (glyf f) g0 g1 = Some gl.
Proof.
  unfold glyphData. destruct (glyphRange f i) as [[g0 g1]|]; [|discriminate].
  cbn. destruct (g0 =? g1) eqn:E; [discriminate|]. eauto.
Qed.

Section LoadSimple.
Context {H : Type}.
Implicit Types (w : World H) (h : option (Hinter H)).

(** [load] of a glyph with a contour count that is not negative. *)
Lemma load_simple_eq (fuel : nat) f scale i h dx dy roundDxDy recursion gl ne b w :
  recursion < 4 -> glyphData f i = Some gl ->
  readHeader (elems gl) = Some (ne, b) -> 0 <= ne ->
  load (S fuel) f scale i h dx dy roundDxDy recursion w =
  loadSimple f scale h gl ne 10 dx dy roundDxDy (setB b w).
Proof.
  intros Hrec Hgl Hhd Hne. rewrite load_eq.
  destruct (Z.geb_spec recursion 4); [lia|].
  apply glyphData_inv in Hgl as (g0 & g1 & -> & -> & ->). rewrite Hhd. cbv zeta.
  destruct (Z.eqb_spec ne (-1)); [lia|].
  destruct (Z.ltb_spec ne 0); [lia|]. reflexivity.
Qed.

Lemma ends_cover_reset b w : ends_cover (setB b (resetWorld w)).
Proof. reflexivity. Qed.

End LoadSimple.

(** X1. [Load] of a simple glyph with at least one contour, without a
    hinter, into any buffer: when the glyph's bytes hold the contour ends
    [vs] and the points [raw] (the flag and coordinate streams decoded by
    the format's rules), [Load] returns nil and leaves [End] holding each
    end index plus one, [Point] holding every raw point scaled (with its
    flag as decoded), [B] holding the header's bounds scaled, and
    [Unhinted], [InFontUnits] and [Twilight] empty, whatever the buffer held
    before; when the bytes run out, or a repeat count overshoots the
    points, [Load] panics. *)
Theorem Load_simple_glyph {H} (f : Font) (scale i : Z) (gl : slice byte)
    (ne : Z) (b : Bounds) (w : World H) :
  glyphData f i = Some gl -> readHeader (elems gl) = Some (ne, b) -> 0 < ne ->
  match decodeSimple gl ne with
  | Some (vs, _, raw) =>
      exists w', Load f scale i None w = Ret None w' /\
        ends w' = (fun v => 1 + v) <$> vs /\
        pts w' = scaledPoint f scale 0 0 false <$> raw /\
        B (buf w') = scaleBounds f scale b /\
        Unhinted (buf w') = [] /\ InFontUnits (buf w') = [] /\
        Twilight (buf w') = []
  | None => Load f scale i None w = Panic
  end.
Proof.
  intros Hgl Hhd Hne. rewrite Load_eq. cbn [initHinter ret]. unfold load_fuel.
  rewrite (load_simple_eq _ _ _ _ _ _ _ _ _ gl ne b) by (assumption || lia).
  rewrite loadSimple_eq;
    [|lia|apply ends_cover_reset|left; exact Hne|intros [? [=]]].
  destruct (decodeSimple gl ne) as [[[vs program] raw]|]; [|reflexivity].
  eexists. split; [reflexivity|].
  repeat split; reflexivity.
Qed.

(** ** A glyph without contours *)

Section ZeroContours.
Context {H : Type}.
Implicit Types (w : World H) (h : option (Hinter H)).

(** With no contour to read and none in the buffer, [End[ne-1]] is
    [End[-1]]. *)
Lemma loadSimple_zero_panics f scale h gl offset dx dy roundDxDy w :
  ends w = [] -> loadSimple f scale h gl 0 offset dx dy roundDxDy w = Panic.
Proof.
  intros Hends. unfold loadSimple. unfold bind at 1. cbn [get]. cbv zeta.
  assert (Hlen : len (End (buf w)) = 0)
    by (unfold len; fold (ends w); rewrite Hends; reflexivity).
  unfold bind at 1. rewrite (resizeEnd_step w (0 + len (End (buf w)))) by lia.
  unfold bind at 1. unfold for_range at 1. rewrite Hlen.
  change (Z.to_nat (0 + 0 - 0)) with 0%nat. cbn [for_loop ret].
  unfold bind at 1. destruct (u16 (elems gl) offset) as [instrLen|]; [|reflexivity].
  cbn [check ret]. unfold bind at 1.
  destruct (subslice gl (offset + 2) (offset + 2 + instrLen)) as [program|];
    [|reflexivity].
  cbn [check ret]. unfold bind at 1. cbn [get]. unfold bind at 1.
  reflexivity.
Qed.

End ZeroContours.

(** ** Invariants of [load] *)

Section Invariants.
Context {H : Type}.
Implicit Types (w : World H) (h : option (Hinter H)).

(** What every component load keeps, and the writing of [B] does,
    [loadCompound] keeps. *)
Lemma loadCompound_loop_invariant (P : World H -> Prop) (ld : loader H) (n : nat)
    f scale h glyf offset dx dy recursion w r w' :
  (forall b w, P w -> P (setB b w)) ->
  (forall i dx dy rd w r w',
     ld f scale i h dx dy rd (recursion + 1) w = Ret r w' -> P w -> P w') ->
  loadCompound_loop ld n f scale h glyf offset dx dy recursion w = Ret r w' ->
  P w -> P w'.
Proof.
  intros HB Hld. revert offset w. induction n as [|n IH]; intros offset w;
    [discriminate|].
  rewrite loadCompound_loop_eq.
  destruct (readComponent glyf offset dx dy) as [[[[[fl c] dx1] dy1] off']|];
    [|discriminate].
  destruct (negb (has fl flagArgsAreXYValues)); [intros [= _ <-]; auto|].
  destruct (has fl transformBits); [intros [= _ <-]; auto|].
  destruct (ld f scale c h dx1 dy1 _ _ w) as [r1 w1| |] eqn:E1; try discriminate.
  cbv zeta. intros Hr Hw. pose proof (Hld _ _ _ _ _ _ _ E1 Hw) as Hw1.
  assert (Hw2 : P (if has fl flagUseMyMetrics then w1 else setB (B (buf w)) w1))
    by (destruct (has fl flagUseMyMetrics); auto).
  destruct (has fl flagMoreComponents).
  - apply (IH _ _ Hr), Hw2.
  - injection Hr as _ <-. exact Hw2.
Qed.

(** What the load of every simple glyph keeps, and the writing of [B]
    does, [load] keeps. *)
Lemma load_invariant (P : World H -> Prop) (fuel : nat) f scale i h dx dy roundDxDy
    recursion w r w' :
  (forall b w, P w -> P (setB b w)) ->
  (forall gl ne dx dy rd w r w', 0 <= ne ->
     loadSimple f scale h gl ne 10 dx dy rd w = Ret r w' -> P w -> P w') ->
  load fuel f scale i h dx dy roundDxDy recursion w = Ret r w' -> P w -> P w'.
Proof.
  intros HB Hs. revert i dx dy roundDxDy recursion w r w'.
  induction fuel as [|fuel IH]; intros i dx dy roundDxDy recursion w r w';
    [discriminate|].
  rewrite load_eq. destruct (recursion >=? 4); [intros [= _ <-]; auto|].
  destruct (glyphRange f i) as [[g0 g1]|]; [|discriminate].
  destruct (g0 =? g1); [intros [= _ <-]; auto|].
  destruct (subslice (glyf f) g0 g1) as [gl|]; [|discriminate].
  destruct (readHeader (elems gl)) as [[ne b]|]; [|discriminate].
  cbv zeta. destruct (ne =? -1).
  - intros Hr Hw. unfold loadCompound in Hr.
    eapply loadCompound_loop_invariant; [exact HB| |exact Hr|apply HB, Hw].
    intros i' dx' dy' rd w0 r0 w0'. apply IH.
  - destruct (Z.ltb_spec ne 0); [intros [= _ <-]; auto|].
    intros Hr Hw. eapply Hs in Hr; eauto.
Qed.

(** [Load] establishes what the reset buffer has, the hinter's [init]
    keeps and [load] keeps, when the scaling of [B] keeps it. *)
Lemma Load_invariant (P : World H -> Prop) f scale i h w r w' :
  (forall b w, P w -> P (setB b w)) ->
  (forall gl ne dx dy rd w r w', 0 <= ne ->
     loadSimple f scale h gl ne 10 dx dy rd w = Ret r w' -> P w -> P w') ->
  (forall r w1, initHinter h f scale (resetWorld w) = Ret r w1 -> P w1) ->
  Load f scale i h w = Ret r w' -> P w'.
Proof.
  intros HB Hs Hi. rewrite Load_eq.
  destruct (initHinter h f scale (resetWorld w)) as [[e|] w1| |] eqn:E1;
    try discriminate.
  - intros [= _ <-]. apply (Hi _ _ eq_refl).
  - pose proof (Hi _ _ eq_refl) as Hw1.
    destruct (load load_fuel f scale i h 0 0 false 0 w1) as [[e|] w2| |] eqn:E2;
      try discriminate.
    + intros [= _ <-]. eapply load_invariant; [exact HB|exact Hs|exact E2|exact Hw1].
    + intros [= _ <-]. apply HB.
      eapply load_invariant; [exact HB|exact Hs|exact E2|exact Hw1].
Qed.

(** A simple glyph leaves the last contour end equal to the number of
    points: [Point] is resized to [End[ne-1]]. *)
Lemma loadSimple_cover f scale h gl ne offset dx dy roundDxDy w r w' :
  hinter_keeps h -> 0 <= ne ->
  loadSimple f scale h gl ne offset dx dy roundDxDy w = Ret r w' -> ends_cover w'.
Proof.
  intros Hh Hne Hr.
  destruct (loadSimple_shape _ _ _ _ _ _ _ _ _ _ _ _ Hh Hne Hr)
    as (vs & Hvs & HE & Hidx).
  cbv zeta in HE. apply readU16s_length in Hvs.
  assert (Hlen : Z.of_nat (length (ends w')) = ne + len (End (buf w))).
  { unfold ends. rewrite HE. cbn [elems].
    rewrite length_app, length_take, length_fmap, resizeEnd_length, Hvs
      by (unfold len; lia).
    unfold ends, len. lia. }
  assert (Hne' : ends w' <> []).
  { intros E. rewrite E in Hidx. unfold index in Hidx.
    destruct (0 <=? ne + len (End (buf w)) - 1); discriminate. }
  rewrite <- Hlen, (index_last _ Hne') in Hidx.
  unfold ends_cover. rewrite Hidx. reflexivity.
Qed.

End Invariants.

(** ** What the bytes of a simple glyph hold *)

Lemma rawPoints_Forall (P : Z -> Prop) (xs ys fl : list Z) :
  Forall P xs -> Forall P ys ->
  Forall (fun p => P (X p) /\ P (Y p)) (rawPoints xs ys fl).
Proof.
  intros Hx Hy. apply Forall_lookup. intros j p Hp. unfold rawPoints in Hp.
  apply lookup_zip_with_Some in Hp as ([x y] & c & -> & Hxy & _).
  apply lookup_zip_with_Some in Hxy as (x' & y' & [= <- <-] & Hx' & Hy').
  cbn. rewrite Forall_lookup in Hx, Hy. eauto.
Qed.

Lemma decodeSimple_facts gl ne vs program raw :
  decodeSimple gl ne = Some (vs, program, raw) ->
  length vs = Z.to_nat ne /\ Forall (fun v => 0 <= v < 65536) vs /\
  length raw = match last vs with Some e => Z.to_nat (1 + e) | None => 0%nat end /\
  Forall (fun p => (-32768 <= X p < 32768) /\ (-32768 <= Y p < 32768)) raw.
Proof.
  unfold decodeSimple.
  destruct (readU16s (elems gl) 10 (Z.to_nat ne)) as [vs0|] eqn:Evs; [|discriminate].
  cbn [mbind option_bind].
  destruct (u16 (elems gl) (10 + 2 * ne)) as [instrLen|]; [|discriminate].
  cbn [mbind option_bind].
  destruct (subslice gl _ _) as [program0|]; [|discriminate].
  cbn [mbind option_bind].
  destruct (flagStream _ _ _) as [[fl off]|] eqn:Efl; [|discriminate].
  cbn [mbind option_bind fst snd].
  destruct (decodeXs (elems gl) off 0 fl) as [[xs off1]|] eqn:Exs; [|discriminate].
  cbn [mbind option_bind fst snd].
  destruct (decodeYs (elems gl) off1 0 fl) as [[ys off2]|] eqn:Eys; [|discriminate].
  cbn [mbind option_bind fst snd]. intros [= <- <- <-].
  apply expandFlags_length in Efl as [Hlf _].
  pose proof (decodeAxis_length _ _ _ _ _ _ _ _ _ Exs) as Hlx.
  pose proof (decodeAxis_length _ _ _ _ _ _ _ _ _ Eys) as Hly.
  split; [eapply readU16s_length, Evs|].
  split; [eapply readU16s_range, Evs|].
  split; [rewrite rawPoints_length; lia|].
  apply (rawPoints_Forall (fun c => -32768 <= c < 32768)).
  - eapply decodeAxis_range; [|exact Exs]. lia.
  - eapply decodeAxis_range; [|exact Eys]. lia.
Qed.

Lemma shiftPoint_0 (p : Point) :
  -32768 <= X p < 32768 -> -32768 <= Y p < 32768 -> shiftPoint 0 0 p = p.
Proof.
  intros Hx Hy. destruct p as [x y c]. cbn in *. unfold shiftPoint, add32, int32.
  cbn [X Y Flags]. rewrite !Z.add_0_r.
  rewrite !wrap_small by (change (2 ^ (32 - 1)) with 2147483648; lia). reflexivity.
Qed.

(** X2. [Load] of a simple glyph with at least one contour, with a hinter
    whose [init] returns nil and leaves [Point], [End], [InFontUnits] and
    [Unhinted] empty: the hinting program of the glyph is run on a buffer in
    which [End] holds each end index plus one, [InFontUnits] the points as
    the glyph's bytes give them, [Point] and [Unhinted] the same points
    scaled, and [B] the header's bounds, not yet scaled.  [Load] returns
    what the program returns: after nil, with [B] scaled; after an error,
    with the buffer as the program left it. *)
Theorem Load_simple_glyph_hinted {H} (f : Font) (scale i : Z) (gl : slice byte)
    (ne : Z) (b : Bounds) (vs : list Z) (program : slice byte) (raw : list Point)
    (hh : Hinter H) (w w1 : World H) :
  glyphData f i = Some gl -> readHeader (elems gl) = Some (ne, b) -> 0 < ne ->
  decodeSimple gl ne = Some (vs, program, raw) ->
  h_init hh f scale (resetWorld w) = Ret None w1 ->
  pts w1 = [] -> ends w1 = [] ->
  InFontUnits (buf w1) = [] -> Unhinted (buf w1) = [] ->
  exists w2,
    ends w2 = (fun v => 1 + v) <$> vs /\
    InFontUnits (buf w2) = raw /\
    pts w2 = scaledPoint f scale 0 0 false <$> raw /\
    Unhinted (buf w2) = pts w2 /\
    B (buf w2) = b /\ Twilight (buf w2) = Twilight (buf w1) /\
    hstate w2 = hstate w1 /\
    Load f scale i (Some hh) w =
    match h_run hh program w2 with
    | Ret None w3 => Ret None (setB (scaleBounds f scale (B (buf w3))) w3)
    | r => r
    end.
Proof.
  intros Hgl Hhd Hne Hdec Hinit Hp He Hi Hu.
  exists (afterSimple f scale 0 0 false true vs raw (setB b w1)).
  apply decodeSimple_facts in Hdec as Hfacts. destruct Hfacts as (_ & _ & _ & Hraw).
  unfold afterSimple. cbv zeta.
  change (ends (setB b w1)) with (ends w1). change (pts (setB b w1)) with (pts w1).
  change (plen (setB b w1)) with (Z.of_nat (length (pts w1))).
  change (InFontUnits (buf (setB b w1))) with (InFontUnits (buf w1)).
  change (Unhinted (buf (setB b w1))) with (Unhinted (buf w1)).
  rewrite Hp, He, Hi, Hu. cbn [length take app].
  split; [reflexivity|]. split.
  { cbn [buf InFontUnits]. rewrite <- (list_fmap_id raw) at 2.
    apply Forall_fmap_ext_1. eapply Forall_impl; [exact Hraw|].
    intros p [Hx Hy]. apply shiftPoint_0; assumption. }
  split; [reflexivity|]. split; [reflexivity|]. split; [reflexivity|].
  split; [reflexivity|]. split; [reflexivity|].
  rewrite Load_eq. cbn [initHinter]. rewrite Hinit. unfold load_fuel.
  rewrite (load_simple_eq _ _ _ _ _ _ _ _ _ gl ne b) by (assumption || lia).
  rewrite loadSimple_eq; cycle 1.
  { lia. }
  { unfold ends_cover. change (ends (setB b w1)) with (ends w1).
    change (plen (setB b w1)) with (Z.of_nat (length (pts w1))).
    rewrite He, Hp. reflexivity. }
  { left. exact Hne. }
  { intros _. change (InFontUnits (buf (setB b w1))) with (InFontUnits (buf w1)).
    change (pts (setB b w1)) with (pts w1). rewrite Hi, Hp. reflexivity. }
  rewrite Hdec. unfold afterSimple. cbv zeta.
  change (ends (setB b w1)) with (ends w1). change (pts (setB b w1)) with (pts w1).
  change (plen (setB b w1)) with (Z.of_nat (length (pts w1))).
  change (InFontUnits (buf (setB b w1))) with (InFontUnits (buf w1)).
  change (Unhinted (buf (setB b w1))) with (Unhinted (buf w1)).
  rewrite Hp, He, Hi, Hu. cbn [length take app].
  destruct (h_run hh program _) as [[e|] w3| |]; reflexivity.
Qed.

(** X3. A glyph whose header says zero contours (and that is not of zero
    length) makes [Load] panic, with no hinter or after a hinter's [init]
    that returns nil and leaves [End] empty: [load] reads [End[ne-1]] for
    the number of points, which is [End[-1]] when the glyph adds no
    contour to an empty [End]. *)
Theorem Load_zero_contours_panics {H} (f : Font) (scale i : Z)
    (h : option (Hinter H)) (gl : slice byte) (b : Bounds) (w w1 : World H) :
  glyphData f i = Some gl -> readHeader (elems gl) = Some (0, b) ->
  initHinter h f scale (resetWorld w) = Ret None w1 -> ends w1 = [] ->
  Load f scale i h w = Panic.
Proof.
  intros Hgl Hhd Hinit He. rewrite Load_eq, Hinit. unfold load_fuel.
  rewrite (load_simple_eq _ _ _ _ _ _ _ _ _ gl 0 b) by (assumption || lia).
  rewrite loadSimple_zero_panics; [reflexivity|exact He].
Qed.

(** ** The flag stream *)

Lemma expandFlags_bounds (fuel : nat) d :
  forall offset (n : nat) fl off,
  expandFlags fuel d offset n = Some (fl, off) ->
  off <= offset + 2 * Z.of_nat n /\ Z.of_nat n <= 128 * (off - offset) /\
  (n <> 0%nat -> off <= Z.of_nat (length d)).
Proof.
  induction fuel as [|fuel IH]; intros offset n fl off; destruct n as [|n];
    cbn [expandFlags]; try discriminate;
    try (intros [= <- <-]; split; [lia|split; [lia|congruence]]).
  destruct (index d offset) as [b|] eqn:E0; [|discriminate]. cbn [mbind option_bind].
  apply index_lt in E0.
  destruct (has (byte_val b) flagRepeat).
  - destruct (index d (offset + 1)) as [k|] eqn:E1; [|discriminate].
    cbn [mbind option_bind]. apply index_lt in E1.
    pose proof (byte_val_range k) as Hk.
    destruct (decide _) as [Hfit|]; [|discriminate].
    destruct (expandFlags fuel d (offset + 2) _) as [[fl' off']|] eqn:E; [|discriminate].
    cbn [mbind option_bind fst snd]. intros [= <- <-].
    pose proof (expandFlags_length _ _ _ _ _ _ E) as [_ Hmono].
    apply IH in E as (Hup & Hlow & Hin).
    split; [lia|]. split; [lia|]. intros _.
    destruct (decide (S n - S (Z.to_nat (byte_val k)) = 0)%nat) as [Hz|Hnz].
    + rewrite Hz in Hup. lia.
    + apply Hin, Hnz.
  - destruct (expandFlags fuel d (offset + 1) _) as [[fl' off']|] eqn:E; [|discriminate].
    cbn [mbind option_bind fst snd]. intros [= <- <-].
    pose proof (expandFlags_length _ _ _ _ _ _ E) as [_ Hmono].
    apply IH in E as (Hup & Hlow & Hin).
    split; [lia|]. split; [lia|]. intros _.
    destruct (decide (S n - 1 = 0)%nat) as [Hz|Hnz].
    + rewrite Hz in Hup. lia.
    + apply Hin, Hnz.
Qed.

(** X4. [decodeFlags] is the run-length decoding of the flag bytes: when
    the bytes from [offset] hold the flags of the [len(Point) - np0] points
    to fill (a byte without the repeat bit is one flag; a byte with it and
    a count [k] is [k + 1] copies, the repeat bit kept in the flag),
    [decodeFlags] stores exactly those flags in [Point[np0:]], in order, and
    returns the offset after them; that offset is at most two bytes per
    point further, at least one byte per 128 points, and within the data
    when there was a point to fill.  When a byte is missing or a run is
    longer than the points left, it panics. *)
Theorem decodeFlags_expands_stream {H} (d : list byte) (offset np0 : Z)
    (w : World H) :
  0 <= np0 ->
  match flagStream d offset (Z.to_nat (plen w - np0)) with
  | Some (fl, off) =>
      decodeFlags d offset np0 w = Ret off (set_pts (withFlags np0 fl (pts w)) w) /\
      length fl = Z.to_nat (plen w - np0) /\
      offset <= off <= offset + 2 * Z.of_nat (length fl) /\
      Z.of_nat (length fl) <= 128 * (off - offset) /\
      (fl <> [] -> off <= Z.of_nat (length d))
  | None => decodeFlags d offset np0 w = Panic
  end.
Proof.
  intros Hnp0. rewrite decodeFlags_stream by exact Hnp0.
  destruct (flagStream d offset (Z.to_nat (plen w - np0))) as [[fl off]|] eqn:E;
    [|reflexivity].
  unfold flagStream in E.
  pose proof (expandFlags_length _ _ _ _ _ _ E) as [Hl Hmono].
  pose proof (expandFlags_bounds _ _ _ _ _ _ E) as (Hup & Hlow & Hin).
  split; [reflexivity|]. split; [exact Hl|]. rewrite Hl.
  split; [lia|]. split; [lia|].
  intros Hfl. apply Hin. intros Hz. rewrite Hz in Hl.
  apply Hfl, length_zero_iff_nil, Hl.
Qed.

(** ** The coordinate streams *)

Lemma sumZ_coordBytes (flags : list Z) :
  sumZ (coordBytes <$> flags) =
  sumZ (axisBytes flagXShortVector flagThisXIsSame <$> flags) +
  sumZ (axisBytes flagYShortVector flagThisYIsSame <$> flags).
Proof.
  induction flags as [|f flags IH]; [reflexivity|].
  cbn [fmap list_fmap sumZ foldr] in *. unfold sumZ in *. unfold coordBytes at 1. lia.
Qed.

(** X5. [decodeCoords] takes from the data exactly the bytes that the
    flags of the points [np0 ..] say: per point and axis, one byte when the
    short-vector bit is set, none when only the same bit is, two
    otherwise.  From an offset inside the data it returns the offset plus
    that sum when the data has that many bytes left, and panics when it
    has not. *)
Theorem decodeCoords_consumes {H} (d : list byte) (offset np0 : Z) (w : World H) :
  0 <= np0 -> 0 <= offset <= Z.of_nat (length d) ->
  let need := sumZ (coordBytes <$> (Flags <$> drop (Z.to_nat np0) (pts w))) in
  (offset + need <= Z.of_nat (length d) ->
   exists w', decodeCoords d offset np0 w = Ret (offset + need) w') /\
  (Z.of_nat (length d) < offset + need -> decodeCoords d offset np0 w = Panic).
Proof.
  intros Hnp0 Hoff need. unfold need. rewrite sumZ_coordBytes.
  rewrite decodeCoords_eq by exact Hnp0. cbv zeta.
  set (flags := Flags <$> drop (Z.to_nat np0) (pts w)).
  pose proof (decodeAxis_bytes flagXShortVector flagPositiveXShortVector
                flagThisXIsSame d flags offset 0 Hoff) as Hx.
  pose proof (sumZ_nonneg _ flags (axisBytes_nonneg flagXShortVector flagThisXIsSame))
    as Hsx.
  pose proof (sumZ_nonneg _ flags (axisBytes_nonneg flagYShortVector flagThisYIsSame))
    as Hsy.
  fold decodeXs in Hx.
  destruct (decodeXs d offset 0 flags) as [[xs off1]|]; [|split; [intros; exfalso; lia|reflexivity]].
  destruct Hx as [-> Hx].
  assert (Hoff1 : 0 <= offset +
                    sumZ (axisBytes flagXShortVector flagThisXIsSame <$> flags) <=
                  Z.of_nat (length d)).
  { lia. }
  pose proof (decodeAxis_bytes flagYShortVector flagPositiveYShortVector
                flagThisYIsSame d flags _ 0 Hoff1) as Hy.
  fold decodeYs in Hy.
  destruct (decodeYs d _ 0 flags) as [[ys off2]|]; [|split; [intros; exfalso; lia|reflexivity]].
  destruct Hy as [-> Hy]. split; [|lia].
  intros _. eexists. rewrite Z.add_assoc. reflexivity.
Qed.

(** X6. Every coordinate that [decodeCoords] leaves in the points
    [np0 ..] is in the range of a 16-bit signed integer, whatever the
    bytes: the running sums wrap at 16 bits. *)
Theorem decodeCoords_int16_range {H} (d : list byte) (offset np0 : Z)
    (w w' : World H) (off i : Z) (p : Point) :
  0 <= np0 -> decodeCoords d offset np0 w = Ret off w' ->
  np0 <= i -> index (pts w') i = Some p ->
  (-32768 <= X p < 32768) /\ (-32768 <= Y p < 32768).
Proof.
  intros Hnp0 Hr Hi Hp. rewrite decodeCoords_eq in Hr by exact Hnp0. cbv zeta in Hr.
  destruct (decodeXs d offset 0 _) as [[xs off1]|] eqn:Exs; [|discriminate].
  destruct (decodeYs d off1 0 _) as [[ys off2]|] eqn:Eys; [|discriminate].
  injection Hr as _ <-. rewrite pts_set_pts in Hp.
  apply index_Some in Hp as [_ Hp].
  assert (Hd : drop (Z.to_nat np0) (withCoords np0 xs ys (pts w)) !!
                 (Z.to_nat i - Z.to_nat np0)%nat = Some p).
  { rewrite lookup_drop. rewrite <- Hp. f_equal. lia. }
  rewrite drop_withCoords in Hd.
  apply lookup_zip_with_Some in Hd as (y & q & -> & Hy & Hq).
  apply lookup_zip_with_Some in Hq as (x & q0 & -> & Hx & _).
  cbn [with_X with_Y X Y].
  apply decodeAxis_range in Exs; [|lia]. apply decodeAxis_range in Eys; [|lia].
  rewrite Forall_lookup in Exs, Eys. split; eauto.
Qed.

(** ** What [Load] always leaves *)

Section LoadLeaves.
Context {H : Type}.
Implicit Types (w : World H) (h : option (Hinter H)).

Lemma initHinter_keeps h f scale w r w1 :
  hinter_keeps h -> initHinter h f scale (resetWorld w) = Ret r w1 ->
  End (buf w1) = Slice [] (backing (End (buf w))) /\ plen w1 = 0.
Proof.
  intros Hh. destruct h as [hh|]; cbn [initHinter].
  - intros Hr. destruct (Hh hh eq_refl) as [Hinit _].
    apply Hinit in Hr as [-> ->]. split; reflexivity.
  - intros [= _ <-]. split; reflexivity.
Qed.

Lemma resizeEnd_take (e : slice Z) (ne : Z) :
  0 <= ne ->
  take (length (elems e)) (elems (resizeEnd e (ne + len e))) =
  if ne + len e <=? cap e then elems e else replicate (length (elems e)) 0.
Proof.
  intros Hne. unfold resizeEnd, len.
  destruct (Z.leb_spec (ne + Z.of_nat (length (elems e))) (cap e)) as [Hle|Hgt].
  - cbn [elems]. rewrite take_take.
    replace (length (elems e) `min` Z.to_nat (ne + Z.of_nat (length (elems e))))%nat
      with (length (elems e)) by lia.
    unfold backing. apply take_app_length.
  - unfold make. cbn [elems]. rewrite take_replicate. f_equal. lia.
Qed.

Lemma loadSimple_error f scale h gl ne offset dx dy roundDxDy w e w' :
  loadSimple f scale h gl ne offset dx dy roundDxDy w = Ret (Some e) w' ->
  exists hh program w0, h = Some hh /\ h_run hh program w0 = Ret (Some e) w'.
Proof.
  unfold loadSimple. intros Hr.
  do 12 (apply bind_Ret in Hr as (? & ? & _ & Hr); cbv zeta in Hr).
  destruct h as [hh|]; [|discriminate].
  do 3 (apply bind_Ret in Hr as (? & ? & _ & Hr)). eauto.
Qed.

End LoadLeaves.

(** X7. After every [Load] call that returns, nil or an error, for every
    font, with no hinter or with one that leaves [End] and the number of
    points as they are: the last entry of [End] is [len(Point)], and [Point]
    is empty when [End] is.  No assumption on the glyph data is needed:
    [load] sizes [Point] by the last end index it has stored. *)
Theorem Load_last_end_is_point_count {H} (f : Font) (scale i : Z)
    (h : option (Hinter H)) (w w' : World H) (r : option error) :
  hinter_keeps h -> Load f scale i h w = Ret r w' ->
  default 0 (last (ends w')) = plen w'.
Proof.
  intros Hh Hr. change (ends_cover w').
  eapply (Load_invariant ends_cover); [| | |exact Hr].
  - intros b w0 Hw0. exact Hw0.
  - intros gl ne dx dy rd w0 r0 w0' Hne Hs _. eapply loadSimple_cover; eauto.
  - intros r0 w1 Hi. apply (initHinter_keeps _ _ _ _ _ _ Hh) in Hi as [HE Hp].
    unfold ends_cover, ends. rewrite HE, Hp. reflexivity.
Qed.

(** X8. A simple glyph loaded as a component, without a hinter, into a
    buffer whose last [End] entry is [len(Point)]: [load] returns nil, the
    points already there stay as they are and the glyph's points follow
    them, scaled with the component's offset; [B] is the glyph's header
    bounds; the glyph's end indices, moved by one plus the number of points
    that were there, follow the entries of [End] when the new length fits
    its capacity.  When it does not, the entries that were there are all
    zero afterwards: [End] is re-made and not copied. *)
Theorem load_component_appends {H} (fuel : nat) (f : Font)
    (scale i dx dy : Z) (roundDxDy : bool) (recursion : Z) (gl : slice byte)
    (ne : Z) (b : Bounds) (vs : list Z) (program : slice byte) (raw : list Point)
    (w : World H) :
  recursion < 4 -> glyphData f i = Some gl ->
  readHeader (elems gl) = Some (ne, b) -> 0 <= ne ->
  decodeSimple gl ne = Some (vs, program, raw) ->
  default 0 (last (ends w)) = plen w -> 0 < ne \/ ends w <> [] ->
  exists w',
    load (S fuel) f scale i None dx dy roundDxDy recursion w = Ret None w' /\
    pts w' = pts w ++ (scaledPoint f scale dx dy roundDxDy <$> raw) /\
    ends w' =
      (if ne + len (End (buf w)) <=? cap (End (buf w)) then ends w
       else replicate (length (ends w)) 0) ++
      ((fun v => 1 + plen w + v) <$> vs) /\
    B (buf w') = b /\
    Unhinted (buf w') = Unhinted (buf w) /\
    InFontUnits (buf w') = InFontUnits (buf w) /\
    Twilight (buf w') = Twilight (buf w).
Proof.
  intros Hrec Hgl Hhd Hne Hdec Hcover Hsome.
  rewrite (load_simple_eq _ _ _ _ _ _ _ _ _ gl ne b) by assumption.
  rewrite loadSimple_eq; [|exact Hne|exact Hcover|exact Hsome|intros [? [=]]].
  rewrite Hdec. eexists. split; [reflexivity|].
  apply decodeSimple_facts in Hdec as (Hlv & _).
  split; [reflexivity|]. split; [|repeat split; reflexivity].
  unfold afterSimple, ends. cbn [buf End elems setB set_B].
  rewrite Hlv, Z2Nat.id by exact Hne. f_equal. apply resizeEnd_take, Hne.
Qed.

(** X9. The errors that [Load] can return: one of the three that the
    loading code itself raises at the glyph asked for, or an error that
    the hinter's [init] or a hinting program returned.  The error that
    [load] raises for excessive compound glyph recursion is not among the
    three: no [Load] call passes it on. *)
Theorem Load_error_kinds {H} (f : Font) (scale i : Z) (h : option (Hinter H))
    (w w' : World H) (e : error) :
  Load f scale i h w = Ret (Some e) w' ->
  e = UnsupportedError "compound glyph transform vector" \/
  e = UnsupportedError "compound glyph scale/transform" \/
  e = UnsupportedError "negative number of contours" \/
  exists hh, h = Some hh /\
    (h_init hh f scale (resetWorld w) = Ret (Some e) w' \/
     exists program w0, h_run hh program w0 = Ret (Some e) w').
Proof.
  rewrite Load_eq.
  destruct (initHinter h f scale (resetWorld w)) as [[e0|] w1| |] eqn:Ei;
    try discriminate.
  { intros [= <- <-]. destruct h as [hh|]; [|discriminate].
    right. right. right. exists hh. split; [reflexivity|]. left. exact Ei. }
  unfold load_fuel. rewrite load_eq. cbn [Z.geb Z.compare].
  destruct (glyphRange f i) as [[g0 g1]|]; [|discriminate].
  destruct (g0 =? g1); [discriminate|].
  destruct (subslice (glyf f) g0 g1) as [gl|]; [|discriminate].
  destruct (readHeader (elems gl)) as [[ne b]|]; [|discriminate].
  cbv zeta. destruct (ne =? -1).
  - destruct (loadCompound _ _ _ _ _ _ _ _ _ _) as [[e0|] w2| |] eqn:E;
      try discriminate.
    intros [= <- _]. apply loadCompound_loop_own_errors in E. tauto.
  - destruct (ne <? 0); [intros [= <- _]; tauto|].
    destruct (loadSimple _ _ _ _ _ _ _ _ _ _) as [[e0|] w2| |] eqn:E;
      try discriminate.
    intros [= <- <-]. apply loadSimple_error in E as (hh & program & w0 & -> & E).
    right. right. right. exists hh. split; [reflexivity|]. right. eauto.
Qed.

(** X10. A glyph whose header gives a contour count below -1 makes
    [Load] return the error for a negative number of contours, with no
    hinter or after a hinter's [init] that returns nil; the buffer is left
    with the header's bounds in [B], not scaled, and otherwise as [init]
    left it. *)
Theorem Load_negative_contours {H} (f : Font) (scale i : Z)
    (h : option (Hinter H)) (gl : slice byte) (ne : Z) (b : Bounds)
    (w w1 : World H) :
  glyphData f i = Some gl -> readHeader (elems gl) = Some (ne, b) -> ne < -1 ->
  initHinter h f scale (resetWorld w) = Ret None w1 ->
  Load f scale i h w =
  Ret (Some (UnsupportedError "negative number of contours")) (setB b w1).
Proof.
  intros Hgl Hhd Hne Hinit. rewrite Load_eq, Hinit. unfold load_fuel.
  rewrite load_eq. cbn [Z.geb Z.compare].
  apply glyphData_inv in Hgl as (g0 & g1 & -> & -> & ->). rewrite Hhd. cbv zeta.
  destruct (Z.eqb_spec ne (-1)); [lia|].
  destruct (Z.ltb_spec ne 0); [reflexivity|lia].
Qed.

(** X11. [Load] does not check the glyph index against the [loca] table:
    an index whose entry and the next are not both inside the table (two
    bytes per entry in the short format, four in the long) makes it panic,
    with no hinter or after a hinter's [init] that returns nil. *)
Theorem Load_index_past_loca_panics {H} (f : Font) (scale i : Z)
    (h : option (Hinter H)) (w w1 : World H) :
  initHinter h f scale (resetWorld w) = Ret None w1 ->
  Z.of_nat (length (loca f)) <
    match locaOffsetFormat f with
    | locaOffsetFormatShort => 2
    | locaOffsetFormatLong => 4
    end * (i + 2) ->
  Load f scale i h w = Panic.
Proof.
  intros Hinit Hlen. rewrite Load_eq, Hinit. unfold load_fuel.
  rewrite load_eq. cbn [Z.geb Z.compare].
  assert (Hr : glyphRange f i = None).
  { unfold glyphRange. destruct (locaOffsetFormat f).
    - destruct (u16 (loca f) (2 * i)) as [a|]; [|reflexivity].
      cbn [mbind option_bind]. rewrite (u16_None (loca f) (2 * i + 2)); [reflexivity|].
      right. apply index_None. lia.
    - destruct (u32 (loca f) (4 * i)) as [a|]; [|reflexivity].
      cbn [mbind option_bind]. rewrite u32_out_of_range; [reflexivity|]. lia. }
  rewrite Hr. reflexivity.
Qed.

(** X12. [Load] never takes capacity from [End]: with no hinter or one
    that leaves [End] as it is, the capacity of [End] after a call that
    returns is at least what it was before, so a buffer that is used again
    keeps its storage. *)
Theorem Load_keeps_End_capacity {H} (f : Font) (scale i : Z)
    (h : option (Hinter H)) (w w' : World H) (r : option error) :
  hinter_keeps h -> Load f scale i h w = Ret r w' ->
  cap (End (buf w)) <= cap (End (buf w')).
Proof.
  intros Hh Hr.
  eapply (Load_invariant (fun w0 => cap (End (buf w)) <= cap (End (buf w0))));
    [| | |exact Hr].
  - intros b w0 Hw0. exact Hw0.
  - intros gl ne dx dy rd w0 r0 w0' Hne Hs Hw0.
    apply (loadSimple_contours _ _ _ _ _ _ _ _ _ _ _ _ Hh) in Hs as [Hc _];
      [lia|exact Hne].
  - intros r0 w1 Hi. apply (initHinter_keeps _ _ _ _ _ _ Hh) in Hi as [HE _].
    rewrite HE. unfold cap, backing. cbn [elems spare app]. lia.
Qed.

Section Appends.
Context {H : Type}.
Implicit Types (w : World H).

Lemma loadSimple_appends f scale gl ne dx dy roundDxDy w r w' :
  0 <= ne -> loadSimple f scale None gl ne 10 dx dy roundDxDy w = Ret r w' ->
  ends_cover w -> exists l, pts w' = pts w ++ l.
Proof.
  intros Hne Hr Hcover.
  destruct (decide (0 < ne \/ ends w <> [])) as [Hsome|Hnone].
  - rewrite loadSimple_eq in Hr; [|exact Hne|exact Hcover|exact Hsome|intros [? [=]]].
    destruct (decodeSimple gl ne) as [[[vs program] raw]|]; [|discriminate].
    injection Hr as _ <-. eexists. reflexivity.
  - assert (ne = 0) as -> by lia.
    rewrite loadSimple_zero_panics in Hr; [discriminate|].
    destruct (ends w); [reflexivity|]. exfalso. apply Hnone. right. discriminate.
Qed.

End Appends.

(** X13. Without a hinter, [load] of any glyph, simple or compound, into
    a buffer whose last [End] entry is [len(Point)] only adds points: when
    it returns, the points that were in [Point] are still there, unchanged
    and in their places, before whatever the glyph and its components
    added. *)
Theorem load_only_appends_points {H} (fuel : nat) (f : Font)
    (scale i dx dy : Z) (roundDxDy : bool) (recursion : Z)
    (w w' : World H) (r : option error) :
  default 0 (last (ends w)) = plen w ->
  load fuel f scale i None dx dy roundDxDy recursion w = Ret r w' ->
  exists l, pts w' = pts w ++ l.
Proof.
  intros Hcover Hr.
  assert (HP : ends_cover w' /\ exists l, pts w' = pts w ++ l);
    [|exact (proj2 HP)].
  eapply (load_invariant (fun w0 => ends_cover w0 /\ exists l, pts w0 = pts w ++ l));
    [| |exact Hr|].
  - intros b w0 Hw0. exact Hw0.
  - intros gl ne dx' dy' rd w0 r0 w0' Hne Hs [Hc0 [l0 Hl0]]. split.
    + eapply (loadSimple_cover _ _ None); [intros hh [=]|exact Hne|exact Hs].
    + destruct (loadSimple_appends _ _ _ _ _ _ _ _ _ _ Hne Hs Hc0) as [l1 Hl1].
      exists (l0 ++ l1). rewrite Hl1, Hl0, app_assoc. reflexivity.
  - split; [exact Hcover|]. exists []. rewrite app_nil_r. reflexivity.
Qed.

(** ** A compound glyph made of simple glyphs *)

Lemma simpleGlyph_inv f i b vs raw :
  simpleGlyph f i = Some (b, vs, raw) ->
  exists gl ne program,
    glyphData f i = Some gl /\ readHeader (elems gl) = Some (ne, b) /\ 0 < ne /\
    decodeSimple gl ne = Some (vs, program, raw).
Proof.
  unfold simpleGlyph. destruct (glyphData f i) as [gl|] eqn:Egl; [|discriminate].
  cbn [mbind option_bind].
  destruct (readHeader (elems gl)) as [[ne b0]|] eqn:Ehd; [|discriminate].
  cbn [mbind option_bind fst snd].
  destruct (Z.ltb_spec 0 ne) as [Hne|]; [|discriminate].
  destruct (decodeSimple gl ne) as [[[vs0 program] raw0]|] eqn:Edec; [|discriminate].
  cbn [mbind option_bind fst snd]. intros [= <- <- <-].
  exists gl, ne, program. auto.
Qed.

Lemma afterSimple_End_fits {H} f scale dx dy roundDxDy hinted vs raw (w : World H) :
  Z.of_nat (length vs) + len (End (buf w)) <= cap (End (buf w)) ->
  ends (afterSimple f scale dx dy roundDxDy hinted vs raw w) =
    ends w ++ ((fun v => 1 + plen w + v) <$> vs) /\
  cap (End (buf (afterSimple f scale dx dy roundDxDy hinted vs raw w))) =
    cap (End (buf w)).
Proof.
  intros Hfit. unfold afterSimple, ends. cbn [buf End elems].
  pose proof (resizeEnd_take (End (buf w)) (Z.of_nat (length vs)) ltac:(lia)) as Ht.
  destruct (Z.leb_spec (Z.of_nat (length vs) + len (End (buf w))) (cap (End (buf w))))
    as [_|Hgt]; [|lia].
  rewrite Ht. split; [reflexivity|].
  unfold cap at 1, backing at 1. cbn [elems spare].
  rewrite !length_app, length_fmap. unfold resizeEnd.
  destruct (Z.leb_spec (Z.of_nat (length vs) + len (End (buf w))) (cap (End (buf w))))
    as [_|Hgt]; [|lia].
  cbn [spare]. rewrite length_drop. unfold cap, len in *. lia.
Qed.

Section CompoundOfSimple.
Context {H : Type}.
Implicit Types (w : World H).

(** A simple glyph with a contour, loaded as a component without a
    hinter. *)
Lemma load_simple_component (fuel : nat) f scale i dx dy roundDxDy recursion
    b vs raw w :
  recursion < 4 -> simpleGlyph f i = Some (b, vs, raw) -> ends_cover w ->
  exists w',
    load (S fuel) f scale i None dx dy roundDxDy recursion w = Ret None w' /\
    pts w' = pts w ++ (scaledPoint f scale dx dy roundDxDy <$> raw) /\
    B (buf w') = b /\ ends_cover w' /\
    Unhinted (buf w') = Unhinted (buf w) /\
    InFontUnits (buf w') = InFontUnits (buf w) /\
    Twilight (buf w') = Twilight (buf w) /\
    (Z.of_nat (length vs) + len (End (buf w)) <= cap (End (buf w)) ->
     ends w' = ends w ++ ((fun v => 1 + plen w + v) <$> vs) /\
     cap (End (buf w')) = cap (End (buf w))).
Proof.
  intros Hrec Hs Hcover.
  apply simpleGlyph_inv in Hs as (gl & ne & program & Hgl & Hhd & Hne & Hdec).
  rewrite (load_simple_eq _ _ _ _ _ _ _ _ _ gl ne b) by (assumption || lia).
  destruct (loadSimple f scale None gl ne 10 dx dy roundDxDy (setB b w))
    as [r w'| |] eqn:E.
  - assert (Hne0 : 0 <= ne) by lia.
    pose proof (loadSimple_cover _ _ None _ _ _ _ _ _ _ _ _
                  no_hinter_keeps Hne0 E) as Hc'.
    rewrite loadSimple_eq in E;
      [|lia|exact Hcover|left; exact Hne|intros [? [=]]].
    rewrite Hdec in E. injection E as <- <-.
    eexists. split; [reflexivity|]. split; [reflexivity|]. split; [reflexivity|].
    split; [exact Hc'|]. split; [reflexivity|]. split; [reflexivity|].
    split; [reflexivity|].
    apply (afterSimple_End_fits f scale dx dy roundDxDy false vs raw (setB b w)).
  - rewrite loadSimple_eq in E;
      [|lia|exact Hcover|left; exact Hne|intros [? [=]]].
    rewrite Hdec in E. discriminate.
  - rewrite loadSimple_eq in E;
      [|lia|exact Hcover|left; exact Hne|intros [? [=]]].
    rewrite Hdec in E. discriminate.
Qed.

Lemma loadCompound_loop_simple (fuel n : nat) f scale glyf dx dy recursion :
  recursion + 1 < 4 ->
  forall offset w cs parts,
  componentRecords n glyf offset dx dy = Some cs ->
  Forall2 (fun c part => simpleGlyph f (c_glyph c) = Some part) cs parts ->
  ends_cover w ->
  exists w',
    loadCompound_loop (load (S fuel)) n f scale None glyf offset dx dy recursion w
    = Ret None w' /\
    pts w' = pts w ++ concat (zip_with (componentPoints f scale) cs parts) /\
    B (buf w') = compoundBounds (B (buf w)) cs parts /\
    Unhinted (buf w') = Unhinted (buf w) /\
    InFontUnits (buf w') = InFontUnits (buf w) /\
    Twilight (buf w') = Twilight (buf w) /\
    (len (End (buf w)) + Z.of_nat (length (compoundEnds (plen w) parts))
       <= cap (End (buf w)) ->
     ends w' = ends w ++ compoundEnds (plen w) parts /\
     cap (End (buf w')) = cap (End (buf w))).
Proof.
  intros Hrec. induction n as [|n IH]; intros offset w cs parts Hcs Hparts Hcover;
    [discriminate|].
  cbn [componentRecords] in Hcs. rewrite loadCompound_loop_eq.
  destruct (readComponent glyf offset dx dy) as [[[[[fl c] dx1] dy1] off']|];
    [|discriminate].
  cbn [mbind option_bind] in Hcs.
  destruct (negb (has fl flagArgsAreXYValues)); [discriminate|].
  destruct (has fl transformBits); [discriminate|].
  cbn [orb] in Hcs. cbv zeta in Hcs.
  assert (Hfirst : exists cs' part parts',
            cs = mkComponent fl c dx1 dy1 :: cs' /\ parts = part :: parts' /\
            simpleGlyph f c = Some part /\
            Forall2 (fun c part => simpleGlyph f (c_glyph c) = Some part) cs' parts' /\
            if has fl flagMoreComponents
            then componentRecords n glyf off' dx dy = Some cs'
            else cs' = []).
  { destruct (has fl flagMoreComponents).
    - destruct (componentRecords n glyf off' dx dy) as [rest|]; [|discriminate].
      injection Hcs as <-. inversion Hparts as [|? part ? parts' Hp Hrest]; subst.
      eauto 10.
    - injection Hcs as <-. inversion Hparts as [|? part ? parts' Hp Hrest]; subst.
      eauto 10. }
  destruct Hfirst as (cs' & [[b1 vs1] raw1] & parts' & -> & -> & Hp & Hrest & Hmore).
  destruct (load_simple_component fuel f scale c dx1 dy1 (has fl flagRoundXYToGrid)
              (recursion + 1) b1 vs1 raw1 w Hrec Hp Hcover)
    as (w1 & -> & Hpts1 & HB1 & Hc1 & Hu1 & Hi1 & Ht1 & He1).
  cbv zeta.
  set (w2 := if has fl flagUseMyMetrics then w1 else setB (B (buf w)) w1).
  assert (Hw2 : pts w2 = pts w1 /\ ends_cover w2 /\
                B (buf w2) = componentBounds (B (buf w)) (mkComponent fl c dx1 dy1)
                               (b1, vs1, raw1) /\
                Unhinted (buf w2) = Unhinted (buf w1) /\
                InFontUnits (buf w2) = InFontUnits (buf w1) /\
                Twilight (buf w2) = Twilight (buf w1) /\
                End (buf w2) = End (buf w1)).
  { unfold w2, componentBounds. cbn [c_flags fst].
    destruct (has fl flagUseMyMetrics); repeat split; try assumption. }
  destruct Hw2 as (Hpts2 & Hc2 & HB2 & Hu2 & Hi2 & Ht2 & He2).
  assert (Hplen2 : plen w2 = plen w + Z.of_nat (length raw1)).
  { rewrite !plen_pts, Hpts2, Hpts1, length_app, length_fmap. lia. }
  cbn [zip_with concat compoundBounds compoundEnds fst snd].
  destruct (has fl flagMoreComponents).
  - destruct (IH off' w2 cs' parts' Hmore Hrest Hc2)
      as (w' & -> & Hpts' & HB' & Hu' & Hi' & Ht' & He').
    exists w'. split; [reflexivity|].
    rewrite Hpts', Hpts2, Hpts1, HB', HB2, Hu', Hu2, Hu1, Hi', Hi2, Hi1, Ht', Ht2, Ht1.
    rewrite <- app_assoc. do 5 (split; [reflexivity|]).
    rewrite length_app, length_fmap. intros Hfit.
    destruct He1 as [He1 Hcap1]; [lia|].
    assert (Hends2 : ends w2 = ends w1) by (unfold ends; rewrite He2; reflexivity).
    assert (Hcap2 : cap (End (buf w2)) = cap (End (buf w1)))
      by (rewrite He2; reflexivity).
    change (len (End (buf w2))) with (Z.of_nat (length (ends w2))) in He'.
    rewrite Hplen2, Hends2, Hcap2, Hcap1, He1 in He'.
    rewrite length_app, length_fmap in He'.
    destruct He' as [He' Hcap']; [revert Hfit; unfold len, ends; lia|].
    rewrite He', <- app_assoc. split; [reflexivity|exact Hcap'].
  - subst cs'. inversion Hrest; subst. exists w2. split; [reflexivity|].
    rewrite Hpts2, Hpts1, HB2, Hu2, Hu1, Hi2, Hi1, Ht2, Ht1.
    cbn [zip_with concat compoundBounds compoundEnds]. rewrite !app_nil_r.
    do 5 (split; [reflexivity|]).
    rewrite length_fmap. intros Hfit. unfold ends. rewrite He2. apply He1. lia.
Qed.

End CompoundOfSimple.

(** X14. [Load] of a compound glyph whose component records are all
    read and supported and whose components are simple glyphs with at least
    one contour, without a hinter: [Load] returns nil and leaves in [Point]
    the points of the components one after the other, in the order of the
    records, each component's points scaled with its own offset and
    rounding bit; [B] holds, scaled, the header bounds of the compound
    glyph, or of the last component whose record says "use my metrics";
    [Unhinted], [InFontUnits] and [Twilight] are empty; and when the
    contours of all components fit the capacity that [End] had, [End] holds
    the components' end indices, each moved by one plus the number of
    points before its component. *)
Theorem Load_compound_of_simple_glyphs {H} (f : Font) (scale i : Z)
    (gl : slice byte) (b : Bounds) (cs : list Component)
    (parts : list (Bounds * list Z * list Point)) (w : World H) :
  glyphData f i = Some gl -> readHeader (elems gl) = Some (-1, b) ->
  components (elems gl) = Some cs ->
  Forall2 (fun c part => simpleGlyph f (c_glyph c) = Some part) cs parts ->
  exists w',
    Load f scale i None w = Ret None w' /\
    pts w' = concat (zip_with (componentPoints f scale) cs parts) /\
    B (buf w') = scaleBounds f scale (compoundBounds b cs parts) /\
    Unhinted (buf w') = [] /\ InFontUnits (buf w') = [] /\ Twilight (buf w') = [] /\
    (Z.of_nat (length (compoundEnds 0 parts)) <= cap (End (buf w)) ->
     ends w' = compoundEnds 0 parts).
Proof.
  intros Hgl Hhd Hcs Hparts. rewrite Load_eq. cbn [initHinter ret].
  unfold load_fuel. rewrite load_eq. cbn [Z.geb Z.compare].
  apply glyphData_inv in Hgl as (g0 & g1 & -> & -> & ->). rewrite Hhd. cbv zeta.
  cbn [Z.eqb Pos.eqb]. unfold loadCompound.
  destruct (loadCompound_loop_simple 3 (S (length (elems gl))) f scale (elems gl) 0 0 0
              ltac:(lia) 10 (setB b (resetWorld w)) cs parts Hcs Hparts
              (ends_cover_reset b w))
    as (w' & -> & Hpts & HB & Hu & Hi & Ht & He).
  eexists. split; [reflexivity|].
  cbn [buf setB set_B B Unhinted InFontUnits Twilight].
  change (pts (setB _ w')) with (pts w'). change (ends (setB _ w')) with (ends w').
  rewrite Hpts, HB, Hu, Hi, Ht. do 5 (split; [reflexivity|]).
  intros Hfit. destruct He as [He _]; [|exact He].
  change (cap (End (buf (setB b (resetWorld w))))) with
    (cap (Slice (@nil Z) (backing (End (buf w))))).
  unfold cap at 1, backing at 1. cbn [elems spare app]. exact Hfit.
Qed.

(** ** The zones of the hinter *)

Section Zones.
Context {H : Type}.
Implicit Types (w : World H) (h : option (Hinter H)).

Lemma loadSimple_Ret_some_contour f scale h gl ne offset dx dy roundDxDy w r w' :
  0 <= ne -> loadSimple f scale h gl ne offset dx dy roundDxDy w = Ret r w' ->
  0 < ne \/ ends w <> [].
Proof.
  intros Hne Hr. destruct (decide (0 < ne)) as [Hpos|Hz]; [left; exact Hpos|].
  right. intros He. assert (ne = 0) as -> by lia.
  rewrite loadSimple_zero_panics in Hr by exact He. discriminate.
Qed.

(** Without a hinter, a simple glyph leaves the three zones as they
    are. *)
Lemma loadSimple_zones_untouched f scale gl ne dx dy roundDxDy w r w' :
  0 <= ne -> loadSimple f scale None gl ne 10 dx dy roundDxDy w = Ret r w' ->
  ends_cover w ->
  Unhinted (buf w') = Unhinted (buf w) /\
  InFontUnits (buf w') = InFontUnits (buf w) /\
  Twilight (buf w') = Twilight (buf w).
Proof.
  intros Hne Hr Hcover.
  pose proof (loadSimple_Ret_some_contour _ _ _ _ _ _ _ _ _ _ _ _ Hne Hr) as Hsome.
  rewrite loadSimple_eq in Hr; [|exact Hne|exact Hcover|exact Hsome|intros [? [=]]].
  destruct (decodeSimple gl ne) as [[[vs program] raw]|]; [|discriminate].
  injection Hr as _ <-. repeat split; reflexivity.
Qed.

(** With a hinter that keeps the zones aligned, a simple glyph does. *)
Lemma loadSimple_zones_aligned f scale hh gl ne dx dy roundDxDy w r w' :
  hinter_keeps_zones (Some hh) -> 0 <= ne ->
  loadSimple f scale (Some hh) gl ne 10 dx dy roundDxDy w = Ret r w' ->
  ends_cover w -> zones_aligned w -> zones_aligned w'.
Proof.
  intros Hz Hne Hr Hcover [Hi Hu].
  pose proof (loadSimple_Ret_some_contour _ _ _ _ _ _ _ _ _ _ _ _ Hne Hr) as Hsome.
  rewrite loadSimple_eq in Hr; [|exact Hne|exact Hcover|exact Hsome|intros _; exact Hi].
  destruct (decodeSimple gl ne) as [[[vs program] raw]|]; [|discriminate].
  destruct (Hz hh eq_refl) as [_ Hrun]. apply (Hrun _ _ _ _ Hr).
  unfold zones_aligned, afterSimple, pts. cbn [buf InFontUnits Unhinted Points elems].
  fold (pts w). rewrite !length_app, !length_fmap, Hi, Hu. split; reflexivity.
Qed.

End Zones.

(** X15. Without a hinter, [Load] of any glyph, simple or compound,
    leaves [Unhinted], [InFontUnits] and [Twilight] empty whenever it
    returns; so the twilight zone that [points] gives for zone 0 is empty,
    and every other zone is [Point]. *)
Theorem Load_without_hinter_zones_empty {H} (f : Font) (scale i : Z)
    (w w' : World H) (r : option error) :
  Load f scale i None w = Ret r w' ->
  Unhinted (buf w') = [] /\ InFontUnits (buf w') = [] /\ Twilight (buf w') = [] /\
  forall zonePointer,
    points (buf w') zonePointer = if zonePointer =? 0 then [] else pts w'.
Proof.
  intros Hr.
  assert (HP : ends_cover w' /\ Unhinted (buf w') = [] /\
               InFontUnits (buf w') = [] /\ Twilight (buf w') = []).
  { eapply (Load_invariant (fun w0 => ends_cover w0 /\ Unhinted (buf w0) = [] /\
                              InFontUnits (buf w0) = [] /\ Twilight (buf w0) = []));
      [| | |exact Hr].
    - intros b w0 Hw0. exact Hw0.
    - intros gl ne dx dy rd w0 r0 w0' Hne Hs (Hc & Hu & Hi & Ht). split.
      + eapply (loadSimple_cover _ _ None); [apply no_hinter_keeps|exact Hne|exact Hs].
      + destruct (loadSimple_zones_untouched _ _ _ _ _ _ _ _ _ _ Hne Hs Hc)
          as (-> & -> & ->). auto.
    - intros r0 w1 [= _ <-]. repeat split; reflexivity. }
  destruct HP as (_ & Hu & Hi & Ht). repeat split; try assumption.
  intros z. unfold points. rewrite Ht. reflexivity.
Qed.

(** X16. With a hinter that leaves [End] and the number of points as they
    are and keeps [InFontUnits] and [Unhinted] as long as [Point] when they
    are, [Load] of any glyph leaves the three with the same number of
    points whenever it returns, nil or an error: every simple glyph adds
    its points to all three. *)
Theorem Load_hinted_zones_aligned {H} (f : Font) (scale i : Z) (hh : Hinter H)
    (w w' : World H) (r : option error) :
  hinter_keeps (Some hh) -> hinter_keeps_zones (Some hh) ->
  Load f scale i (Some hh) w = Ret r w' ->
  length (InFontUnits (buf w')) = length (pts w') /\
  length (Unhinted (buf w')) = length (pts w').
Proof.
  intros Hk Hz Hr. change (zones_aligned w').
  assert (HP : ends_cover w' /\ zones_aligned w'); [|exact (proj2 HP)].
  eapply (Load_invariant (fun w0 => ends_cover w0 /\ zones_aligned w0));
    [| | |exact Hr].
  - intros b w0 Hw0. exact Hw0.
  - intros gl ne dx dy rd w0 r0 w0' Hne Hs [Hc Ha]. split.
    + eapply loadSimple_cover; [exact Hk|exact Hne|exact Hs].
    + eapply loadSimple_zones_aligned; eauto.
  - intros r0 w1 Hi. split.
    + apply (initHinter_keeps _ _ _ _ _ _ Hk) in Hi as [HE Hp].
      unfold ends_cover, ends. rewrite HE, Hp. reflexivity.
    + destruct (Hz hh eq_refl) as [Hinit _]. apply (Hinit _ _ _ _ _ Hi).
      split; reflexivity.
Qed.

(** ** The bounds of a compound glyph *)

Section CompoundBounds.
Context {H : Type}.
Implicit Types (w : World H) (h : option (Hinter H)).

Lemma loadCompound_loop_bounds (ld : loader H) (n : nat) f scale h glyf dx dy
    recursion :
  forall offset w cs r w',
  componentRecords n glyf offset dx dy = Some cs ->
  Forall (fun c => has (c_flags c) flagUseMyMetrics = false) cs ->
  loadCompound_loop ld n f scale h glyf offset dx dy recursion w = Ret r w' ->
  r = None /\ B (buf w') = B (buf w).
Proof.
  induction n as [|n IH]; intros offset w cs r w' Hcs Hno; [discriminate|].
  cbn [componentRecords] in Hcs. rewrite loadCompound_loop_eq.
  destruct (readComponent glyf offset dx dy) as [[[[[fl c] dx1] dy1] off']|];
    [|discriminate].
  cbn [mbind option_bind] in Hcs.
  destruct (negb (has fl flagArgsAreXYValues)); [discriminate|].
  destruct (has fl transformBits); [discriminate|].
  cbn [orb] in Hcs. cbv zeta in Hcs.
  assert (Hfl : has fl flagUseMyMetrics = false /\
                if has fl flagMoreComponents
                then exists cs', componentRecords n glyf off' dx dy = Some cs' /\
                       Forall (fun c => has (c_flags c) flagUseMyMetrics = false) cs'
                else True).
  { destruct (has fl flagMoreComponents).
    - destruct (componentRecords n glyf off' dx dy) as [rest|]; [|discriminate].
      injection Hcs as <-. inversion Hno; subst. split; [assumption|]. eauto.
    - injection Hcs as <-. inversion Hno; subst. split; [assumption|exact I]. }
  destruct Hfl as [Huse Hmore].
  destruct (ld f scale c h dx1 dy1 _ _ w) as [r1 w1| |]; try discriminate.
  cbv zeta. rewrite Huse.
  destruct (has fl flagMoreComponents).
  - destruct Hmore as (cs' & Hcs' & Hno'). intros Hr.
    apply (IH _ _ _ _ _ Hcs' Hno') in Hr as [-> ->]. split; reflexivity.
  - intros [= <- <-]. split; reflexivity.
Qed.

End CompoundBounds.

(** X17. [Load] of a compound glyph whose component records are all read
    and supported and none of which says "use my metrics", with no hinter
    or after a hinter's [init] that returns nil: whenever [Load] returns, it
    returns nil and [B] holds the compound glyph's own header bounds,
    scaled, whatever the components are and whether or not their loads
    failed. *)
Theorem Load_compound_bounds {H} (f : Font) (scale i : Z) (h : option (Hinter H))
    (gl : slice byte) (b : Bounds) (cs : list Component) (w w1 w' : World H)
    (r : option error) :
  glyphData f i = Some gl -> readHeader (elems gl) = Some (-1, b) ->
  components (elems gl) = Some cs ->
  Forall (fun c => has (c_flags c) flagUseMyMetrics = false) cs ->
  initHinter h f scale (resetWorld w) = Ret None w1 ->
  Load f scale i h w = Ret r w' ->
  r = None /\ B (buf w') = scaleBounds f scale b.
Proof.
  intros Hgl Hhd Hcs Hno Hinit. rewrite Load_eq, Hinit. unfold load_fuel.
  rewrite load_eq. cbn [Z.geb Z.compare].
  apply glyphData_inv in Hgl as (g0 & g1 & -> & -> & ->). rewrite Hhd. cbv zeta.
  cbn [Z.eqb Pos.eqb]. unfold loadCompound.
  destruct (loadCompound_loop _ _ _ _ _ _ _ _ _ _ _) as [r2 w2| |] eqn:E;
    try discriminate.
  apply (loadCompound_loop_bounds _ _ _ _ _ _ _ _ _ _ _ _ _ _ Hcs Hno) in E
    as [-> HB].
  intros [= <- <-]. split; [reflexivity|]. cbn [buf setB set_B B] in *.
  rewrite HB. reflexivity.
Qed.

(** ** When [End] is re-allocated *)

Section EndCapacity.
Context {H : Type}.
Implicit Types (w : World H) (h : option (Hinter H)).

Lemma resizeEnd_cap_eq (e : slice Z) (ne : Z) :
  0 <= ne ->
  cap (resizeEnd e ne) = if ne <=? cap e then cap e else 2 * ne.
Proof.
  intros Hne. unfold resizeEnd. destruct (Z.leb_spec ne (cap e)) as [Hle|Hgt].
  - unfold cap at 1, backing at 1. cbn [elems spare]. rewrite take_drop. reflexivity.
  - unfold cap at 1, backing, make. cbn [elems spare].
    rewrite length_app, !length_replicate. lia.
Qed.

Lemma loadSimple_End_cap f scale h gl ne offset dx dy roundDxDy w r w' :
  hinter_keeps h -> 0 <= ne ->
  loadSimple f scale h gl ne offset dx dy roundDxDy w = Ret r w' ->
  len (End (buf w')) = ne + len (End (buf w)) /\
  cap (End (buf w')) =
    if ne + len (End (buf w)) <=? cap (End (buf w)) then cap (End (buf w))
    else 2 * (ne + len (End (buf w))).
Proof.
  intros Hh Hne Hr.
  destruct (loadSimple_shape _ _ _ _ _ _ _ _ _ _ _ _ Hh Hne Hr)
    as (vs & Hvs & HE & _).
  cbv zeta in HE. apply readU16s_length in Hvs.
  set (ne' := ne + len (End (buf w))) in *.
  assert (Hne' : 0 <= ne') by (unfold ne', len; lia).
  pose proof (resizeEnd_length (End (buf w)) ne' Hne') as Hl1.
  pose proof (resizeEnd_cap_eq (End (buf w)) ne' Hne') as Hc1.
  assert (Hlen : length (take (length (ends w)) (elems (resizeEnd (End (buf w)) ne'))
                         ++ ((fun v => 1 + plen w + v) <$> vs)) = Z.to_nat ne').
  { rewrite length_app, length_take, length_fmap, Hl1, Hvs.
    unfold ne', len, ends. lia. }
  rewrite HE. split.
  - unfold len. cbn [elems]. rewrite Hlen. lia.
  - rewrite <- Hc1. unfold cap, backing. cbn [elems spare].
    rewrite !length_app, Hl1. rewrite length_app in Hlen. lia.
Qed.

End EndCapacity.

(** X18. [End] is re-allocated only when it must be: with no hinter or
    one that leaves [End] as it is, when the entries that [End] holds after
    a [Load] call fit the capacity it had before the call, its capacity is
    what it was: the call made no new [End] array. *)
Theorem Load_End_within_capacity {H} (f : Font) (scale i : Z)
    (h : option (Hinter H)) (w w' : World H) (r : option error) :
  hinter_keeps h -> Load f scale i h w = Ret r w' ->
  len (End (buf w')) <= cap (End (buf w)) ->
  cap (End (buf w')) = cap (End (buf w)).
Proof.
  intros Hh Hr Hfit.
  assert (HQ : (cap (End (buf w')) = cap (End (buf w)) /\
                len (End (buf w')) <= cap (End (buf w))) \/
               cap (End (buf w)) < len (End (buf w'))).
  { eapply (Load_invariant
              (fun w0 => (cap (End (buf w0)) = cap (End (buf w)) /\
                          len (End (buf w0)) <= cap (End (buf w))) \/
                         cap (End (buf w)) < len (End (buf w0))));
      [| | |exact Hr].
    - intros b w0 Hw0. exact Hw0.
    - intros gl ne dx dy rd w0 r0 w0' Hne Hs Hw0.
      apply (loadSimple_End_cap _ _ _ _ _ _ _ _ _ _ _ _ Hh Hne) in Hs as [Hl Hc].
      rewrite Hl, Hc.
      destruct (Z.leb_spec (ne + len (End (buf w0))) (cap (End (buf w0))));
        destruct Hw0 as [[Hc0 Hl0]|Hover]; lia.
    - intros r0 w1 Hi. apply (initHinter_keeps _ _ _ _ _ _ Hh) in Hi as [HE _].
      left. rewrite HE. unfold cap, len, backing. cbn [elems spare app length].
      split; lia. }
  destruct HQ as [[Hc _]|Hover]; [exact Hc|lia].
Qed.

(** ** The further properties, on concrete inputs *)

(** The triangle, loaded into a new buffer with the scale 64. *)
Lemma Load_simple_glyph_witness :
  exists w', Load triangleFont 64 0 None fresh = Ret None w' /\
    ends w' = [3] /\
    pts w' = [mkPoint 640 0 55; mkPoint 576 114880 1; mkPoint 512 114880 35] /\
    B (buf w') = mkBounds 64 128 192 256.
Proof.
  pose proof (Load_simple_glyph triangleFont 64 0 triangleGlyph 1 (mkBounds 1 2 3 4)
                fresh ltac:(vm_compute; reflexivity) ltac:(vm_compute; reflexivity)
                ltac:(lia)) as Hw.
  remember (decodeSimple triangleGlyph 1) as r eqn:E. vm_compute in E. subst r.
  destruct Hw as (w' & HL & He & Hp & HB & _).
  exists w'. split; [exact HL|]. split; [rewrite He; reflexivity|].
  split; [rewrite Hp; vm_compute; reflexivity|].
  rewrite HB. vm_compute. reflexivity.
Defined.

(** The triangle, loaded with a hinter that does nothing: the program
    sees the raw points in [InFontUnits] and the scaled ones in [Point] and
    [Unhinted]. *)
Lemma Load_simple_glyph_hinted_witness :
  exists w2,
    InFontUnits (buf w2) = [mkPoint 10 0 55; mkPoint 9 1795 1; mkPoint 8 1795 35] /\
    pts w2 = [mkPoint 640 0 55; mkPoint 576 114880 1; mkPoint 512 114880 35] /\
    Unhinted (buf w2) = pts w2 /\
    Load triangleFont 64 0 (Some idleHinter) fresh =
    Ret None (setB (mkBounds 64 128 192 256) w2).
Proof.
  destruct (Load_simple_glyph_hinted triangleFont 64 0 triangleGlyph 1
              (mkBounds 1 2 3 4) [2]
              (Slice [] (bytes [55; 1; 35; 10; 255; 255; 1; 0; 7; 3]))
              [mkPoint 10 0 55; mkPoint 9 1795 1; mkPoint 8 1795 35]
              idleHinter fresh (resetWorld fresh)
              ltac:(vm_compute; reflexivity) ltac:(vm_compute; reflexivity)
              ltac:(lia) ltac:(vm_compute; reflexivity) eq_refl
              eq_refl eq_refl eq_refl eq_refl)
    as (w2 & _ & Hi & Hp & Hu & HB & _ & _ & HL).
  exists w2. split; [exact Hi|]. split; [rewrite Hp; vm_compute; reflexivity|].
  split; [exact Hu|]. rewrite HL. cbn [idleHinter h_run ret]. rewrite HB.
  vm_compute scaleBounds. reflexivity.
Defined.

(** The glyph with a header and no contour. *)
Lemma Load_zero_contours_panics_witness :
  Load blankFont 64 0 noHinter fresh = Panic.
Proof.
  apply (Load_zero_contours_panics blankFont 64 0 noHinter
           (Slice (bytes [0; 0; 0; 1; 0; 2; 0; 3; 0; 4; 0; 0]) [])
           (mkBounds 1 2 3 4) fresh (resetWorld fresh));
    vm_compute; reflexivity.
Defined.

(** Three points: a run of two with the flag 9, then the flag 0. *)
Lemma decodeFlags_expands_stream_witness :
  decodeFlags (bytes [9; 1; 0]) 0 0 threeFlagged =
  Ret 3 (set_pts [mkPoint 5 5 9; mkPoint 5 5 9; mkPoint 5 5 0] threeFlagged).
Proof.
  pose proof (decodeFlags_expands_stream (bytes [9; 1; 0]) 0 0 threeFlagged
                ltac:(lia)) as Hw.
  remember (flagStream (bytes [9; 1; 0]) 0 (Z.to_nat (plen threeFlagged - 0)))
    as r eqn:E.
  vm_compute in E. subst r. destruct Hw as [Hw _]. rewrite Hw.
  vm_compute. reflexivity.
Defined.

(** The triangle's coordinates: its flags ask for 4 + 3 bytes, and the
    stream has seven. *)
Lemma decodeCoords_consumes_witness :
  exists w', decodeCoords triangleStream 0 0 threeFlagged = Ret 7 w'.
Proof.
  apply (proj1 (decodeCoords_consumes triangleStream 0 0 threeFlagged
                  ltac:(lia) ltac:(vm_compute; split; discriminate))).
  vm_compute. discriminate.
Defined.

(** The second point of the triangle, whose X delta is the two bytes
    255, 255. *)
Lemma decodeCoords_int16_range_witness :
  let p := mkPoint 9 1795 1 in
  index (pts (world_of (decodeCoords triangleStream 0 0 threeFlagged))) 1 = Some p /\
  (-32768 <= X p < 32768) /\ (-32768 <= Y p < 32768).
Proof.
  split; [vm_compute; reflexivity|].
  exact (decodeCoords_int16_range triangleStream 0 0 threeFlagged
           (world_of (decodeCoords triangleStream 0 0 threeFlagged)) 7 1
           (mkPoint 9 1795 1) ltac:(lia) ltac:(vm_compute; reflexivity)
           ltac:(lia) ltac:(vm_compute; reflexivity)).
Defined.

(** The glyph with the contour ends 5 and 3: [End] is 6, 4 and there are
    four points. *)
Lemma Load_last_end_is_point_count_witness :
  default 0 (last (ends (world_of (Load badEndsFont 64 0 noHinter fresh)))) =
  plen (world_of (Load badEndsFont 64 0 noHinter fresh)).
Proof.
  apply (Load_last_end_is_point_count badEndsFont 64 0 noHinter fresh
           (world_of (Load badEndsFont 64 0 noHinter fresh)) None no_hinter_keeps).
  vm_compute. reflexivity.
Defined.

(** The dot, loaded as a component moved by (1, 1) after one contour of
    one point, into an [End] without room: the point is kept, the end index
    1 that was there is 0 afterwards. *)
Lemma load_component_appends_witness :
  exists w',
    load 1 chainFont 64 4 None 1 1 false 1 oneContour = Ret None w' /\
    pts w' = [mkPoint 100 200 1; mkPoint 64 64 49] /\ ends w' = [0; 2].
Proof.
  destruct (load_component_appends 0 chainFont 64 4 1 1 false 1 dotBytes 1
              (mkBounds 1 2 3 4) [0] (Slice [] (bytes [49; 0])) [mkPoint 0 0 49]
              oneContour ltac:(lia) ltac:(vm_compute; reflexivity)
              ltac:(vm_compute; reflexivity) ltac:(lia)
              ltac:(vm_compute; reflexivity) eq_refl ltac:(left; lia))
    as (w' & HL & Hp & He & _).
  exists w'. split; [exact HL|]. split; [rewrite Hp|rewrite He]; vm_compute; reflexivity.
Defined.

(** The compound glyph whose component record is not an XY translation. *)
Lemma Load_error_kinds_witness :
  let e := UnsupportedError "compound glyph transform vector" in
  e = UnsupportedError "compound glyph transform vector" \/
  e = UnsupportedError "compound glyph scale/transform" \/
  e = UnsupportedError "negative number of contours" \/
  exists hh, noHinter = Some hh /\
    (h_init hh nestedFont 64 (resetWorld fresh) =
       Ret (Some e) (world_of (Load nestedFont 64 1 noHinter fresh)) \/
     exists program w0,
       h_run hh program w0 =
       Ret (Some e) (world_of (Load nestedFont 64 1 noHinter fresh))).
Proof.
  exact (Load_error_kinds nestedFont 64 1 noHinter fresh
           (world_of (Load nestedFont 64 1 noHinter fresh))
           (UnsupportedError "compound glyph transform vector")
           ltac:(vm_compute; reflexivity)).
Defined.

(** The glyph with the contour count -2. *)
Lemma Load_negative_contours_witness :
  Load negativeFont 64 1 noHinter fresh =
  Ret (Some (UnsupportedError "negative number of contours"))
      (setB (mkBounds 1 2 3 4) (resetWorld fresh)).
Proof.
  apply (Load_negative_contours negativeFont 64 1 noHinter
           (Slice (bytes [255; 254; 0; 1; 0; 2; 0; 3; 0; 4]) (bytes dotGlyph))
           (-2) (mkBounds 1 2 3 4) fresh (resetWorld fresh));
    [vm_compute; reflexivity|vm_compute; reflexivity|lia|reflexivity].
Defined.

(** Glyph 1 of a font whose [loca] has the two entries of glyph 0. *)
Lemma Load_index_past_loca_panics_witness :
  Load emptyFont 64 1 noHinter fresh = Panic.
Proof.
  apply (Load_index_past_loca_panics emptyFont 64 1 noHinter fresh
           (resetWorld fresh) eq_refl).
  vm_compute. reflexivity.
Defined.

(** The triangle, loaded into the buffer of [NewGlyphBuf]: [End] keeps its
    capacity of 32. *)
Lemma Load_keeps_End_capacity_witness :
  32 <= cap (End (buf (world_of (Load triangleFont 64 0 noHinter fresh)))).
Proof.
  apply (Load_keeps_End_capacity triangleFont 64 0 noHinter fresh
           (world_of (Load triangleFont 64 0 noHinter fresh)) None no_hinter_keeps).
  vm_compute. reflexivity.
Defined.

(** The chain of compound glyphs from glyph 3, loaded after one contour
    of one point. *)
Lemma load_only_appends_points_witness :
  exists l,
    pts (world_of (load 2 chainFont 64 3 None 0 0 false 0 oneContour)) =
    pts oneContour ++ l.
Proof.
  apply (load_only_appends_points 2 chainFont 64 3 0 0 false 0 oneContour
           (world_of (load 2 chainFont 64 3 None 0 0 false 0 oneContour)) None
           eq_refl).
  vm_compute. reflexivity.
Defined.

(** The compound glyph made of two dots, loaded into the buffer of
    [NewGlyphBuf]. *)
Lemma Load_compound_of_simple_glyphs_witness :
  exists w',
    Load pairFont 64 0 None fresh = Ret None w' /\
    pts w' = [mkPoint 64 64 49; mkPoint 128 192 49] /\
    B (buf w') = mkBounds 320 384 448 512 /\
    ends w' = [1; 2].
Proof.
  destruct (Load_compound_of_simple_glyphs pairFont 64 0 pairGlyph (mkBounds 9 9 9 9)
              [mkComponent 34 1 1 1; mkComponent 514 2 2 3] pairParts fresh
              ltac:(vm_compute; reflexivity) ltac:(vm_compute; reflexivity)
              ltac:(vm_compute; reflexivity)
              ltac:(repeat constructor; vm_compute; reflexivity))
    as (w' & HL & Hp & HB & _ & _ & _ & He).
  exists w'. split; [exact HL|]. split; [rewrite Hp; vm_compute; reflexivity|].
  split; [rewrite HB; vm_compute; reflexivity|].
  rewrite He; [reflexivity|vm_compute; discriminate].
Defined.

(** The compound glyph made of two dots: nothing for the hinter, and
    zone 1 is [Point]. *)
Lemma Load_without_hinter_zones_empty_witness :
  points (buf (world_of (Load pairFont 64 0 None fresh))) 0 = [] /\
  points (buf (world_of (Load pairFont 64 0 None fresh))) 1 =
  [mkPoint 64 64 49; mkPoint 128 192 49].
Proof.
  destruct (Load_without_hinter_zones_empty pairFont 64 0 fresh
              (world_of (Load pairFont 64 0 None fresh)) None
              ltac:(vm_compute; reflexivity)) as (_ & _ & _ & Hz).
  split; [exact (Hz 0)|]. rewrite (Hz 1). vm_compute. reflexivity.
Defined.

Lemma idleHinter_keeps : hinter_keeps (Some idleHinter).
Proof.
  intros hh [= <-]. split; intros; intros w a w' [= _ <-]; split; reflexivity.
Qed.

Lemma idleHinter_keeps_zones : hinter_keeps_zones (Some idleHinter).
Proof.
  intros hh [= <-]. split.
  - intros f scale w r w' [= _ <-] Ha. exact Ha.
  - intros program w r w' [= _ <-] Ha. exact Ha.
Qed.

(** The triangle, loaded with the hinter that does nothing: three points
    in each. *)
Lemma Load_hinted_zones_aligned_witness :
  length (InFontUnits (buf (world_of (Load triangleFont 64 0 (Some idleHinter) fresh)))) =
  length (pts (world_of (Load triangleFont 64 0 (Some idleHinter) fresh))) /\
  length (Unhinted (buf (world_of (Load triangleFont 64 0 (Some idleHinter) fresh)))) =
  length (pts (world_of (Load triangleFont 64 0 (Some idleHinter) fresh))).
Proof.
  apply (Load_hinted_zones_aligned triangleFont 64 0 idleHinter fresh
           (world_of (Load triangleFont 64 0 (Some idleHinter) fresh)) None
           idleHinter_keeps idleHinter_keeps_zones).
  vm_compute. reflexivity.
Defined.

(** The compound glyph whose first component fails to load and whose
    second is the dot. *)
Lemma Load_compound_bounds_witness :
  B (buf (world_of (Load nestedFont 64 0 noHinter fresh))) = mkBounds 64 128 192 256.
Proof.
  destruct (Load_compound_bounds nestedFont 64 0 noHinter
              (default (Slice [] []) (glyphData nestedFont 0)) (mkBounds 1 2 3 4)
              [mkComponent 34 1 1 1; mkComponent 2 2 1 1] fresh (resetWorld fresh)
              (world_of (Load nestedFont 64 0 noHinter fresh)) None
              ltac:(vm_compute; reflexivity) ltac:(vm_compute; reflexivity)
              ltac:(vm_compute; reflexivity)
              ltac:(repeat constructor) eq_refl ltac:(vm_compute; reflexivity))
    as [_ HB].
  rewrite HB. vm_compute. reflexivity.
Defined.

(** The compound glyph made of two dots, loaded into the buffer of
    [NewGlyphBuf]: two contours, and the capacity of [End] is still 32. *)
Lemma Load_End_within_capacity_witness :
  cap (End (buf (world_of (Load pairFont 64 0 noHinter fresh)))) = 32.
Proof.
  rewrite (Load_End_within_capacity pairFont 64 0 noHinter fresh
             (world_of (Load pairFont 64 0 noHinter fresh)) None no_hinter_keeps
             ltac:(vm_compute; reflexivity) ltac:(vm_compute; discriminate)).
  reflexivity.
Defined.
